(** * ZoomControls (src/lib/ZoomControls.js): a shallow embedding

    The widget keeps three number fields ([currentScale], [minZoom],
    [maxZoom]), one cached element reference ([currentScaleElement]) and
    works on the DOM subtree of the [Controls] host it was constructed
    with.  JavaScript numbers are IEEE 754 binary64 values, taken here
    from the Standard Library's [SpecFloat]; the DOM is a rose tree and
    element references are paths from the host's root element. *)

From Stdlib Require Import ZArith QArith Qround Lia Lqa Bool Ascii.
From Stdlib Require Import Floats.SpecFloat.
From stdpp Require Import base list strings.

Open Scope Z_scope.

Set Warnings "-register-all".

(** ** JavaScript numbers *)

Module JSNumber.

Definition number := spec_float.

Definition prec : Z := 53.
Definition emax : Z := 1024.

Definition NaN : number := S754_nan.
Definition POSITIVE_INFINITY : number := S754_infinity false.
Definition NEGATIVE_INFINITY : number := S754_infinity true.
Definition pos_zero : number := S754_zero false.
Definition neg_zero : number := S754_zero true.

(** The Number value of a mathematical integer. *)
Definition of_Z (n : Z) : number := binary_normalize prec emax n 0 false.

(** The Number value of the decimal literal [d]e[q] with [q < 0], that
    is of the quotient [d / 10^(-q)], and of any literal for [0 <= q]. *)
Definition of_decimal (d : Z) (q : Z) : number :=
  if 0 <=? q then of_Z (d * 10 ^ q)
  else SFdiv prec emax (S754_finite false (Z.to_pos d) 0)
                       (S754_finite false (Z.to_pos (10 ^ (- q))) 0).

(** The literal [100] of [scale * 100]. *)
Definition hundred : number := Eval vm_compute in of_Z 100.

(** [x * y], Number::multiply: the IEEE 754 product, rounded to nearest,
    ties to even. *)
Definition mul (x y : number) : number := SFmul prec emax x y.

(** The built-in [isFinite] on a Number. *)
Definition nativeIsFinite (x : number) : bool :=
  match x with
  | S754_zero _ | S754_finite _ _ _ => true
  | S754_infinity _ | S754_nan => false
  end.

(** Number::lessThan: [None] is the specification's [undefined], the
    answer when an operand is NaN. *)
Definition lessThan (x y : number) : option bool :=
  match SFcompare x y with
  | None => None
  | Some Lt => Some true
  | Some _ => Some false
  end.

(** [x < y], [x <= y] and [x >= y] on Numbers (IsLessThan and its
    uses by the relational operators). *)
Definition lt (x y : number) : bool :=
  match lessThan x y with Some true => true | _ => false end.

Definition le (x y : number) : bool :=
  match lessThan y x with Some false => true | _ => false end.

Definition ge (x y : number) : bool :=
  match lessThan x y with Some false => true | _ => false end.

(** [Math.round]: the integral Number closest to [x], ties towards
    +Infinity, that is [floor (x + 1/2)] computed exactly; [-0] for
    [-0.5 <= x < 0] and for [-0]. *)
Definition Math_round (x : number) : number :=
  match x with
  | S754_finite s m e =>
      if 0 <=? e then x
      else
        let n := (cond_Zopp s (Zpos m) + 2 ^ (- e - 1)) / 2 ^ (- e) in
        binary_normalize prec emax n 0 s
  | _ => x
  end.

(** [Math.max] of two Numbers: NaN if one is NaN, and [+0] is larger
    than [-0]. *)
Definition Math_max (x y : number) : number :=
  match x, y with
  | S754_nan, _ | _, S754_nan => S754_nan
  | S754_zero sx, S754_zero sy => S754_zero (sx && sy)
  | _, _ => if lt x y then y else x
  end.

(** The mathematical integer a Number denotes, when it denotes one. *)
Definition to_Z (x : number) : option Z :=
  match x with
  | S754_zero _ => Some 0
  | S754_finite s m e =>
      if 0 <=? e then Some (cond_Zopp s (Zpos m * 2 ^ e))
      else if Zpos m mod 2 ^ (- e) =? 0
           then Some (cond_Zopp s (Zpos m / 2 ^ (- e)))
           else None
  | _ => None
  end.

Definition is_integral (x : number) : bool :=
  match to_Z x with Some _ => true | None => false end.

(** The sign carried by a Number that is not NaN. *)
Definition signed (s : bool) (x : number) : Prop :=
  match x with
  | S754_zero s' | S754_infinity s' | S754_finite s' _ _ => s' = s
  | S754_nan => False
  end.

(** The sign bit of a Number that is finite. *)
Definition sign_of (x : number) : bool :=
  match x with
  | S754_zero s | S754_infinity s | S754_finite s _ _ => s
  | S754_nan => false
  end.

(** A Number that is integral, or one of the two infinities. *)
Definition integral_or_infinite (x : number) : bool :=
  is_integral x || match x with S754_infinity _ => true | _ => false end.

(** *** Rounding, in integers *)

(** A [spec_float] that is a Number: its mantissa and exponent are those
    of binary64. *)
Definition is_number (x : number) : bool := valid_binary prec emax x.

(** The mantissa [m] after its [k] low digits were shifted out, with the
    two bits that locate the part lost: [shr_r] says it is at least half
    a unit, [shr_s] that it is neither nothing nor exactly half. *)
Definition shifted (m k : Z) : shr_record :=
  {| shr_m := m / 2 ^ k;
     shr_r := 2 ^ k <=? 2 * (m mod 2 ^ k);
     shr_s := negb (m mod 2 ^ k =? 0) && negb (2 * (m mod 2 ^ k) =? 2 ^ k) |}.

(** [m / 2^k] rounded to the nearest integer, a tie to the even one. *)
Definition rne (m k : Z) : Z :=
  let q := m / 2 ^ k in
  let r := m mod 2 ^ k in
  if (2 ^ k <? 2 * r) || ((2 * r =? 2 ^ k) && Z.odd q) then q + 1 else q.

(** The Number of sign [s] and magnitude [q * 2^t], for a mantissa [q]
    of at most 53 digits or equal to [2^53]. *)
Definition pack (s : bool) (q t : Z) : number :=
  if q =? 0 then S754_zero s
  else if q <? 2 ^ prec then
    if t <=? emax - prec then S754_finite s (Z.to_pos q) t else S754_infinity s
  else
    if t + 1 <=? emax - prec then S754_finite s (Z.to_pos (2 ^ (prec - 1))) (t + 1)
    else S754_infinity s.

(** The magnitude of a non-negative Number in units of the least
    positive one; an infinity ranks above every finite Number. *)
Definition rank (x : number) : Z :=
  match x with
  | S754_finite _ m e => Zpos m * 2 ^ (e - emin prec emax)
  | S754_infinity _ => 2 ^ (emax - emin prec emax)
  | S754_zero _ | S754_nan => 0
  end.

(** A Number that is zero, of either sign, or above zero. *)
Definition is_nonneg (x : number) : bool :=
  match x with
  | S754_zero _ | S754_finite false _ _ | S754_infinity false => true
  | _ => false
  end.

(** The exponent of the packed Number. *)
Definition final_exponent (q t : Z) : Z := if q <? 2 ^ prec then t else t + 1.

(** In units of the least positive Number, the integer nearest to a
    magnitude, ties upwards. *)
Definition round_rank (r : Z) : Z :=
  (2 * r + 2 ^ (- emin prec emax)) / 2 ^ (1 - emin prec emax)
  * 2 ^ (- emin prec emax).

(** *** Number::toString, radix 10 *)

Definition pow10 (q : Z) : Q :=
  if 0 <=? q then inject_Z (10 ^ q) else 1 # Z.to_pos (10 ^ (- q)).

Definition pow2 (e : Z) : Q :=
  if 0 <=? e then inject_Z (2 ^ e) else 1 # Z.to_pos (2 ^ (- e)).

(** The real number [m * 2^e]. *)
Definition real_of (m : positive) (e : Z) : Q :=
  (inject_Z (Zpos m) * pow2 e)%Q.

(** The reals that round to the Number [m * 2^e] lie between the
    midpoints to its two neighbours; the lower neighbour is half as far
    when [m] is the least normal mantissa. *)
Definition round_interval (m : positive) (e : Z) : Q * Q :=
  let v := real_of m e in
  let ulp := pow2 e in
  let below :=
    if (Zpos m =? 2 ^ (prec - 1)) && (emin prec emax <? e)
    then (ulp * (1 # 4))%Q else (ulp * (1 # 2))%Q in
  ((v - below)%Q, (v + ulp * (1 # 2))%Q).

Definition Qlt_bool (a b : Q) : bool := negb (Qle_bool b a).

(** Is the Number value of the real [r] the Number [m * 2^e]?  The
    midpoints go to the neighbour of even mantissa. *)
Definition rounds_to (m : positive) (e : Z) (r : Q) : bool :=
  let '(lo, hi) := round_interval m e in
  if Z.even (Zpos m) then Qle_bool lo r && Qle_bool r hi
  else Qlt_bool lo r && Qlt_bool r hi.

(** The integer [s], if there is one, such that [s * 10^q] has the
    Number value [m * 2^e]; of two such, the one closest to [m * 2^e],
    and the even one when they are equally close. *)
Definition candidate (m : positive) (e q : Z) : option Z :=
  let v := real_of m e in
  let p := pow10 q in
  let s1 := Qfloor (v / p)%Q in
  let s2 := s1 + 1 in
  let ok1 := (0 <? s1) && rounds_to m e (inject_Z s1 * p)%Q in
  let ok2 := rounds_to m e (inject_Z s2 * p)%Q in
  match ok1, ok2 with
  | true, true =>
      let d1 := (v - inject_Z s1 * p)%Q in
      let d2 := (inject_Z s2 * p - v)%Q in
      if Qlt_bool d1 d2 then Some s1
      else if Qlt_bool d2 d1 then Some s2
      else if Z.even s1 then Some s1 else Some s2
  | true, false => Some s1
  | false, true => Some s2
  | false, false => None
  end.

(** The largest [q <= q0] for which there is a candidate, with the
    candidate: the fewest digits that still denote the Number. *)
Fixpoint shortest_from (fuel : nat) (m : positive) (e q : Z) : Z * Z :=
  match candidate m e q with
  | Some s => (s, q)
  | None =>
      match fuel with
      | O => (Zpos m, q)
      | S fuel' => shortest_from fuel' m e (q - 1)
      end
  end.

(** [m * 2^e < 2^(digits m + e) <= 10^q0] *)
Definition shortest (m : positive) (e : Z) : Z * Z :=
  let q0 := (Zpos (digits2_pos m) + e) * 30103 / 100000 + 2 in
  shortest_from (Z.to_nat (q0 - Z.min e 0)) m e q0.

Definition digit (d : Z) : ascii := ascii_of_nat (48 + Z.to_nat d).

(** The decimal digits of [n >= 0], the most significant first; [fuel]
    bounds their number. *)
Fixpoint digits_of (fuel : nat) (n : Z) : string :=
  match fuel with
  | O => EmptyString
  | S fuel' =>
      if n <? 10 then String (digit n) EmptyString
      else digits_of fuel' (n / 10) +:+ String (digit (n mod 10)) EmptyString
  end.

(** A number has at most as many decimal digits as binary ones. *)
Definition decimal (n : Z) : string :=
  if n <? 0 then "-" +:+ digits_of (S (Z.to_nat (Z.log2 (- n)))) (- n)
  else digits_of (S (Z.to_nat (Z.log2 n))) n.

Fixpoint zeros (n : nat) : string :=
  match n with
  | O => EmptyString
  | S n' => String "0" (zeros n')
  end.

(** The text of the positive Number whose shortest digits are those of
    [s], [k] of them, scaled by [10^(n - k)]. *)
Definition format (s n : Z) : string :=
  let ds := decimal s in
  let k := Z.of_nat (String.length ds) in
  if (-5 <=? n) && (n <=? 21) then
    if k <=? n then ds +:+ zeros (Z.to_nat (n - k))
    else if 0 <? n then
      String.substring 0 (Z.to_nat n) ds +:+ "." +:+
      String.substring (Z.to_nat n) (Z.to_nat (k - n)) ds
    else "0." +:+ zeros (Z.to_nat (- n)) +:+ ds
  else
    let ex := (if 0 <? n - 1 then "+" else "-") +:+ decimal (Z.abs (n - 1)) in
    if k =? 1 then ds +:+ "e" +:+ ex
    else String.substring 0 1 ds +:+ "." +:+
         String.substring 1 (Z.to_nat (k - 1)) ds +:+ "e" +:+ ex.

Definition Number_toString (x : number) : string :=
  match x with
  | S754_nan => "NaN"
  | S754_zero _ => "0"
  | S754_infinity s => if s then "-Infinity" else "Infinity"
  | S754_finite s m e =>
      let '(d, q) := shortest m e in
      (if s then "-" else "") +:+
      format d (q + Z.of_nat (String.length (decimal d)))
  end.

End JSNumber.

Import JSNumber.

(** ** The DOM of the host *)

Module DOM.

(** A click handler: the callbacks are opaque to the widget. *)
Inductive handler := Noop | Callback (id : nat).

Record element := {
  tagName : string;
  attributes : list (string * string);
  className : string;
  disabled : bool;
  onclick : option handler
}.

Inductive node :=
| Text (data : string)
| Element (e : element) (children : list node).

(** An element reference: the child indices leading from the root
    element of the host down to the element. *)
Definition path := list nat.

Definition is_space (c : ascii) : bool :=
  match c with
  | " "%char | "009"%char | "010"%char | "012"%char | "013"%char => true
  | _ => false
  end.

(** The class list of a [className]: its tokens between ASCII
    whitespace.  [cur] is the token being read. *)
Fixpoint tokens_from (cur : string) (s : string) : list string :=
  match s with
  | EmptyString => match cur with EmptyString => [] | _ => [cur] end
  | String c s' =>
      if is_space c
      then match cur with
           | EmptyString => tokens_from EmptyString s'
           | _ => cur :: tokens_from EmptyString s'
           end
      else tokens_from (cur +:+ String c EmptyString) s'
  end.

Definition classList (e : element) : list string :=
  tokens_from EmptyString (className e).

Definition has_class (cls : string) (e : element) : bool :=
  existsb (String.eqb cls) (classList e).

(** The first element satisfying [P] among [n] and its descendants, in
    document order, as a path from [n]. *)
Fixpoint find_element (P : element -> bool) (n : node) : option path :=
  match n with
  | Text _ => None
  | Element e cs =>
      if P e then Some []
      else
        (fix first_in (ns : list node) (i : nat) : option path :=
           match ns with
           | [] => None
           | c :: ns' =>
               match find_element P c with
               | Some p => Some (i :: p)
               | None => first_in ns' (S i)
               end
           end) cs 0%nat
  end.

(** The same over a forest whose head is the child of index [i]. *)
Fixpoint find_first (P : element -> bool) (ns : list node) (i : nat)
  : option path :=
  match ns with
  | [] => None
  | c :: ns' =>
      match find_element P c with
      | Some p => Some (i :: p)
      | None => find_first P ns' (S i)
      end
  end.

(** [root.querySelector('.cls')]: the first descendant of [root] with
    the class, [None] for JavaScript's [null]. *)
Definition querySelector (root : node) (cls : string) : option path :=
  match root with
  | Text _ => None
  | Element _ cs => find_first (has_class cls) cs 0%nat
  end.

Fixpoint get (n : node) (p : path) : option node :=
  match p with
  | [] => Some n
  | i :: p' =>
      match n with
      | Text _ => None
      | Element _ cs =>
          match cs !! i with
          | Some c => get c p'
          | None => None
          end
      end
  end.

(** Replace the node at [p] by its image under [f]. *)
Fixpoint update (f : node -> node) (n : node) (p : path) : node :=
  match p with
  | [] => f n
  | i :: p' =>
      match n with
      | Text _ => n
      | Element e cs =>
          match cs !! i with
          | Some c => Element e (<[i := update f c p']> cs)
          | None => n
          end
      end
  end.

Definition set_element_disabled (b : bool) (e : element) : element :=
  {| tagName := tagName e; attributes := attributes e;
     className := className e; disabled := b; onclick := onclick e |}.

(** [el.disabled = b] *)
Definition set_disabled (b : bool) (n : node) : node :=
  match n with
  | Text _ => n
  | Element e cs => Element (set_element_disabled b e) cs
  end.

(** [el.textContent = s]: all children are removed and, unless [s] is
    empty, one text node holding [s] is the only child. *)
Definition set_textContent (s : string) (n : node) : node :=
  match n with
  | Text _ => Text s
  | Element e _ =>
      Element e (match s with EmptyString => [] | _ => [Text s] end)
  end.

(** [node.textContent]: the text of all descendants, in document
    order. *)
Fixpoint textContent (n : node) : string :=
  match n with
  | Text s => s
  | Element _ cs =>
      (fix concat_text (ns : list node) : string :=
         match ns with
         | [] => EmptyString
         | c :: ns' => textContent c +:+ concat_text ns'
         end) cs
  end.

(** [parent.appendChild(child)] on the element at [p]. *)
Definition appendChild (child : node) (root : node) (p : path) : node :=
  update (fun n => match n with
                   | Text _ => n
                   | Element e cs => Element e (cs ++ [child])
                   end) root p.

Definition element_of (n : node) : option element :=
  match n with
  | Text _ => None
  | Element e _ => Some e
  end.

Definition children_of (n : node) : list node :=
  match n with
  | Text _ => []
  | Element _ cs => cs
  end.

(** The element at a path, if the path leads to an element. *)
Definition element_at (n : node) (p : path) : option element :=
  match get n p with
  | Some c => element_of c
  | None => None
  end.

(** Is the element at [p] disabled? *)
Definition disabled_at (root : node) (p : path) : option bool :=
  disabled <$> element_at root p.

(** The visible text of the node at a path. *)
Definition text_at (n : node) (p : path) : option string :=
  match get n p with
  | Some c => Some (textContent c)
  | None => None
  end.

Fixpoint concat_text (ns : list node) : string :=
  match ns with
  | [] => EmptyString
  | c :: ns' => textContent c +:+ concat_text ns'
  end.

(** Does the element carry the attribute [k] with value [v]? *)
Definition has_attribute (k v : string) (e : element) : bool :=
  existsb (fun kv => String.eqb k (fst kv) && String.eqb v (snd kv))
          (attributes e).

(** [root.querySelector('[k="v"]')] *)
Definition querySelector_attribute (root : node) (k v : string)
  : option path :=
  match root with
  | Text _ => None
  | Element _ cs => find_first (has_attribute k v) cs 0%nat
  end.

(** The tree with every element enabled: what is left of it when the
    [disabled] flags are not looked at. *)
Fixpoint enable_all (n : node) : node :=
  match n with
  | Text s => Text s
  | Element e cs => Element (set_element_disabled false e) (enable_all <$> cs)
  end.

End DOM.

Import DOM.

(** ** The Controls host *)

Module Controls.

(** Modelled from the spec: the Controls class of ./Controls.js is not
    part of the sources.  The spec's ControlsHost owns a rendered tree
    (its root element [controlsEl]), creates a logical group of controls
    in it and adds labelled, styled elements to a group, returning their
    handles. *)
Record t := { controlsEl : node }.

(** Modelled from the spec: the style class exported by ./Controls.js
    for buttons that sit in a group. *)
Definition CLASS_BOX_CONTROLS_GROUP_BUTTON : string := "bp-controls-group-btn".

Definition CLASS_CONTROLS_GROUP : string := "bp-controls-group".

Definition new_element (tag cls : string) (attrs : list (string * string))
    (h : option handler) : element :=
  {| tagName := tag; attributes := attrs; className := cls;
     disabled := false; onclick := h |}.

(** Modelled from the spec: [createGroup() -> GroupHandle].  The group
    is a new last child of the host's root element. *)
Definition addGroup (c : t) : t * path :=
  let root := controlsEl c in
  ({| controlsEl :=
        appendChild (Element (new_element "div" CLASS_CONTROLS_GROUP [] None) [])
                    root [] |},
   [length (children_of root)]).

(** Modelled from the spec:
    [addControl(label, onActivate, styleClasses, iconOrMarkup,
    elementKind, group) -> ElementHandle].  The new element is of kind
    [tag] ([button] when absent), is labelled [text], carries the style
    classes, has the parsed markup as its content and is the new last
    child of [parent]; only a button gets the activation handler. *)
Definition add (text : string) (handler : option DOM.handler)
    (classList : string) (content : list node) (tag : option string)
    (parent : path) (c : t) : t * path :=
  let tag := default "button" tag in
  let is_button := String.eqb tag "button" in
  let attrs :=
    [("aria-label", text); ("title", text)]
    ++ (if is_button then [("type", "button")] else []) in
  let el :=
    Element (new_element tag classList attrs
                         (if is_button then handler else None))
            content in
  let root := controlsEl c in
  ({| controlsEl := appendChild el root parent |},
   parent ++ [length (match get root parent with
                      | Some n => children_of n
                      | None => []
                      end)]).

End Controls.

(** ** JavaScript values *)

Inductive object :=
| PlainObject
| ControlsObject (c : Controls.t).

Inductive value :=
| VUndefined
| VNull
| VBoolean (b : bool)
| VNumber (x : number)
| VString (s : string)
| VObject (o : object).

(** ToBoolean, as [!controls] applies it. *)
Definition ToBoolean (v : value) : bool :=
  match v with
  | VUndefined | VNull => false
  | VBoolean b => b
  | VNumber (S754_zero _) | VNumber S754_nan => false
  | VNumber _ => true
  | VString EmptyString => false
  | VString _ => true
  | VObject _ => true
  end.

(** [v instanceof Controls] *)
Definition instanceof_Controls (v : value) : bool :=
  match v with
  | VObject (ControlsObject _) => true
  | _ => false
  end.

(** lodash's [isFinite]: a primitive Number that is finite; nothing is
    coerced. *)
Definition isFinite (v : value) : bool :=
  match v with
  | VNumber x => nativeIsFinite x
  | _ => false
  end.

Inductive error :=
| Error (message : string)
| TypeError.

(** ** ZoomControls *)

Module ZoomControls.

Definition CLASS_ZOOM_CURRENT_SCALE : string := "bp-zoom-current-scale".
Definition CLASS_ZOOM_IN_BUTTON : string := "bp-zoom-in-btn".
Definition CLASS_ZOOM_OUT_BUTTON : string := "bp-zoom-out-btn".
Definition CLASS_ZOOM_BUTTON : string := "bp-zoom-btn".

(** Modelled from the spec: the icon assets of ./icons/icons are not
    part of the sources; an icon is markup without style markers. *)
Definition icon (name : string) : list node :=
  [Element (Controls.new_element "svg" "" [("data-icon", name)] None) []].
Definition ICON_ZOOM_IN : list node := icon "zoom-in".
Definition ICON_ZOOM_OUT : list node := icon "zoom-out".

(** Modelled from the spec: the localization lookup [__] is a global of
    the build; the spec names the three labels. *)
Definition __ (key : string) : string :=
  if String.eqb key "zoom_out" then "zoom out"
  else if String.eqb key "zoom_current_scale" then "zoom current scale"
  else if String.eqb key "zoom_in" then "zoom in"
  else key.

(** The parsed markup ['<span data-testid="current-zoom">100%</span>']. *)
Definition current_zoom_markup : list node :=
  [Element (Controls.new_element "span" "" [("data-testid", "current-zoom")] None)
           [Text "100%"]].

(** A field holding an element: not yet assigned, [null], or a
    reference into the host's tree. *)
Inductive element_ref :=
| Unset
| Null
| Ref (p : path).

(** The instance.  A number field is [None] while it is [undefined].
    [controls] is the host itself, held by reference: what the widget
    does to the DOM is done to the host's tree. *)
Record t := {
  controls : Controls.t;
  currentScale : option number;
  currentScaleElement : element_ref;
  maxZoom : option number;
  minZoom : option number
}.

(** [this.controlsElement] is assigned [controls.controlsEl] by the
    constructor: the same element object, not a copy of it. *)
Definition controlsElement (zc : t) : node :=
  Controls.controlsEl (controls zc).

Definition set_controls (c : Controls.t) (zc : t) : t :=
  {| controls := c; currentScale := currentScale zc;
     currentScaleElement := currentScaleElement zc;
     maxZoom := maxZoom zc; minZoom := minZoom zc |}.

Definition set_currentScale (x : number) (zc : t) : t :=
  {| controls := controls zc; currentScale := Some x;
     currentScaleElement := currentScaleElement zc;
     maxZoom := maxZoom zc; minZoom := minZoom zc |}.

Definition set_currentScaleElement (r : element_ref) (zc : t) : t :=
  {| controls := controls zc; currentScale := currentScale zc;
     currentScaleElement := r;
     maxZoom := maxZoom zc; minZoom := minZoom zc |}.

Definition set_maxZoom (x : number) (zc : t) : t :=
  {| controls := controls zc; currentScale := currentScale zc;
     currentScaleElement := currentScaleElement zc;
     maxZoom := Some x; minZoom := minZoom zc |}.

Definition set_minZoom (x : number) (zc : t) : t :=
  {| controls := controls zc; currentScale := currentScale zc;
     currentScaleElement := currentScaleElement zc;
     maxZoom := maxZoom zc; minZoom := Some x |}.

(** An assignment to a property of the element at [p]. *)
Definition modify (f : node -> node) (p : path) (zc : t) : t :=
  set_controls {| Controls.controlsEl := update f (controlsElement zc) p |} zc.

(** How a method ends; a thrown error leaves the instance as it was
    when the error was raised. *)
Inductive outcome :=
| Normal (zc : t)
| Throw (e : error) (zc : t).

Definition instance_of (o : outcome) : t :=
  match o with Normal zc | Throw _ zc => zc end.

(** The Number a number field is read as: [undefined] converts to NaN. *)
Definition read (f : option number) : number := default NaN f.

Definition constructor (controls : value) : error + t :=
  if negb (ToBoolean controls) || negb (instanceof_Controls controls)
  then inl (Error "controls must be an instance of Controls")
  else
    match controls with
    | VObject (ControlsObject c) =>
        inr {| controls := c; currentScale := None;
               currentScaleElement := Unset;
               maxZoom := None; minZoom := None |}
    | _ => inl (Error "controls must be an instance of Controls")
    end.

Definition validateZoom (zoomValue : value) (defaultZoomValue : number)
  : number :=
  match zoomValue with
  | VNumber x => if isFinite zoomValue then x else defaultZoomValue
  | _ => defaultZoomValue
  end.

Definition checkButtonEnablement (zc : t) : t :=
  let zoomOutElement := querySelector (controlsElement zc) CLASS_ZOOM_OUT_BUTTON in
  let zoomInElement := querySelector (controlsElement zc) CLASS_ZOOM_IN_BUTTON in
  let zc :=
    match zoomOutElement with
    | Some p =>
        modify (set_disabled (le (read (currentScale zc)) (read (minZoom zc)))) p zc
    | None => zc
    end in
  match zoomInElement with
  | Some p =>
      modify (set_disabled (ge (read (currentScale zc)) (read (maxZoom zc)))) p zc
  | None => zc
  end.

Definition setCurrentScale (scale : value) (zc : t) : outcome :=
  if negb (isFinite scale) then Normal zc
  else
    match scale with
    | VNumber x =>
        let zc := set_currentScale (Math_round (mul x hundred)) zc in
        match currentScaleElement zc with
        | Ref p =>
            let text := Number_toString (read (currentScale zc)) +:+ "%" in
            let zc := modify (set_textContent text) p zc in
            Normal (checkButtonEnablement zc)
        | Unset | Null => Throw TypeError zc
        end
    | _ => Normal zc
    end.

(** The options object of [init]; an absent property is [None] or
    [VUndefined] and takes its default. *)
Module Options.
Record t := {
  zoomOutClassName : option string;
  zoomInClassName : option string;
  minZoom : value;
  maxZoom : value;
  onZoomIn : option handler;
  onZoomOut : option handler
}.

(** The object [{}]. *)
Definition empty : t :=
  {| zoomOutClassName := None; zoomInClassName := None;
     minZoom := VUndefined; maxZoom := VUndefined;
     onZoomIn := None; onZoomOut := None |}.
End Options.

Definition or_default (d : value) (v : value) : value :=
  match v with VUndefined => d | _ => v end.

Definition init (currentScale : value) (options : option Options.t) (zc : t)
  : outcome :=
  let o := default Options.empty options in
  let zoomOutClassName := default "" (Options.zoomOutClassName o) in
  let zoomInClassName := default "" (Options.zoomInClassName o) in
  let minZoom := or_default (VNumber pos_zero) (Options.minZoom o) in
  let maxZoom := or_default (VNumber POSITIVE_INFINITY) (Options.maxZoom o) in
  let onZoomIn := default Noop (Options.onZoomIn o) in
  let onZoomOut := default Noop (Options.onZoomOut o) in
  let zc := set_maxZoom
              (Math_round (mul (validateZoom maxZoom POSITIVE_INFINITY) hundred)) zc in
  let zc := set_minZoom
              (Math_round (mul (Math_max (validateZoom minZoom pos_zero) pos_zero)
                               hundred)) zc in
  let '(c, groupElement) := Controls.addGroup (controls zc) in
  let '(c, _) :=
    Controls.add (__ "zoom_out") (Some onZoomOut)
      (Controls.CLASS_BOX_CONTROLS_GROUP_BUTTON +:+ " " +:+ CLASS_ZOOM_BUTTON
         +:+ " " +:+ CLASS_ZOOM_OUT_BUTTON +:+ " " +:+ zoomOutClassName)
      ICON_ZOOM_OUT None groupElement c in
  let '(c, _) :=
    Controls.add (__ "zoom_current_scale") None CLASS_ZOOM_CURRENT_SCALE
      current_zoom_markup (Some "div") groupElement c in
  let '(c, _) :=
    Controls.add (__ "zoom_in") (Some onZoomIn)
      (Controls.CLASS_BOX_CONTROLS_GROUP_BUTTON +:+ " " +:+ CLASS_ZOOM_BUTTON
         +:+ " " +:+ CLASS_ZOOM_IN_BUTTON +:+ " " +:+ zoomInClassName)
      ICON_ZOOM_IN None groupElement c in
  let zc := set_controls c zc in
  let zc :=
    set_currentScaleElement
      (match querySelector (controlsElement zc) CLASS_ZOOM_CURRENT_SCALE with
       | Some p => Ref p
       | None => Null
       end) zc in
  setCurrentScale currentScale zc.

(** *** The parts of [init] *)

(** The two zoom options after their defaults and [validateZoom]. *)
Definition validated_maxZoom (o : Options.t) : number :=
  validateZoom (or_default (VNumber POSITIVE_INFINITY) (Options.maxZoom o))
               POSITIVE_INFINITY.

Definition validated_minZoom (o : Options.t) : number :=
  validateZoom (or_default (VNumber pos_zero) (Options.minZoom o)) pos_zero.

(** The bounds [init] stores, from the options alone. *)
Definition stored_maxZoom (o : Options.t) : number :=
  Math_round (mul (validated_maxZoom o) hundred).

Definition stored_minZoom (o : Options.t) : number :=
  Math_round (mul (Math_max (validated_minZoom o) pos_zero) hundred).

(** The group of three controls [init] adds to the host. *)
Definition zoom_group (o : Options.t) : node :=
  Element (Controls.new_element "div" Controls.CLASS_CONTROLS_GROUP [] None)
    [Element
       (Controls.new_element "button"
          (Controls.CLASS_BOX_CONTROLS_GROUP_BUTTON +:+ " " +:+ CLASS_ZOOM_BUTTON
             +:+ " " +:+ CLASS_ZOOM_OUT_BUTTON +:+ " "
             +:+ default "" (Options.zoomOutClassName o))
          [("aria-label", "zoom out"); ("title", "zoom out"); ("type", "button")]
          (Some (default Noop (Options.onZoomOut o))))
       ICON_ZOOM_OUT;
     Element
       (Controls.new_element "div" CLASS_ZOOM_CURRENT_SCALE
          [("aria-label", "zoom current scale"); ("title", "zoom current scale")]
          None)
       current_zoom_markup;
     Element
       (Controls.new_element "button"
          (Controls.CLASS_BOX_CONTROLS_GROUP_BUTTON +:+ " " +:+ CLASS_ZOOM_BUTTON
             +:+ " " +:+ CLASS_ZOOM_IN_BUTTON +:+ " "
             +:+ default "" (Options.zoomInClassName o))
          [("aria-label", "zoom in"); ("title", "zoom in"); ("type", "button")]
          (Some (default Noop (Options.onZoomIn o))))
       ICON_ZOOM_IN].

(** The instance at the moment [init] calls [setCurrentScale]. *)
Definition built (o : Options.t) (e : element) (cs : list node) (zc : t) : t :=
  {| controls := {| Controls.controlsEl := Element e (cs ++ [zoom_group o]) |};
     currentScale := currentScale zc;
     currentScaleElement :=
       match find_first (has_class CLASS_ZOOM_CURRENT_SCALE) (cs ++ [zoom_group o]) 0 with
       | Some p => Ref p
       | None => Null
       end;
     maxZoom := Some (stored_maxZoom o);
     minZoom := Some (stored_minZoom o) |}.

(** An instance is ready for scale updates when its label reference
    leads to an element of the host's tree. *)
Definition label_cached (zc : t) : Prop :=
  exists p el,
    currentScaleElement zc = Ref p /\
    element_at (controlsElement zc) p = Some el.

(** The instance after a sequence of scale updates. *)
Definition after_updates (scales : list value) (zc : t) : t :=
  foldl (fun z s => instance_of (setCurrentScale s z)) zc scales.

(** What [checkButtonEnablement] does to the host's tree, given the two
    flags it has computed. *)
Definition enablement (zoomOutDisabled zoomInDisabled : bool) (d : node) : node :=
  let d1 :=
    match querySelector d CLASS_ZOOM_OUT_BUTTON with
    | Some p => update (set_disabled zoomOutDisabled) d p
    | None => d
    end in
  match querySelector d CLASS_ZOOM_IN_BUTTON with
  | Some p => update (set_disabled zoomInDisabled) d1 p
  | None => d1
  end.

(** The cached label is the element the label selector finds: the first
    element of the tree, in document order, with the label's class. *)
Definition label_is_first (zc : t) : Prop :=
  exists p,
    currentScaleElement zc = Ref p /\
    querySelector (controlsElement zc) CLASS_ZOOM_CURRENT_SCALE = Some p.

(** The group of [init] with [kids] as the content of its label. *)
Definition zoom_group_with (o : Options.t) (kids : list node) : node :=
  match zoom_group o with
  | Element g [out; Element l _; inn] => Element g [out; Element l kids; inn]
  | g => g
  end.

End ZoomControls.

(** ** The scenarios of the specification *)

Module Scenario.

Import ZoomControls.

(** A host whose control bar is still empty. *)
Definition host : Controls.t :=
  {| Controls.controlsEl :=
       Element (Controls.new_element "div" "bp-controls" [] None) [] |}.

(** [new ZoomControls(host)] *)
Definition fresh : ZoomControls.t :=
  {| controls := host; currentScale := None; currentScaleElement := Unset;
     maxZoom := None; minZoom := None |}.

Definition number_options (lo hi : value) : Options.t :=
  {| Options.zoomOutClassName := None; Options.zoomInClassName := None;
     Options.minZoom := lo; Options.maxZoom := hi;
     Options.onZoomIn := None; Options.onZoomOut := None |}.

Definition quarter : number := of_decimal 25 (-2).
Definition half : number := of_decimal 5 (-1).
Definition one : number := of_Z 1.
Definition two : number := of_Z 2.

(** [init(0.5, {minZoom: 0.25, maxZoom: 2})] *)
Definition started : ZoomControls.t :=
  instance_of
    (init (VNumber half) (Some (number_options (VNumber quarter) (VNumber two)))
          fresh).

(** [init(1, {})] *)
Definition started_default : ZoomControls.t :=
  instance_of (init (VNumber one) (Some Options.empty) fresh).

(** The handles of the three controls in [started]. *)
Definition zoom_out_button : path := [0; 0]%nat.
Definition scale_label : path := [0; 1]%nat.
Definition zoom_in_button : path := [0; 2]%nat.

(** What a test reads: the text of the label and whether the two
    buttons are disabled. *)
Definition display (zc : ZoomControls.t)
  : option string * option bool * option bool :=
  (text_at (controlsElement zc) scale_label,
   disabled_at (controlsElement zc) zoom_out_button,
   disabled_at (controlsElement zc) zoom_in_button).

(** [1e307], a finite scale whose product with [100] is too large for a
    Number, and [-0.5]. *)
Definition huge : number := of_Z (10 ^ 307).
Definition minus_half : number := SFopp half.

(** [init(1, {minZoom: 2, maxZoom: 1})] *)
Definition started_unordered : ZoomControls.t :=
  instance_of
    (init (VNumber one) (Some (number_options (VNumber two) (VNumber one))) fresh).

(** [init(NaN, {})]: the scale is ignored. *)
Definition started_unscaled : ZoomControls.t :=
  instance_of (init (VNumber NaN) (Some Options.empty) fresh).

(** [init(1, {zoomOutClassName: 'left bp-zoom-in-btn', minZoom: 0.25,
    maxZoom: 2})]: the zoom-out button is also given the class of the
    zoom-in button. *)
Definition colliding_options : Options.t :=
  {| Options.zoomOutClassName := Some "left bp-zoom-in-btn";
     Options.zoomInClassName := None;
     Options.minZoom := VNumber quarter; Options.maxZoom := VNumber two;
     Options.onZoomIn := None; Options.onZoomOut := None |}.

Definition started_colliding : ZoomControls.t :=
  instance_of (init (VNumber one) (Some colliding_options) fresh).

(** The tree after something else replaced the element at [p] by an
    empty text node. *)
Definition without (p : path) (zc : ZoomControls.t) : ZoomControls.t :=
  modify (fun _ => Text "") p zc.

End Scenario.

(** * Facts about the DOM model *)

Section DOMFacts.

(** Induction over a tree with the hypothesis on every child. *)
Lemma node_forall_ind (P : node -> Prop) :
  (forall s, P (Text s)) ->
  (forall e cs, Forall P cs -> P (Element e cs)) ->
  forall n, P n.
Proof.
  intros HText HElement. fix IH 1. intros [s|e cs].
  - apply HText.
  - apply HElement. induction cs as [|c cs IHcs]; constructor.
    + apply IH.
    + exact IHcs.
Qed.

Lemma find_element_Element P e cs :
  find_element P (Element e cs) =
  if P e then Some [] else find_first P cs 0%nat.
Proof.
  simpl. destruct (P e); [reflexivity|].
  generalize 0%nat. induction cs as [|c cs IH]; intros i; simpl.
  - reflexivity.
  - destruct (find_element P c); [reflexivity | apply IH].
Qed.

Lemma find_first_app P ns1 ns2 i :
  find_first P (ns1 ++ ns2) i =
  match find_first P ns1 i with
  | Some p => Some p
  | None => find_first P ns2 (i + length ns1)%nat
  end.
Proof.
  revert i. induction ns1 as [|c ns1 IH]; intros i; simpl.
  - f_equal. lia.
  - destruct (find_element P c); [reflexivity|].
    rewrite IH. destruct (find_first P ns1 (S i)); [reflexivity|].
    f_equal. lia.
Qed.

(** A hit in a forest is a hit in one of its trees. *)
Lemma find_first_inv P cs i q :
  find_first P cs i = Some q ->
  exists j q' c, q = (i + j)%nat :: q' /\ cs !! j = Some c /\
                 find_element P c = Some q'.
Proof.
  revert i q. induction cs as [|c cs IHcs]; intros i q; simpl.
  - discriminate.
  - destruct (find_element P c) as [q'|] eqn:Hc.
    + intros [= <-]. exists 0%nat, q', c.
      split; [f_equal; lia | split; reflexivity || assumption].
    + intros H. destruct (IHcs _ _ H) as (j & q' & c' & -> & Hj & Hq).
      exists (S j), q', c'. split; [f_equal; lia | split; assumption].
Qed.

(** What [find_element] returns is a path to an element with the
    property. *)
Lemma find_element_sound P n p :
  find_element P n = Some p ->
  exists e, element_at n p = Some e /\ P e = true.
Proof.
  revert p. induction n as [s|e cs IH] using node_forall_ind; intros p.
  - discriminate.
  - rewrite find_element_Element. destruct (P e) eqn:HP.
    + intros [= <-]. exists e. split; [reflexivity | assumption].
    + intros H. destruct (find_first_inv _ _ _ _ H) as (j & q' & c & -> & Hj & Hq).
      rewrite Forall_forall in IH.
      destruct (IH c (list_elem_of_lookup_2 _ _ _ Hj) q' Hq) as (e' & He' & HP').
      exists e'. split; [|assumption].
      unfold element_at in *. simpl. rewrite Hj. exact He'.
Qed.

Lemma querySelector_sound root cls p :
  querySelector root cls = Some p ->
  exists e, element_at root p = Some e /\ has_class cls e = true.
Proof.
  destruct root as [s|e0 cs]; simpl; [discriminate|].
  intros H. destruct (find_first_inv _ _ _ _ H) as (j & q' & c & -> & Hj & Hq).
  destruct (find_element_sound _ _ _ Hq) as (e' & He' & HP').
  exists e'. split; [|assumption].
  unfold element_at in *. simpl. rewrite Hj. exact He'.
Qed.

(** *** Assignments to [disabled] *)

Lemma find_first_insert P cs i c c' k :
  cs !! i = Some c ->
  find_element P c' = find_element P c ->
  find_first P (<[i := c']> cs) k = find_first P cs k.
Proof.
  revert i k. induction cs as [|d cs IH]; intros i k Hi Hc; [discriminate|].
  destruct i as [|i]; simpl in *.
  - injection Hi as ->. rewrite Hc. reflexivity.
  - destruct (find_element P d); [reflexivity|]. eapply IH; eassumption.
Qed.

(** A search that does not look at [disabled] is not affected by an
    assignment to it. *)
Lemma find_element_set_disabled P b n p :
  (forall e, P (set_element_disabled b e) = P e) ->
  find_element P (update (set_disabled b) n p) = find_element P n.
Proof.
  intros HP. revert n. induction p as [|i p IH]; intros n.
  - destruct n as [s|e cs]; [reflexivity|].
    simpl update. rewrite !find_element_Element, HP. reflexivity.
  - destruct n as [s|e cs]; [reflexivity|]. simpl update.
    destruct (cs !! i) as [c|] eqn:Hi; [|reflexivity].
    rewrite !find_element_Element.
    rewrite (find_first_insert P cs i c _ 0%nat Hi (IH c)). reflexivity.
Qed.

Lemma has_class_set_disabled cls b e :
  has_class cls (set_element_disabled b e) = has_class cls e.
Proof. reflexivity. Qed.

Lemma querySelector_set_disabled cls b root p :
  querySelector (update (set_disabled b) root p) cls = querySelector root cls.
Proof.
  destruct root as [s|e cs]; destruct p as [|i p]; try reflexivity.
  simpl. destruct (cs !! i) as [c|] eqn:Hi; [|reflexivity].
  simpl. eapply find_first_insert; [eassumption|].
  apply find_element_set_disabled. intros; apply has_class_set_disabled.
Qed.

(** The element at [q] after [disabled] was assigned at [p]. *)
Lemma element_at_set_disabled b n p q :
  element_at (update (set_disabled b) n p) q =
  if decide (q = p) then set_element_disabled b <$> element_at n q
  else element_at n q.
Proof.
  revert n q. induction p as [|i p IH]; intros n q.
  - destruct q as [|j q].
    + destruct n; reflexivity.
    + destruct (decide (j :: q = [])) as [?|_]; [discriminate|].
      destruct n; reflexivity.
  - destruct n as [s|e cs].
    + simpl update. destruct (decide (q = i :: p)) as [->|_]; reflexivity.
    + simpl update. destruct (cs !! i) as [c|] eqn:Hi.
      * destruct q as [|j q].
        { destruct (decide ([] = i :: p)) as [?|_]; [discriminate|]. reflexivity. }
        unfold element_at in *. simpl get.
        destruct (decide (j = i)) as [->|Hji].
        { rewrite list_lookup_insert_eq by (eapply lookup_lt_Some; eassumption).
          rewrite Hi. specialize (IH c q).
          destruct (decide (q = p)) as [->|Hqp].
          - rewrite decide_True in IH by reflexivity.
            rewrite decide_True by reflexivity. exact IH.
          - rewrite decide_False in IH by assumption.
            rewrite decide_False by congruence. exact IH. }
        rewrite list_lookup_insert_ne by congruence.
        rewrite decide_False by congruence. reflexivity.
      * destruct (decide (q = i :: p)) as [->|_]; [|reflexivity].
        unfold element_at. simpl. rewrite Hi. reflexivity.
Qed.

(** *** Text *)

Lemma textContent_Element e cs : textContent (Element e cs) = concat_text cs.
Proof. induction cs as [|c cs IH]; simpl in *; [reflexivity | rewrite IH; reflexivity]. Qed.

Lemma concat_text_insert cs i c c' :
  cs !! i = Some c -> textContent c' = textContent c ->
  concat_text (<[i := c']> cs) = concat_text cs.
Proof.
  revert i. induction cs as [|d cs IH]; intros i Hi Hc; [discriminate|].
  destruct i as [|i]; simpl in *.
  - injection Hi as ->. rewrite Hc. reflexivity.
  - f_equal. eapply IH; eassumption.
Qed.

Lemma textContent_set_disabled b n p :
  textContent (update (set_disabled b) n p) = textContent n.
Proof.
  revert n. induction p as [|i p IH]; intros n.
  - destruct n; [reflexivity|]. simpl update. rewrite !textContent_Element. reflexivity.
  - destruct n as [s|e cs]; [reflexivity|]. simpl update.
    destruct (cs !! i) as [c|] eqn:Hi; [|reflexivity].
    rewrite !textContent_Element. eapply concat_text_insert; [eassumption | apply IH].
Qed.

(** No assignment to [disabled] changes the text of any node. *)
Lemma text_at_set_disabled b n p q :
  text_at (update (set_disabled b) n p) q = text_at n q.
Proof.
  revert n p. induction q as [|j q IH]; intros n p.
  - unfold text_at. simpl. rewrite textContent_set_disabled. reflexivity.
  - destruct p as [|i p].
    + destruct n; reflexivity.
    + destruct n as [s|e cs]; [reflexivity|]. simpl update.
      destruct (cs !! i) as [c|] eqn:Hi; [|reflexivity].
      unfold text_at in *. simpl get.
      destruct (decide (j = i)) as [->|Hji].
      * rewrite list_lookup_insert_eq by (eapply lookup_lt_Some; eassumption).
        rewrite Hi. apply IH.
      * rewrite list_lookup_insert_ne by congruence. reflexivity.
Qed.

Lemma append_empty s : s +:+ EmptyString = s.
Proof. induction s as [|a s IH]; [reflexivity|].
  change (String a (s +:+ EmptyString) = String a s). f_equal. exact IH. Qed.

Lemma textContent_set_textContent s n : textContent (set_textContent s n) = s.
Proof.
  destruct n as [t|e cs]; [reflexivity|].
  destruct s as [|a s]; [reflexivity|].
  unfold set_textContent. rewrite textContent_Element.
  unfold concat_text, textContent. apply append_empty.
Qed.

Lemma get_update f n p c :
  get n p = Some c -> get (update f n p) p = Some (f c).
Proof.
  revert n. induction p as [|i p IH]; intros n; simpl.
  - intros [= ->]. reflexivity.
  - destruct n as [s|e cs]; [discriminate|].
    destruct (cs !! i) as [d|] eqn:Hi; [|discriminate].
    intros H. simpl.
    rewrite list_lookup_insert_eq by (eapply lookup_lt_Some; eassumption).
    apply IH, H.
Qed.

Lemma get_update_None f n p :
  get n p = None -> update f n p = n.
Proof.
  revert n. induction p as [|i p IH]; intros n; simpl.
  - discriminate.
  - destruct n as [s|e cs]; [reflexivity|].
    destruct (cs !! i) as [d|] eqn:Hi; [|reflexivity].
    intros H. rewrite (IH _ H). rewrite list_insert_id by assumption. reflexivity.
Qed.

End DOMFacts.

(** * The enablement check *)

Section Enablement.

Import ZoomControls.

Lemma controlsElement_modify f p zc :
  controlsElement (modify f p zc) = update f (controlsElement zc) p.
Proof. reflexivity. Qed.

(** The tree after the check: at most two assignments to [disabled],
    at the elements found before either was made. *)
Lemma controlsElement_check zc :
  controlsElement (checkButtonEnablement zc) =
  let d := controlsElement zc in
  let d1 :=
    match querySelector d CLASS_ZOOM_OUT_BUTTON with
    | Some p => update (set_disabled (le (read (currentScale zc)) (read (minZoom zc)))) d p
    | None => d
    end in
  match querySelector d CLASS_ZOOM_IN_BUTTON with
  | Some p => update (set_disabled (ge (read (currentScale zc)) (read (maxZoom zc)))) d1 p
  | None => d1
  end.
Proof.
  unfold checkButtonEnablement. cbv zeta.
  destruct (querySelector (controlsElement zc) CLASS_ZOOM_OUT_BUTTON);
    destruct (querySelector (controlsElement zc) CLASS_ZOOM_IN_BUTTON);
    reflexivity.
Qed.

(** The check assigns no field of the instance. *)
Lemma check_fields zc :
  currentScale (checkButtonEnablement zc) = currentScale zc /\
  minZoom (checkButtonEnablement zc) = minZoom zc /\
  maxZoom (checkButtonEnablement zc) = maxZoom zc /\
  currentScaleElement (checkButtonEnablement zc) = currentScaleElement zc.
Proof.
  unfold checkButtonEnablement. cbv zeta.
  destruct (querySelector (controlsElement zc) CLASS_ZOOM_OUT_BUTTON);
    destruct (querySelector (controlsElement zc) CLASS_ZOOM_IN_BUTTON);
    repeat split.
Qed.

(** The buttons are where they were: the check changes no class. *)
Lemma querySelector_check zc cls :
  querySelector (controlsElement (checkButtonEnablement zc)) cls =
  querySelector (controlsElement zc) cls.
Proof.
  rewrite controlsElement_check. cbv zeta.
  destruct (querySelector (controlsElement zc) CLASS_ZOOM_OUT_BUTTON);
    destruct (querySelector (controlsElement zc) CLASS_ZOOM_IN_BUTTON);
    rewrite ?querySelector_set_disabled; reflexivity.
Qed.

Lemma text_at_check zc p :
  text_at (controlsElement (checkButtonEnablement zc)) p =
  text_at (controlsElement zc) p.
Proof.
  rewrite controlsElement_check. cbv zeta.
  destruct (querySelector (controlsElement zc) CLASS_ZOOM_OUT_BUTTON);
    destruct (querySelector (controlsElement zc) CLASS_ZOOM_IN_BUTTON);
    rewrite ?text_at_set_disabled; reflexivity.
Qed.

Lemma disabled_at_set_disabled_eq b n p e :
  element_at n p = Some e ->
  disabled_at (update (set_disabled b) n p) p = Some b.
Proof.
  intros H. unfold disabled_at. rewrite element_at_set_disabled.
  rewrite decide_True by reflexivity. rewrite H. reflexivity.
Qed.

Lemma disabled_at_set_disabled_ne b n p q :
  q <> p ->
  disabled_at (update (set_disabled b) n p) q = disabled_at n q.
Proof.
  intros H. unfold disabled_at. rewrite element_at_set_disabled.
  rewrite decide_False by assumption. reflexivity.
Qed.

(** Strictly between the bounds neither comparison of the check holds. *)
Lemma between_bounds c lo hi :
  lt lo c = true -> lt c hi = true -> le c lo = false /\ ge c hi = false.
Proof.
  unfold lt, le, ge.
  destruct (lessThan lo c) as [[]|]; try discriminate.
  destruct (lessThan c hi) as [[]|]; try discriminate.
  split; reflexivity.
Qed.

(** The state of both buttons once the check has run on [zc]. *)
Lemma check_sets_buttons zc po pi :
  querySelector (controlsElement zc) CLASS_ZOOM_OUT_BUTTON = Some po ->
  querySelector (controlsElement zc) CLASS_ZOOM_IN_BUTTON = Some pi ->
  po <> pi ->
  let zc' := checkButtonEnablement zc in
  disabled_at (controlsElement zc') po
    = Some (le (read (currentScale zc)) (read (minZoom zc))) /\
  disabled_at (controlsElement zc') pi
    = Some (ge (read (currentScale zc)) (read (maxZoom zc))).
Proof.
  intros Ho Hi Hne zc'. subst zc'. rewrite controlsElement_check. cbv zeta.
  rewrite Ho, Hi.
  destruct (querySelector_sound _ _ _ Ho) as (eo & Heo & _).
  destruct (querySelector_sound _ _ _ Hi) as (ei & Hei & _).
  split.
  - rewrite disabled_at_set_disabled_ne by assumption.
    eapply disabled_at_set_disabled_eq; eassumption.
  - eapply (disabled_at_set_disabled_eq _ _ _ ei).
    rewrite element_at_set_disabled.
    rewrite decide_False by congruence. assumption.
Qed.

(** A successful update ends with the check. *)
Lemma setCurrentScale_Normal scale zc zc' :
  isFinite scale = true ->
  setCurrentScale scale zc = Normal zc' ->
  exists x p,
    scale = VNumber x /\ currentScaleElement zc = Ref p /\
    zc' = checkButtonEnablement
            (modify (set_textContent
                       (Number_toString (Math_round (mul x hundred)) +:+ "%")) p
                    (set_currentScale (Math_round (mul x hundred)) zc)).
Proof.
  intros Hfin. unfold setCurrentScale. rewrite Hfin. simpl negb. cbv iota.
  destruct scale as [| |b|x|s|o]; try discriminate.
  cbv zeta. simpl currentScaleElement.
  destruct (currentScaleElement zc) as [| |p] eqn:Hp; try discriminate.
  intros [= <-]. exists x, p. repeat split.
Qed.

(** The two ways [setCurrentScale] runs. *)
Lemma setCurrentScale_skips scale zc :
  isFinite scale = false -> setCurrentScale scale zc = Normal zc.
Proof. intros H. unfold setCurrentScale. rewrite H. reflexivity. Qed.

Lemma setCurrentScale_runs x zc p :
  nativeIsFinite x = true ->
  currentScaleElement zc = Ref p ->
  setCurrentScale (VNumber x) zc
  = Normal (checkButtonEnablement
              (modify (set_textContent
                         (Number_toString (Math_round (mul x hundred)) +:+ "%")) p
                      (set_currentScale (Math_round (mul x hundred)) zc))).
Proof.
  intros Hfin Hp. unfold setCurrentScale. simpl isFinite. rewrite Hfin.
  simpl negb. cbv iota zeta. simpl currentScaleElement. rewrite Hp. reflexivity.
Qed.

(** Without a cached label a finite scale is stored and the assignment
    of the text then fails. *)
Lemma setCurrentScale_fails x zc :
  nativeIsFinite x = true ->
  (forall p, currentScaleElement zc <> Ref p) ->
  setCurrentScale (VNumber x) zc
  = Throw TypeError (set_currentScale (Math_round (mul x hundred)) zc).
Proof.
  intros Hfin Hp. unfold setCurrentScale. simpl isFinite. rewrite Hfin.
  simpl negb. cbv iota zeta. simpl currentScaleElement.
  destruct (currentScaleElement zc) as [| |p]; try reflexivity.
  exfalso. apply (Hp p). reflexivity.
Qed.

End Enablement.

(** * The scenarios *)

Section Scenarios.

Import ZoomControls Scenario.

Example half_times_hundred :
  Math_round (mul (of_decimal 5 (-1)) hundred) = of_Z 50.
Proof. vm_compute. reflexivity. Qed.

Example boundary_scenario :
  display started = (Some "50%", Some false, Some false).
Proof. vm_compute. reflexivity. Qed.

Example lower_bound_scenario :
  display (instance_of (setCurrentScale (VNumber quarter) started))
  = (Some "25%", Some true, Some false).
Proof. vm_compute. reflexivity. Qed.

Example upper_bound_scenario :
  display (instance_of (setCurrentScale (VNumber two) started))
  = (Some "200%", Some false, Some true).
Proof. vm_compute. reflexivity. Qed.

Example default_bounds_scenario :
  minZoom started_default = Some pos_zero /\
  maxZoom started_default = Some POSITIVE_INFINITY /\
  display started_default = (Some "100%", Some false, Some false).
Proof. vm_compute. repeat split. Qed.

Example construction_failure_scenario :
  constructor VNull = inl (Error "controls must be an instance of Controls") /\
  constructor (VObject PlainObject)
    = inl (Error "controls must be an instance of Controls").
Proof. split; reflexivity. Qed.

Example constructed_fresh :
  constructor (VObject (ControlsObject host)) = inr fresh.
Proof. reflexivity. Qed.

End Scenarios.


(** * What [init] builds *)

Section Init.

Import ZoomControls.

Lemma appendChild_root child e cs :
  appendChild child (Element e cs) [] = Element e (cs ++ [child]).
Proof. reflexivity. Qed.

(** Appending to the last child of the root. *)
Lemma appendChild_last child e cs g gs :
  appendChild child (Element e (cs ++ [Element g gs])) [length cs]
  = Element e (cs ++ [Element g (gs ++ [child])]).
Proof.
  unfold appendChild. simpl.
  rewrite list_lookup_middle by reflexivity.
  rewrite insert_app_r_alt by reflexivity.
  rewrite Nat.sub_diag. reflexivity.
Qed.

Lemma init_unfold currentScale options zc e cs :
  controlsElement zc = Element e cs ->
  init currentScale options zc
  = setCurrentScale currentScale (built (default Options.empty options) e cs zc).
Proof.
  intros Hroot. unfold init. cbv zeta.
  set (o := default Options.empty options).
  unfold Controls.addGroup, Controls.add.
  simpl controls. unfold controlsElement in Hroot. rewrite Hroot.
  cbv beta iota zeta. simpl Controls.controlsEl.
  rewrite appendChild_root.
  simpl default at 1.
  rewrite !appendChild_last.
  reflexivity.
Qed.

(** The label element is always found: the group that was just added
    holds one, whatever the host held before. *)
Lemma built_caches_label o e cs zc :
  exists p el,
    currentScaleElement (built o e cs zc) = Ref p /\
    element_at (controlsElement (built o e cs zc)) p = Some el /\
    has_class CLASS_ZOOM_CURRENT_SCALE el = true.
Proof.
  assert (Hfound : exists p,
            find_first (has_class CLASS_ZOOM_CURRENT_SCALE) (cs ++ [zoom_group o]) 0
            = Some p).
  { rewrite find_first_app.
    destruct (find_first (has_class CLASS_ZOOM_CURRENT_SCALE) cs 0) as [p|];
      [eexists; reflexivity|].
    unfold zoom_group. cbn [find_first]. rewrite find_element_Element.
    change (has_class CLASS_ZOOM_CURRENT_SCALE
              (Controls.new_element "div" Controls.CLASS_CONTROLS_GROUP [] None))
      with false. cbv iota.
    cbn [find_first].
    match goal with
    | |- context [find_element ?P (Element ?b ICON_ZOOM_OUT)] =>
        destruct (find_element P (Element b ICON_ZOOM_OUT)) as [q|];
        [eexists; reflexivity|]
    end.
    rewrite find_element_Element.
    change (has_class CLASS_ZOOM_CURRENT_SCALE
              (Controls.new_element "div" CLASS_ZOOM_CURRENT_SCALE
                 [("aria-label", "zoom current scale"); ("title", "zoom current scale")]
                 None)) with true.
    eexists; reflexivity. }
  destruct Hfound as (p & Hp).
  assert (Hq : querySelector (controlsElement (built o e cs zc)) CLASS_ZOOM_CURRENT_SCALE
               = Some p) by exact Hp.
  destruct (querySelector_sound _ _ _ Hq) as (el & Hel & Hcls).
  exists p, el. split; [|split; assumption].
  unfold built. simpl currentScaleElement. rewrite Hp. reflexivity.
Qed.

Lemma element_at_set_textContent s n p el :
  element_at n p = Some el ->
  element_at (update (set_textContent s) n p) p = Some el.
Proof.
  unfold element_at. intros H.
  destruct (get n p) as [c|] eqn:Hc; [|discriminate].
  rewrite (get_update _ _ _ _ Hc).
  destruct c; [discriminate | exact H].
Qed.

Lemma element_at_check zc p el :
  element_at (controlsElement zc) p = Some el ->
  exists el', element_at (controlsElement (checkButtonEnablement zc)) p = Some el'.
Proof.
  intros H. rewrite controlsElement_check. cbv zeta.
  destruct (querySelector (controlsElement zc) CLASS_ZOOM_OUT_BUTTON);
    destruct (querySelector (controlsElement zc) CLASS_ZOOM_IN_BUTTON);
    rewrite ?element_at_set_disabled;
    repeat match goal with
           | |- context [decide (?a = ?b)] => destruct (decide (a = b))
           end;
    rewrite ?H; eexists; reflexivity.
Qed.

(** Every call of [setCurrentScale] on a ready instance returns
    normally and leaves it ready. *)
Lemma setCurrentScale_keeps_label scale zc :
  label_cached zc ->
  exists zc', setCurrentScale scale zc = Normal zc' /\ label_cached zc'.
Proof.
  intros (p & el & Hp & Hel).
  destruct (isFinite scale) eqn:Hfin.
  - destruct scale as [| |b|x|s|o]; try discriminate.
    rewrite (setCurrentScale_runs x zc p Hfin Hp).
    eexists. split; [reflexivity|].
    set (zc1 := modify _ p _).
    assert (H1 : element_at (controlsElement zc1) p = Some el).
    { subst zc1. rewrite controlsElement_modify. apply element_at_set_textContent.
      exact Hel. }
    destruct (element_at_check zc1 p el H1) as (el' & Hel').
    exists p, el'. split; [|exact Hel'].
    destruct (check_fields zc1) as (_ & _ & _ & ->). exact Hp.
  - rewrite (setCurrentScale_skips _ _ Hfin).
    eexists. split; [reflexivity|]. exists p, el. split; assumption.
Qed.

(** [init] on a host whose root is an element returns normally with the
    label cached, whatever the scale and the options. *)
Lemma init_caches_label currentScale options zc e cs :
  controlsElement zc = Element e cs ->
  exists zc', init currentScale options zc = Normal zc' /\ label_cached zc'.
Proof.
  intros Hroot. rewrite (init_unfold _ _ _ _ _ Hroot).
  apply setCurrentScale_keeps_label.
  destruct (built_caches_label (default Options.empty options) e cs zc)
    as (p & el & Hp & Hel & _).
  exists p, el. split; assumption.
Qed.


(** ** The label after an update *)

Lemma enable_all_set_disabled b n q :
  enable_all (update (set_disabled b) n q) = enable_all n.
Proof.
  revert n. induction q as [|i q IH]; intros n.
  - destruct n as [s|e cs]; reflexivity.
  - destruct n as [s|e cs]; [reflexivity|]. simpl update.
    destruct (cs !! i) as [c|] eqn:Hi; [|reflexivity].
    cbn [enable_all]. f_equal.
    rewrite list_fmap_insert, IH.
    apply list_insert_id. rewrite list_lookup_fmap, Hi. reflexivity.
Qed.

Lemma get_enable_all n p : get (enable_all n) p = enable_all <$> get n p.
Proof.
  revert n. induction p as [|i p IH]; intros n; [reflexivity|].
  destruct n as [s|e cs]; [reflexivity|]. cbn [enable_all get].
  rewrite list_lookup_fmap. destruct (cs !! i) as [c|]; [apply IH | reflexivity].
Qed.

Lemma enable_all_check zc :
  enable_all (controlsElement (checkButtonEnablement zc))
  = enable_all (controlsElement zc).
Proof.
  rewrite controlsElement_check. cbv zeta.
  destruct (querySelector (controlsElement zc) CLASS_ZOOM_OUT_BUTTON);
    destruct (querySelector (controlsElement zc) CLASS_ZOOM_IN_BUTTON);
    rewrite ?enable_all_set_disabled; reflexivity.
Qed.

Lemma percent_text_not_empty a : a +:+ "%" <> EmptyString.
Proof. destruct a; discriminate. Qed.

(** After a successful update the label element holds one bare text
    node and nothing else: whatever markup it held is gone. *)
Lemma label_holds_bare_text x zc p e :
  nativeIsFinite x = true ->
  currentScaleElement zc = Ref p ->
  element_at (controlsElement zc) p = Some e ->
  children_of <$> get (controlsElement (instance_of (setCurrentScale (VNumber x) zc))) p
  = Some [Text (Number_toString (Math_round (mul x hundred)) +:+ "%")].
Proof.
  intros Hfin Hp He. rewrite (setCurrentScale_runs x zc p Hfin Hp). simpl instance_of.
  set (text := Number_toString (Math_round (mul x hundred)) +:+ "%").
  set (zc1 := modify (set_textContent text) p _).
  assert (H1 : get (controlsElement zc1) p = Some (Element e [Text text])).
  { subst zc1. rewrite controlsElement_modify.
    change (controlsElement (set_currentScale _ zc)) with (controlsElement zc).
    unfold element_at in He.
    destruct (get (controlsElement zc) p) as [c|] eqn:Hc; [|discriminate].
    rewrite (get_update _ _ _ _ Hc). destruct c as [s|e' cs]; [discriminate|].
    injection He as ->. unfold set_textContent.
    destruct text eqn:Et; [|reflexivity].
    exfalso. exact (percent_text_not_empty _ Et). }
  pose proof (get_enable_all (controlsElement (checkButtonEnablement zc1)) p) as H2.
  rewrite enable_all_check, get_enable_all, H1 in H2. simpl in H2.
  destruct (get (controlsElement (checkButtonEnablement zc1)) p) as [c|]; [|discriminate].
  destruct c as [s|e' cs]; [discriminate|]. simpl in H2 |- *.
  injection H2; intros Hcs _. f_equal.
  destruct cs as [|c cs]; [discriminate|]. destruct cs; [|discriminate].
  destruct c; [|discriminate]. injection Hcs; intros ->. reflexivity.
Qed.
End Init.

(** * Facts about JavaScript numbers *)

Section NumberFacts.

Lemma shr_1_nonneg mrs : 0 <= shr_m mrs -> 0 <= shr_m (shr_1 mrs).
Proof.
  destruct mrs as [m r t]. simpl.
  destruct m as [|p|p]; [| |lia]; intros _.
  - simpl. lia.
  - destruct p; simpl; lia.
Qed.

Lemma iter_pos_shr_1_nonneg n mrs :
  0 <= shr_m mrs -> 0 <= shr_m (SpecFloat.iter_pos shr_1 n mrs).
Proof.
  revert mrs. induction n as [n IH|n IH|]; intros mrs H; simpl.
  - apply IH, IH, shr_1_nonneg, H.
  - apply IH, IH, H.
  - apply shr_1_nonneg, H.
Qed.

Lemma shr_nonneg mrs e n : 0 <= shr_m mrs -> 0 <= shr_m (fst (shr mrs e n)).
Proof.
  intros H. destruct n; simpl; try assumption.
  apply iter_pos_shr_1_nonneg, H.
Qed.

(** A shift never lowers the exponent. *)
Lemma shr_exponent mrs e n : e <= snd (shr mrs e n).
Proof. destruct n; simpl; lia. Qed.

Lemma shr_record_of_loc_m m l : shr_m (shr_record_of_loc m l) = m.
Proof. destruct l as [|[]]; reflexivity. Qed.

Lemma round_nearest_even_nonneg m l : 0 <= m -> 0 <= round_nearest_even m l.
Proof.
  intros H. destruct l as [|[]]; simpl; try lia.
  destruct (Z.even m); lia.
Qed.

(** Rounding a non-negative mantissa: the result carries the sign it
    was given, is never NaN, and its exponent is not below the one it
    started from. *)
Lemma binary_round_aux_shape s mx ex lx :
  0 <= mx ->
  match binary_round_aux prec emax s mx ex lx with
  | S754_zero s' | S754_infinity s' => s' = s
  | S754_finite s' _ e => s' = s /\ ex <= e
  | S754_nan => False
  end.
Proof.
  intros Hmx. unfold binary_round_aux, shr_fexp.
  set (n1 := fexp prec emax (Zdigits2 mx + ex) - ex).
  pose proof (shr_nonneg (shr_record_of_loc mx lx) ex n1) as H1.
  pose proof (shr_exponent (shr_record_of_loc mx lx) ex n1) as E1.
  rewrite shr_record_of_loc_m in H1. specialize (H1 Hmx).
  destruct (shr (shr_record_of_loc mx lx) ex n1) as [mrs' e']. simpl in H1, E1.
  set (m2 := round_nearest_even (shr_m mrs') (loc_of_shr_record mrs')).
  assert (H2 : 0 <= m2) by (apply round_nearest_even_nonneg, H1).
  set (n2 := fexp prec emax (Zdigits2 m2 + e') - e').
  pose proof (shr_nonneg (shr_record_of_loc m2 loc_Exact) e' n2) as H3.
  pose proof (shr_exponent (shr_record_of_loc m2 loc_Exact) e' n2) as E2.
  simpl shr_record_of_loc in *.
  destruct (shr {| shr_m := m2; shr_r := false; shr_s := false |} e' n2)
    as [mrs'' e'']. simpl in H3, E2. specialize (H3 H2).
  destruct (shr_m mrs'') as [|m|m]; [reflexivity | | lia].
  destruct (e'' <=? emax - prec); [split; [reflexivity | lia] | reflexivity].
Qed.

Lemma binary_round_aux_signed s mx ex lx :
  0 <= mx -> signed s (binary_round_aux prec emax s mx ex lx).
Proof.
  intros H. pose proof (binary_round_aux_shape s mx ex lx H) as Hs.
  destruct (binary_round_aux prec emax s mx ex lx); simpl; tauto.
Qed.

(** [scale * 100] of a finite scale has the sign of the scale and is not
    NaN. *)
Lemma mul_hundred_signed x :
  nativeIsFinite x = true -> signed (sign_of x) (mul x hundred).
Proof.
  destruct x as [s|s| |s m e]; try discriminate; intros _.
  - simpl. apply xorb_false_r.
  - unfold mul, hundred, SFmul. rewrite xorb_false_r.
    apply binary_round_aux_signed. lia.
Qed.

Lemma Zpos_iter_xO p k : Zpos (PosDef.Pos.iter xO p k) = Zpos p * 2 ^ Zpos k.
Proof.
  change (PosDef.Pos.iter xO p k) with (Pos.iter xO p k).
  induction k as [|k IH] using Pos.peano_ind.
  - simpl. lia.
  - rewrite Pos.iter_succ, Pos2Z.inj_xO, IH, Pos2Z.inj_succ, Z.pow_succ_r by lia. lia.
Qed.

Lemma digits2_pos_iter_xO p k :
  Zpos (digits2_pos (PosDef.Pos.iter xO p k)) = Zpos (digits2_pos p) + Zpos k.
Proof.
  change (PosDef.Pos.iter xO p k) with (Pos.iter xO p k).
  induction k as [|k IH] using Pos.peano_ind.
  - simpl. lia.
  - rewrite Pos.iter_succ. simpl digits2_pos. rewrite Pos2Z.inj_succ, IH. lia.
Qed.

(** A mantissa of full width in range is its own rounding. *)
Lemma binary_round_aux_exact s m e :
  Zpos (digits2_pos m) = prec -> emin prec emax <= e <= emax - prec ->
  binary_round_aux prec emax s (Zpos m) e loc_Exact = S754_finite s m e.
Proof.
  intros Hd He. unfold binary_round_aux, shr_fexp.
  assert (E0 : fexp prec emax (Zdigits2 (Zpos m) + e) - e = 0).
  { unfold Zdigits2. rewrite Hd. unfold fexp. lia. }
  rewrite E0. cbn [shr shr_record_of_loc loc_of_shr_record shr_m round_nearest_even].
  rewrite E0. cbn [shr shr_m].
  destruct (Z.leb_spec e (emax - prec)); [reflexivity | lia].
Qed.

(** The Number value of a non-zero integer is integral or, for an
    integer beyond the range, an infinity. *)
Lemma binary_round_integer s n :
  integral_or_infinite (binary_round prec emax s n 0) = true.
Proof.
  unfold binary_round, shl_align.
  set (d := Zpos (digits2_pos n)).
  assert (Hd : 0 < d) by (subst d; lia).
  destruct (fexp prec emax (d + 0) - 0) as [|k|k] eqn:HF.
  - pose proof (binary_round_aux_shape s (Zpos n) 0 loc_Exact ltac:(lia)) as H.
    destruct (binary_round_aux prec emax s (Zpos n) 0 loc_Exact) as [| | |s' m e];
      try reflexivity; [contradiction|].
    destruct H as [_ He]. unfold integral_or_infinite, is_integral, to_Z.
    apply Z.leb_le in He. rewrite He. reflexivity.
  - pose proof (binary_round_aux_shape s (Zpos n) 0 loc_Exact ltac:(lia)) as H.
    destruct (binary_round_aux prec emax s (Zpos n) 0 loc_Exact) as [| | |s' m e];
      try reflexivity; [contradiction|].
    destruct H as [_ He]. unfold integral_or_infinite, is_integral, to_Z.
    apply Z.leb_le in He. rewrite He. reflexivity.
  - (* fewer than 53 digits: the mantissa is shifted left, nothing is lost *)
    assert (HF' : fexp prec emax (d + 0) = Zneg k) by lia.
    rewrite HF'.
    unfold fexp, emin, prec, emax in HF'.
    assert (Hk : Zpos k = 53 - d) by lia.
    rewrite binary_round_aux_exact
      by (rewrite ?digits2_pos_iter_xO; unfold emin, prec, emax; lia).
    unfold integral_or_infinite, is_integral, to_Z.
    assert (Hneg : (0 <=? Zneg k) = false) by (apply Z.leb_gt; lia).
    rewrite Hneg. rewrite Zpos_iter_xO.
    change (- Zneg k) with (Zpos k).
    rewrite Z.mod_mul by lia. reflexivity.
Qed.

Lemma binary_round_signed s n e : signed s (binary_round prec emax s n e).
Proof.
  unfold binary_round.
  destruct (shl_align n e (fexp prec emax (Zpos (digits2_pos n) + e))) as [mz ez].
  apply binary_round_aux_signed. lia.
Qed.

(** [Math.round] of a Number that is not NaN is integral or infinite. *)
Lemma Math_round_integral x :
  x <> S754_nan -> integral_or_infinite (Math_round x) = true.
Proof.
  destruct x as [s|s| |s m e]; intros Hx; try reflexivity; [congruence|].
  unfold Math_round. destruct (0 <=? e) eqn:He.
  - unfold integral_or_infinite, is_integral, to_Z. rewrite He. reflexivity.
  - unfold binary_normalize.
    destruct ((cond_Zopp s (Zpos m) + 2 ^ (- e - 1)) / 2 ^ (- e));
      [reflexivity | apply binary_round_integer | apply binary_round_integer].
Qed.

(** [Math.round] keeps the sign, that of a zero included. *)
Lemma Math_round_signed s x : signed s x -> signed s (Math_round x).
Proof.
  destruct x as [s'|s'| |s' m e]; simpl; try tauto.
  intros ->. destruct (0 <=? e) eqn:He; [reflexivity|].
  apply Z.leb_gt in He.
  assert (Hpow : 2 ^ (- e) = 2 * 2 ^ (- e - 1)).
  { replace (- e) with (Z.succ (- e - 1)) at 1 by lia.
    apply Z.pow_succ_r. lia. }
  assert (Hhalf : 0 < 2 ^ (- e - 1)) by (apply Z.pow_pos_nonneg; lia).
  unfold binary_normalize.
  destruct ((cond_Zopp s (Zpos m) + 2 ^ (- e - 1)) / 2 ^ (- e)) as [|n|n] eqn:Hn.
  - reflexivity.
  - destruct s; [|apply binary_round_signed].
    exfalso. simpl cond_Zopp in Hn.
    assert ((- Zpos m + 2 ^ (- e - 1)) / 2 ^ (- e) <= 0); [|lia].
    apply Z.lt_succ_r. apply Z.div_lt_upper_bound; lia.
  - destruct s; [apply binary_round_signed|].
    exfalso. simpl cond_Zopp in Hn.
    assert (0 <= (Zpos m + 2 ^ (- e - 1)) / 2 ^ (- e)); [|lia].
    apply Z.div_pos; lia.
Qed.

(** A Number with a clear sign bit is not below zero. *)
Lemma signed_false_nonneg x : signed false x -> le pos_zero x = true.
Proof. destruct x as [s|s| |s m e]; simpl; try tauto; intros ->; reflexivity. Qed.

Lemma signed_not_nan s x : signed s x -> x <> S754_nan.
Proof. destruct x; simpl; congruence || tauto. Qed.

(** Only +Infinity reaches an infinite upper bound. *)
Lemma ge_infinity x : ge x POSITIVE_INFINITY = true <-> x = POSITIVE_INFINITY.
Proof.
  split; [|intros ->; reflexivity].
  destruct x as [[]|[]| |[] m e]; try discriminate; reflexivity.
Qed.

Lemma le_infinity x : x <> S754_nan -> le x POSITIVE_INFINITY = true.
Proof. destruct x as [[]|[]| |[] m e]; try reflexivity. congruence. Qed.


End NumberFacts.

(** * Bounds and the current scale across calls *)

Section Bounds.

Import ZoomControls.

(** [setCurrentScale] assigns neither bound, however it ends. *)
Lemma setCurrentScale_bounds scale zc :
  minZoom (instance_of (setCurrentScale scale zc)) = minZoom zc /\
  maxZoom (instance_of (setCurrentScale scale zc)) = maxZoom zc.
Proof.
  unfold setCurrentScale. destruct (isFinite scale); [|split; reflexivity].
  simpl negb. cbv iota. destruct scale as [| |b|x|s|o]; try (split; reflexivity).
  cbv zeta. simpl currentScaleElement.
  destruct (currentScaleElement zc) as [| |p]; try (split; reflexivity).
  simpl instance_of.
  match goal with
  | |- context [checkButtonEnablement ?z] =>
      destruct (check_fields z) as (_ & -> & -> & _)
  end.
  split; reflexivity.
Qed.

(** The field [currentScale] after a call. *)
Lemma setCurrentScale_currentScale scale zc :
  currentScale (instance_of (setCurrentScale scale zc)) =
  match scale with
  | VNumber x =>
      if nativeIsFinite x then Some (Math_round (mul x hundred)) else currentScale zc
  | _ => currentScale zc
  end.
Proof.
  unfold setCurrentScale.
  destruct scale as [| |b|x|s|o]; try reflexivity.
  simpl isFinite. destruct (nativeIsFinite x); [|reflexivity].
  simpl negb. cbv iota zeta. simpl currentScaleElement.
  destruct (currentScaleElement zc) as [| |p]; try reflexivity.
  simpl instance_of.
  match goal with
  | |- context [checkButtonEnablement ?z] =>
      destruct (check_fields z) as (-> & _)
  end.
  reflexivity.
Qed.

(** [init] ends with a scale update of an instance that has both bounds
    and the scale it had before. *)
Lemma init_ends_with_update currentScale options zc :
  exists zcb,
    init currentScale options zc = setCurrentScale currentScale zcb /\
    ZoomControls.currentScale zcb = ZoomControls.currentScale zc /\
    minZoom zcb = Some (stored_minZoom (default Options.empty options)) /\
    maxZoom zcb = Some (stored_maxZoom (default Options.empty options)).
Proof.
  unfold init. cbv zeta.
  unfold Controls.addGroup, Controls.add. cbv beta iota zeta.
  eexists. split; [reflexivity|]. repeat split.
Qed.

Lemma init_bounds currentScale options zc :
  minZoom (instance_of (init currentScale options zc))
    = Some (stored_minZoom (default Options.empty options)) /\
  maxZoom (instance_of (init currentScale options zc))
    = Some (stored_maxZoom (default Options.empty options)).
Proof.
  destruct (init_ends_with_update currentScale options zc) as (zcb & -> & _ & Hlo & Hhi).
  destruct (setCurrentScale_bounds currentScale zcb) as (-> & ->).
  split; assumption.
Qed.

Lemma after_updates_bounds scales zc :
  minZoom (after_updates scales zc) = minZoom zc /\
  maxZoom (after_updates scales zc) = maxZoom zc.
Proof.
  revert zc. induction scales as [|s scales IH]; intros zc; [split; reflexivity|].
  simpl. destruct (IH (instance_of (setCurrentScale s zc))) as (-> & ->).
  apply setCurrentScale_bounds.
Qed.

(** The stored bounds spelled out by the kind of option given. *)
Lemma stored_minZoom_cases o :
  stored_minZoom o =
  match Options.minZoom o with
  | VNumber x =>
      if nativeIsFinite x then Math_round (mul (Math_max x pos_zero) hundred)
      else pos_zero
  | _ => pos_zero
  end.
Proof.
  unfold stored_minZoom, validated_minZoom.
  destruct (Options.minZoom o) as [| |b|x|s|ob]; try reflexivity.
  simpl. destruct (nativeIsFinite x); reflexivity.
Qed.

Lemma stored_maxZoom_cases o :
  stored_maxZoom o =
  match Options.maxZoom o with
  | VNumber x =>
      if nativeIsFinite x then Math_round (mul x hundred) else POSITIVE_INFINITY
  | _ => POSITIVE_INFINITY
  end.
Proof.
  unfold stored_maxZoom, validated_maxZoom.
  destruct (Options.maxZoom o) as [| |b|x|s|ob]; try reflexivity.
  simpl. destruct (nativeIsFinite x); reflexivity.
Qed.

Lemma Math_max_zero_signed x :
  nativeIsFinite x = true ->
  nativeIsFinite (Math_max x pos_zero) = true /\ signed false (Math_max x pos_zero).
Proof.
  destruct x as [s|s| |s m e]; try discriminate; intros _.
  - simpl. rewrite andb_false_r. split; reflexivity.
  - destruct s; split; reflexivity.
Qed.

(** The lower bound is a Number with a clear sign bit: it is not NaN. *)
Lemma stored_minZoom_signed o : signed false (stored_minZoom o).
Proof.
  unfold stored_minZoom, validated_minZoom.
  set (v := validateZoom _ pos_zero).
  assert (Hv : nativeIsFinite v = true).
  { subst v. unfold validateZoom.
    destruct (or_default _ _) as [| |b|x|s|ob]; try reflexivity.
    simpl. destruct (nativeIsFinite x) eqn:E; [exact E | reflexivity]. }
  destruct (Math_max_zero_signed v Hv) as (Hfin & Hsig).
  apply Math_round_signed.
  pose proof (mul_hundred_signed _ Hfin) as H.
  replace (sign_of (Math_max v pos_zero)) with false in H; [exact H|].
  destruct (Math_max v pos_zero); simpl in *; congruence || tauto.
Qed.

(** The zoom-in button after the check, wherever the zoom-out button
    is. *)
Lemma check_sets_zoom_in zc pi :
  querySelector (controlsElement zc) CLASS_ZOOM_IN_BUTTON = Some pi ->
  disabled_at (controlsElement (checkButtonEnablement zc)) pi
    = Some (ge (read (currentScale zc)) (read (maxZoom zc))).
Proof.
  intros Hi. rewrite controlsElement_check. cbv zeta. rewrite Hi.
  destruct (querySelector_sound _ _ _ Hi) as (ei & Hei & _).
  destruct (querySelector (controlsElement zc) CLASS_ZOOM_OUT_BUTTON) as [po|].
  - destruct (decide (pi = po)) as [->|Hne].
    + eapply (disabled_at_set_disabled_eq _ _ _ (set_element_disabled _ ei)).
      rewrite element_at_set_disabled, decide_True by reflexivity.
      rewrite Hei. reflexivity.
    + eapply (disabled_at_set_disabled_eq _ _ _ ei).
      rewrite element_at_set_disabled, decide_False by assumption. exact Hei.
  - eapply disabled_at_set_disabled_eq; eassumption.
Qed.

(** The element the zoom-out selector finds keeps the zoom-out state
    unless the zoom-in selector finds it too. *)
Lemma check_sets_zoom_out zc po :
  querySelector (controlsElement zc) CLASS_ZOOM_OUT_BUTTON = Some po ->
  querySelector (controlsElement zc) CLASS_ZOOM_IN_BUTTON <> Some po ->
  disabled_at (controlsElement (checkButtonEnablement zc)) po
    = Some (le (read (currentScale zc)) (read (minZoom zc))).
Proof.
  intros Ho Hi. rewrite controlsElement_check. cbv zeta. rewrite Ho.
  destruct (querySelector_sound _ _ _ Ho) as (eo & Heo & _).
  destruct (querySelector (controlsElement zc) CLASS_ZOOM_IN_BUTTON) as [pi|].
  - rewrite disabled_at_set_disabled_ne by congruence.
    eapply disabled_at_set_disabled_eq; eassumption.
  - eapply disabled_at_set_disabled_eq; eassumption.
Qed.

End Bounds.
(** * Rounding to a Number is monotone *)

Section Rounding.

(** ** Digits *)

Lemma digits2_pos_log2 p : Zpos (digits2_pos p) = Z.log2 (Zpos p) + 1.
Proof.
  induction p as [p IH|p IH|].
  - simpl digits2_pos. rewrite Pos2Z.inj_succ, IH.
    change (Zpos p~1) with (2 * Zpos p + 1). rewrite Z.log2_succ_double by lia. lia.
  - simpl digits2_pos. rewrite Pos2Z.inj_succ, IH.
    change (Zpos p~0) with (2 * Zpos p). rewrite Z.log2_double by lia. lia.
  - reflexivity.
Qed.

(** [n] has [d] binary digits. *)
Lemma Zdigits2_bounds n : 0 < n -> 2 ^ (Zdigits2 n - 1) <= n < 2 ^ Zdigits2 n.
Proof.
  intros Hn. destruct n as [|p|p]; try lia.
  unfold Zdigits2. rewrite digits2_pos_log2.
  replace (Z.log2 (Zpos p) + 1 - 1) with (Z.log2 (Zpos p)) by lia.
  pose proof (Z.log2_spec (Zpos p) ltac:(lia)) as H.
  replace (Z.log2 (Zpos p) + 1) with (Z.succ (Z.log2 (Zpos p))) by lia. exact H.
Qed.

Lemma Zdigits2_pos n : 0 < n -> 0 < Zdigits2 n.
Proof. destruct n; simpl; lia. Qed.

Lemma Zdigits2_unique n d : 0 < n -> 2 ^ (d - 1) <= n < 2 ^ d -> Zdigits2 n = d.
Proof.
  intros Hn [Hlo Hhi].
  destruct (Zdigits2_bounds n Hn) as [Hlo' Hhi'].
  pose proof (Zdigits2_pos n Hn) as Hd.
  assert (0 < d).
  { destruct (Z.lt_ge_cases 0 d) as [?|?]; [assumption|]. exfalso.
    destruct (Z.eq_dec d 0) as [->|?]; [simpl in Hhi; lia|].
    rewrite Z.pow_neg_r in Hhi by lia. lia. }
  destruct (Z.lt_trichotomy (Zdigits2 n) d) as [Hlt|[Heq|Hgt]]; [|assumption|].
  - assert (2 ^ Zdigits2 n <= 2 ^ (d - 1)) by (apply Z.pow_le_mono_r; lia). lia.
  - assert (2 ^ d <= 2 ^ (Zdigits2 n - 1)) by (apply Z.pow_le_mono_r; lia). lia.
Qed.

(** More digits, larger number. *)
Lemma Zdigits2_le n1 n2 : 0 < n1 -> n1 <= n2 -> Zdigits2 n1 <= Zdigits2 n2.
Proof.
  intros H1 H12.
  destruct (Zdigits2_bounds n1 H1) as [Hlo1 _].
  destruct (Zdigits2_bounds n2 ltac:(lia)) as [_ Hhi2].
  destruct (Z.le_gt_cases (Zdigits2 n1) (Zdigits2 n2)) as [?|Hgt]; [assumption|].
  assert (2 ^ Zdigits2 n2 <= 2 ^ (Zdigits2 n1 - 1)) by (apply Z.pow_le_mono_r; lia).
  lia.
Qed.

(** ** Shifting digits out *)

Lemma shifted_0 m : shifted m 0 = {| shr_m := m; shr_r := false; shr_s := false |}.
Proof.
  unfold shifted. change (2 ^ 0) with 1. rewrite Z.div_1_r, Z.mod_1_r. reflexivity.
Qed.

Lemma shr_1_arith mrs :
  0 <= shr_m mrs ->
  shr_1 mrs = {| shr_m := shr_m mrs / 2; shr_r := Z.odd (shr_m mrs);
                 shr_s := shr_r mrs || shr_s mrs |}.
Proof.
  destruct mrs as [m r t]. simpl. intros Hm.
  destruct m as [|[p|p|]|]; try lia; f_equal.
  - change (Zpos p~1) with (2 * Zpos p + 1).
    apply (Z.div_unique _ _ (Zpos p) 1); lia.
  - change (Zpos p~0) with (2 * Zpos p).
    apply (Z.div_unique _ _ (Zpos p) 0); lia.
Qed.

Lemma shr_1_shifted m k : 0 <= m -> 0 <= k -> shr_1 (shifted m k) = shifted m (k + 1).
Proof.
  intros Hm Hk.
  assert (Hp : 0 < 2 ^ k) by (apply Z.pow_pos_nonneg; lia).
  rewrite shr_1_arith by (simpl; apply Z.div_pos; lia).
  unfold shifted. simpl shr_m. simpl shr_r. simpl shr_s.
  rewrite Z.pow_add_r, Z.pow_1_r by lia.
  set (q := m / 2 ^ k). set (r := m mod 2 ^ k).
  assert (Hr : 0 <= r < 2 ^ k) by (apply Z.mod_pos_bound; lia).
  assert (Hq : 0 <= q) by (apply Z.div_pos; lia).
  assert (Hdiv : m / (2 ^ k * 2) = q / 2) by (subst q; rewrite Z.div_div by lia; reflexivity).
  assert (Hmod : m mod (2 ^ k * 2) = r + 2 ^ k * (q mod 2))
    by (subst q r; apply Z.rem_mul_r; lia).
  rewrite Hdiv, Hmod.
  assert (Hq2 : q mod 2 = if Z.odd q then 1 else 0).
  { rewrite Zmod_odd. reflexivity. }
  rewrite Hq2. f_equal.
  - destruct (Z.odd q); symmetry; [apply Z.leb_le | apply Z.leb_gt]; lia.
  - destruct (Z.leb_spec (2 ^ k) (2 * r)) as [H1|H1];
      destruct (Z.eqb_spec r 0) as [H2|H2];
      destruct (Z.eqb_spec (2 * r) (2 ^ k)) as [H3|H3];
      destruct (Z.odd q); simpl;
      repeat match goal with
             | |- context [?a =? ?b] => destruct (Z.eqb_spec a b)
             end; simpl; try reflexivity; lia.
Qed.

Lemma iter_pos_shifted n m k :
  0 <= m -> 0 <= k ->
  SpecFloat.iter_pos shr_1 n (shifted m k) = shifted m (k + Zpos n).
Proof.
  intros Hm. revert k. induction n as [n IH|n IH|]; intros k Hk;
    cbn [SpecFloat.iter_pos].
  - rewrite shr_1_shifted, IH, IH by lia. f_equal. lia.
  - rewrite IH, IH by lia. f_equal. lia.
  - apply shr_1_shifted; assumption.
Qed.

(** Shifting by [n] when [n] is positive, not at all otherwise. *)
Lemma shr_shifted m e n :
  0 <= m ->
  shr (shifted m 0) e n = (shifted m (Z.max n 0), e + Z.max n 0).
Proof.
  intros Hm. destruct n as [|n|n]; simpl.
  - rewrite Z.add_0_r. reflexivity.
  - rewrite iter_pos_shifted by lia. reflexivity.
  - rewrite Z.add_0_r. reflexivity.
Qed.

(** ** Rounding to nearest, ties to even *)

Lemma round_shifted m k :
  round_nearest_even (shr_m (shifted m k)) (loc_of_shr_record (shifted m k)) = rne m k.
Proof.
  unfold rne, shifted, loc_of_shr_record, round_nearest_even. simpl shr_m.
  set (q := m / 2 ^ k). set (r := m mod 2 ^ k).
  rewrite <- Z.negb_odd.
  destruct (Z.leb_spec (2 ^ k) (2 * r)) as [H1|H1];
    destruct (Z.eqb_spec r 0) as [H2|H2];
    destruct (Z.eqb_spec (2 * r) (2 ^ k)) as [H3|H3];
    destruct (Z.ltb_spec (2 ^ k) (2 * r)) as [H4|H4];
    destruct (Z.odd q); simpl; try reflexivity; lia.
Qed.

Lemma rne_0 m : rne m 0 = m.
Proof.
  unfold rne. change (2 ^ 0) with 1. rewrite Z.div_1_r, Z.mod_1_r. reflexivity.
Qed.

Lemma rne_bounds m k : 0 <= k -> m / 2 ^ k <= rne m k <= m / 2 ^ k + 1.
Proof. intros _. unfold rne. cbv zeta. destruct (_ || _); lia. Qed.

(** Rounding is monotone. *)
Lemma rne_le m1 m2 k : 0 <= k -> m1 <= m2 -> rne m1 k <= rne m2 k.
Proof.
  intros Hk H12.
  assert (Hp : 0 < 2 ^ k) by (apply Z.pow_pos_nonneg; lia).
  pose proof (Z.div_le_mono m1 m2 (2 ^ k) Hp H12) as Hq.
  pose proof (Z.div_mod m1 (2 ^ k) ltac:(lia)) as E1.
  pose proof (Z.div_mod m2 (2 ^ k) ltac:(lia)) as E2.
  pose proof (Z.mod_pos_bound m1 (2 ^ k) Hp) as B1.
  pose proof (Z.mod_pos_bound m2 (2 ^ k) Hp) as B2.
  unfold rne. cbv zeta.
  set (q1 := m1 / 2 ^ k) in *. set (q2 := m2 / 2 ^ k) in *.
  set (r1 := m1 mod 2 ^ k) in *. set (r2 := m2 mod 2 ^ k) in *.
  destruct (Z.eq_dec q1 q2) as [E|NE].
  - rewrite <- E in *. assert (r1 <= r2) by nia.
    destruct (Z.ltb_spec (2 ^ k) (2 * r1)); destruct (Z.ltb_spec (2 ^ k) (2 * r2));
      destruct (Z.eqb_spec (2 * r1) (2 ^ k)); destruct (Z.eqb_spec (2 * r2) (2 ^ k));
      destruct (Z.odd q1); simpl; lia.
  - destruct (_ || _); destruct (_ || _); lia.
Qed.

(** Rounding does not depend on how the number is scaled. *)
Lemma rne_scale m k j : 0 <= k -> 0 <= j -> rne (m * 2 ^ j) (k + j) = rne m k.
Proof.
  intros Hk Hj.
  assert (Hpk : 0 < 2 ^ k) by (apply Z.pow_pos_nonneg; lia).
  assert (Hpj : 0 < 2 ^ j) by (apply Z.pow_pos_nonneg; lia).
  unfold rne. cbv zeta. rewrite Z.pow_add_r by lia.
  rewrite Z.div_mul_cancel_r by lia.
  rewrite Z.mul_mod_distr_r by lia.
  set (q := m / 2 ^ k). set (r := m mod 2 ^ k).
  replace (2 ^ k * 2 ^ j <? 2 * (r * 2 ^ j)) with (2 ^ k <? 2 * r).
  2:{ destruct (Z.ltb_spec (2 ^ k) (2 * r)); symmetry;
        [apply Z.ltb_lt | apply Z.ltb_ge]; nia. }
  replace (2 * (r * 2 ^ j) =? 2 ^ k * 2 ^ j) with (2 * r =? 2 ^ k).
  2:{ destruct (Z.eqb_spec (2 * r) (2 ^ k)); symmetry;
        [apply Z.eqb_eq | apply Z.eqb_neq]; nia. }
  reflexivity.
Qed.


(** ** What [binary_round_aux] computes *)

Lemma fexp_ge_emin d : emin prec emax <= fexp prec emax d.
Proof. unfold fexp. lia. Qed.

Lemma fexp_ge_digits d : d - prec <= fexp prec emax d.
Proof. unfold fexp. lia. Qed.

Lemma fexp_le d1 d2 : d1 <= d2 -> fexp prec emax d1 <= fexp prec emax d2.
Proof. unfold fexp. lia. Qed.

(** The exact mantissa [n] at exponent [e0], when [e0] is not above the
    exponent the format gives the result, is rounded at that exponent. *)
Lemma binary_round_aux_spec s n e0 :
  0 < n ->
  e0 <= fexp prec emax (Zdigits2 n + e0) ->
  binary_round_aux prec emax s n e0 loc_Exact
  = pack s (rne n (fexp prec emax (Zdigits2 n + e0) - e0))
           (fexp prec emax (Zdigits2 n + e0)).
Proof.
  intros Hn Ht. set (t := fexp prec emax (Zdigits2 n + e0)) in *.
  pose proof (fexp_ge_emin (Zdigits2 n + e0)) as Hemin. fold t in Hemin.
  pose proof (fexp_ge_digits (Zdigits2 n + e0)) as Hdig. fold t in Hdig.
  unfold binary_round_aux, shr_fexp. fold t.
  change (shr_record_of_loc n loc_Exact)
    with {| shr_m := n; shr_r := false; shr_s := false |}.
  rewrite <- shifted_0, shr_shifted by lia.
  rewrite Z.max_l by lia. replace (e0 + (t - e0)) with t by lia.
  rewrite round_shifted.
  set (k := t - e0). set (q := rne n k).
  assert (Hk : 0 <= k) by lia.
  assert (Hp : 0 < 2 ^ k) by (apply Z.pow_pos_nonneg; lia).
  assert (Hq0 : 0 <= n / 2 ^ k) by (apply Z.div_pos; lia).
  assert (Hq1 : n / 2 ^ k < 2 ^ prec).
  { apply Z.div_lt_upper_bound; [lia|].
    rewrite <- Z.pow_add_r by (unfold emin, emax, prec in *; lia).
    destruct (Zdigits2_bounds n Hn) as [_ Hhi].
    eapply Z.lt_le_trans; [exact Hhi|].
    apply Z.pow_le_mono_r; lia. }
  pose proof (rne_bounds n k Hk) as Hq. fold q in Hq.
  change (shr_record_of_loc q loc_Exact)
    with {| shr_m := q; shr_r := false; shr_s := false |}.
  rewrite <- shifted_0, shr_shifted by lia.
  unfold pack.
  destruct (Z.eqb_spec q 0) as [E0|N0].
  - rewrite E0. simpl Zdigits2.
    rewrite Z.max_r by (unfold fexp, emin, emax, prec in *; lia).
    rewrite shifted_0. reflexivity.
  - assert (Hqpos : 0 < q) by lia.
    destruct (Z.ltb_spec q (2 ^ prec)) as [Hlt|Hge].
    + assert (Hd : Zdigits2 q <= prec).
      { destruct (Zdigits2_bounds q Hqpos) as [Hlo _].
        destruct (Z.le_gt_cases (Zdigits2 q) prec) as [?|Hgt]; [assumption|].
        assert (2 ^ prec <= 2 ^ (Zdigits2 q - 1))
          by (apply Z.pow_le_mono_r; unfold prec in *; lia).
        lia. }
      rewrite Z.max_r by (unfold fexp, emin, emax, prec in *; lia).
      rewrite shifted_0, Z.add_0_r. simpl shr_m.
      destruct q as [|qp|qp]; try lia. reflexivity.
    + assert (Eq : q = 2 ^ prec) by lia.
      rewrite Eq.
      assert (Ed : Zdigits2 (2 ^ prec) = prec + 1) by reflexivity.
      rewrite Ed.
      assert (Ef : fexp prec emax (prec + 1 + t) - t = 1)
        by (unfold fexp, emin, emax, prec in *; lia).
      rewrite Ef. change (Z.max 1 0) with 1.
      unfold shifted. simpl shr_m.
      change (2 ^ prec / 2 ^ 1) with (2 ^ (prec - 1)).
      change (2 ^ (prec - 1)) with (Zpos (Z.to_pos (2 ^ (prec - 1)))) at 1.
      cbv iota. reflexivity.
Qed.


(** ** Order and magnitude *)

(** What validity says about a mantissa and its exponent. *)
Lemma valid_finite s m e :
  valid_binary prec emax (S754_finite s m e) = true ->
  emin prec emax <= e <= emax - prec /\
  Zpos m < 2 ^ prec /\
  (emin prec emax < e -> 2 ^ (prec - 1) <= Zpos m).
Proof.
  unfold valid_binary, bounded, canonical_mantissa.
  intros H. apply andb_true_iff in H as [Hc He].
  apply Z.eqb_eq in Hc. apply Z.leb_le in He.
  pose proof (Zdigits2_bounds (Zpos m) ltac:(lia)) as [Hlo Hhi].
  change (Zdigits2 (Zpos m)) with (Zpos (digits2_pos m)) in Hlo, Hhi.
  set (d := Zpos (digits2_pos m)) in *.
  unfold fexp in Hc.
  split; [lia|]. split.
  - eapply Z.lt_le_trans; [exact Hhi|]. apply Z.pow_le_mono_r; lia.
  - intros Hgt. assert (d = prec) by lia. subst d. rewrite H in Hlo. exact Hlo.
Qed.

Lemma rank_finite_pos s m e :
  emin prec emax <= e -> 0 < rank (S754_finite s m e).
Proof. intros H. simpl. apply Z.mul_pos_pos; [lia|]. apply Z.pow_pos_nonneg; lia. Qed.

Lemma rank_finite_lt_infinity s m e s' :
  valid_binary prec emax (S754_finite s m e) = true ->
  rank (S754_finite s m e) < rank (S754_infinity s').
Proof.
  intros H. destruct (valid_finite _ _ _ H) as ((He1 & He2) & Hm & _). simpl.
  assert (Hp : 0 < 2 ^ (e - emin prec emax)) by (apply Z.pow_pos_nonneg; lia).
  assert (Zpos m * 2 ^ (e - emin prec emax) < 2 ^ prec * 2 ^ (e - emin prec emax)) by nia.
  rewrite <- Z.pow_add_r in H0 by (unfold emin, emax, prec in *; lia).
  eapply Z.lt_le_trans; [exact H0|]. apply Z.pow_le_mono_r; lia.
Qed.

(** Among valid Numbers a larger exponent means a larger magnitude. *)
Lemma rank_exponent_lt s1 m1 e1 s2 m2 e2 :
  valid_binary prec emax (S754_finite s1 m1 e1) = true ->
  valid_binary prec emax (S754_finite s2 m2 e2) = true ->
  e1 < e2 ->
  rank (S754_finite s1 m1 e1) < rank (S754_finite s2 m2 e2).
Proof.
  intros H1 H2 Hlt.
  destruct (valid_finite _ _ _ H1) as ((He1 & _) & Hm1 & _).
  destruct (valid_finite _ _ _ H2) as ((He2 & _) & _ & Hm2).
  specialize (Hm2 ltac:(lia)). unfold rank.
  set (a := e1 - emin prec emax).
  replace (e2 - emin prec emax) with (a + (e2 - e1)) by lia.
  rewrite Z.pow_add_r by lia.
  assert (Hp : 0 < 2 ^ a) by (apply Z.pow_pos_nonneg; lia).
  assert (H2le : 2 ^ 1 <= 2 ^ (e2 - e1)) by (apply Z.pow_le_mono_r; lia).
  change (2 ^ 1) with 2 in H2le.
  assert (Hhalf : 2 ^ prec = 2 * 2 ^ (prec - 1)) by reflexivity.
  rewrite Hhalf in Hm1.
  remember (2 ^ (prec - 1)) as P eqn:EP. remember (2 ^ (e2 - e1)) as X eqn:EX.
  remember (2 ^ a) as A eqn:EA. clear EP EX EA Hhalf.
  assert (Zpos m1 * A < 2 * P * A) by nia.
  assert (2 * P * A <= Zpos m2 * 2 * A) by nia.
  assert (Zpos m2 * 2 * A <= Zpos m2 * (A * X)) by nia.
  lia.
Qed.

(** On valid non-negative Numbers [<=] compares magnitudes. *)
Lemma le_rank x y :
  valid_binary prec emax x = true -> valid_binary prec emax y = true ->
  is_nonneg x = true -> is_nonneg y = true ->
  (le x y = true <-> rank x <= rank y).
Proof.
  intros Vx Vy Nx Ny.
  destruct x as [sx|[]| |[] mx ex]; try discriminate;
    destruct y as [sy|[]| |[] my ey]; try discriminate.
  - simpl. split; [lia | reflexivity].
  - unfold le, lessThan. simpl. split; [|reflexivity]. intros _.
    apply Z.lt_le_incl, Z.pow_pos_nonneg; unfold emin, emax, prec; lia.
  - destruct (valid_finite _ _ _ Vy) as ((He & _) & _).
    pose proof (rank_finite_pos false my ey He).
    unfold le, lessThan. simpl SFcompare. cbv iota. split; [|reflexivity].
    intros _. simpl rank at 1. lia.
  - unfold le, lessThan. simpl SFcompare. cbv iota.
    split; [discriminate|]. simpl.
    assert (0 < 2 ^ (emax - emin prec emax))
      by (apply Z.pow_pos_nonneg; unfold emin, emax, prec; lia). lia.
  - simpl. split; [lia | reflexivity].
  - pose proof (rank_finite_lt_infinity false my ey false Vy).
    unfold le, lessThan. simpl SFcompare. cbv iota. split; [discriminate | lia].
  - destruct (valid_finite _ _ _ Vx) as ((He & _) & _).
    pose proof (rank_finite_pos false mx ex He).
    unfold le, lessThan. simpl SFcompare. cbv iota.
    split; [discriminate|]. simpl rank at 2. lia.
  - pose proof (rank_finite_lt_infinity false mx ex false Vx).
    unfold le, lessThan. simpl SFcompare. cbv iota. split; [lia | reflexivity].
  - unfold le, lessThan. simpl SFcompare.
    destruct (Z.compare_spec ey ex) as [E|L|G].
    + subst ey. rewrite Pos.compare_cont_spec. simpl Pos.switch_Eq.
      destruct (valid_finite _ _ _ Vx) as ((He & _) & _).
      assert (Hp : 0 < 2 ^ (ex - emin prec emax)) by (apply Z.pow_pos_nonneg; lia).
      simpl rank.
      destruct (Pos.compare_spec my mx) as [E|L|G]; simpl.
      * subst. split; [lia | reflexivity].
      * split; [discriminate|]. intros H. exfalso.
        assert (Zpos my < Zpos mx) by lia. nia.
      * split; [|reflexivity]. intros _. assert (Zpos mx < Zpos my) by lia. nia.
    + pose proof (rank_exponent_lt false my ey false mx ex Vy Vx L).
      split; [discriminate | lia].
    + pose proof (rank_exponent_lt false mx ex false my ey Vx Vy G).
      split; [lia | reflexivity].
Qed.


(** ** Packing a rounded mantissa *)

Lemma pack_rank s q t :
  emin prec emax <= t -> 0 <= q <= 2 ^ prec ->
  rank (pack s q t) =
  if q =? 0 then 0
  else if final_exponent q t <=? emax - prec then q * 2 ^ (t - emin prec emax)
       else 2 ^ (emax - emin prec emax).
Proof.
  intros Ht Hq. unfold pack, final_exponent.
  destruct (Z.eqb_spec q 0) as [E0|N0]; [reflexivity|].
  destruct (Z.ltb_spec q (2 ^ prec)) as [Hlt|Hge].
  - destruct (t <=? emax - prec); [|reflexivity].
    simpl rank. rewrite Z2Pos.id by lia. reflexivity.
  - destruct (t + 1 <=? emax - prec); [|reflexivity].
    assert (Eq : q = 2 ^ prec) by lia. subst q.
    unfold rank. rewrite Z2Pos.id by reflexivity.
    replace (t + 1 - emin prec emax) with (1 + (t - emin prec emax)) by lia.
    rewrite Z.pow_add_r by lia.
    change (2 ^ prec) with (2 ^ (prec - 1) * 2 ^ 1). ring.
Qed.

Lemma pack_nonneg q t : is_nonneg (pack false q t) = true.
Proof.
  unfold pack. destruct (q =? 0); [reflexivity|].
  destruct (q <? 2 ^ prec); [destruct (t <=? emax - prec) | destruct (t + 1 <=? emax - prec)];
    reflexivity.
Qed.

(** A packed Number is valid when its mantissa has all its digits or
    its exponent is the least one. *)
Lemma pack_valid s q t :
  emin prec emax <= t -> 0 <= q <= 2 ^ prec ->
  (0 < q -> t = emin prec emax \/ 2 ^ (prec - 1) <= q) ->
  valid_binary prec emax (pack s q t) = true.
Proof.
  intros Ht Hq Hfull. unfold pack.
  destruct (Z.eqb_spec q 0) as [E0|N0]; [reflexivity|].
  specialize (Hfull ltac:(lia)).
  destruct (Z.ltb_spec q (2 ^ prec)) as [Hlt|Hge].
  - destruct (Z.leb_spec t (emax - prec)) as [Hle|Hgt]; [|reflexivity].
    unfold valid_binary, bounded, canonical_mantissa.
    apply andb_true_iff. split; [|apply Z.leb_le; exact Hle].
    apply Z.eqb_eq. destruct q as [|p|p]; try lia.
    rewrite Pos2Z.id (* Z.to_pos (Zpos p) = p *) || idtac.
    change (Z.to_pos (Zpos p)) with p.
    change (Zpos (digits2_pos p)) with (Zdigits2 (Zpos p)).
    pose proof (Zdigits2_bounds (Zpos p) ltac:(lia)) as [Hlo Hhi].
    assert (Hd : Zdigits2 (Zpos p) <= prec).
    { destruct (Z.le_gt_cases (Zdigits2 (Zpos p)) prec) as [?|Hgt]; [assumption|].
      assert (2 ^ prec <= 2 ^ (Zdigits2 (Zpos p) - 1))
        by (apply Z.pow_le_mono_r; unfold prec in *; lia).
      lia. }
    destruct Hfull as [->|Hfull]; [unfold fexp; lia|].
    assert (Zdigits2 (Zpos p) = prec).
    { apply Zdigits2_unique; [lia | split; assumption]. }
    unfold fexp. lia.
  - destruct (Z.leb_spec (t + 1) (emax - prec)) as [Hle|Hgt]; [|reflexivity].
    unfold valid_binary, bounded, canonical_mantissa.
    apply andb_true_iff. split; [|apply Z.leb_le; exact Hle].
    apply Z.eqb_eq.
    change (Zpos (digits2_pos (Z.to_pos (2 ^ (prec - 1))))) with prec.
    unfold fexp. lia.
Qed.

Lemma rank_pack_le_infinity q t :
  emin prec emax <= t -> 0 <= q <= 2 ^ prec ->
  rank (pack false q t) <= 2 ^ (emax - emin prec emax).
Proof.
  intros Ht Hq. rewrite pack_rank by assumption. unfold final_exponent.
  assert (HI : 0 < 2 ^ (emax - emin prec emax))
    by (apply Z.pow_pos_nonneg; unfold emin, emax, prec; lia).
  destruct (Z.eqb_spec q 0); [lia|].
  assert (Hp : 0 < 2 ^ (t - emin prec emax)) by (apply Z.pow_pos_nonneg; lia).
  destruct (Z.ltb_spec q (2 ^ prec)) as [Hlt|Hge].
  - destruct (Z.leb_spec t (emax - prec)) as [Hle|Hgt]; [|lia].
    assert (q * 2 ^ (t - emin prec emax) <= 2 ^ prec * 2 ^ (t - emin prec emax)) by nia.
    rewrite <- Z.pow_add_r in H by (unfold emin, emax, prec in *; lia).
    etransitivity; [exact H|].
    apply Z.pow_le_mono_r; unfold emin, emax, prec in *; lia.
  - destruct (Z.leb_spec (t + 1) (emax - prec)) as [Hle|Hgt]; [|lia].
    assert (Eq : q = 2 ^ prec) by lia. rewrite Eq.
    rewrite <- Z.pow_add_r by (unfold emin, emax, prec in *; lia).
    apply Z.pow_le_mono_r; unfold emin, emax, prec in *; lia.
Qed.


(** ** Monotonicity *)

Lemma quotient_lt n e0 :
  0 < n -> e0 <= fexp prec emax (Zdigits2 n + e0) ->
  0 <= n / 2 ^ (fexp prec emax (Zdigits2 n + e0) - e0) < 2 ^ prec.
Proof.
  intros Hn Ht. set (t := fexp prec emax (Zdigits2 n + e0)) in *.
  pose proof (fexp_ge_digits (Zdigits2 n + e0)) as Hdig. fold t in Hdig.
  assert (Hp : 0 < 2 ^ (t - e0)) by (apply Z.pow_pos_nonneg; lia).
  split; [apply Z.div_pos; lia|].
  apply Z.div_lt_upper_bound; [lia|].
  rewrite <- Z.pow_add_r by (unfold emin, emax, prec in *; lia).
  destruct (Zdigits2_bounds n Hn) as [_ Hhi].
  eapply Z.lt_le_trans; [exact Hhi|].
  apply Z.pow_le_mono_r; lia.
Qed.

Lemma rounded_bounds n e0 :
  0 < n -> e0 <= fexp prec emax (Zdigits2 n + e0) ->
  0 <= rne n (fexp prec emax (Zdigits2 n + e0) - e0) <= 2 ^ prec.
Proof.
  intros Hn Ht. pose proof (quotient_lt n e0 Hn Ht) as Hq.
  pose proof (rne_bounds n (fexp prec emax (Zdigits2 n + e0) - e0) ltac:(lia)). lia.
Qed.

(** Above the least exponent the rounded mantissa has all its digits. *)
Lemma rounded_full n e0 :
  0 < n -> e0 <= fexp prec emax (Zdigits2 n + e0) ->
  emin prec emax < fexp prec emax (Zdigits2 n + e0) ->
  2 ^ (prec - 1) <= rne n (fexp prec emax (Zdigits2 n + e0) - e0).
Proof.
  intros Hn Ht Hgt. set (t := fexp prec emax (Zdigits2 n + e0)) in *.
  assert (Et : t = Zdigits2 n + e0 - prec) by (unfold t, fexp in *; lia).
  pose proof (rne_bounds n (t - e0) ltac:(lia)) as Hq.
  assert (2 ^ (prec - 1) <= n / 2 ^ (t - e0)); [|lia].
  apply Z.div_le_lower_bound; [apply Z.pow_pos_nonneg; lia|].
  rewrite <- Z.pow_add_r by (unfold emin, emax, prec in *; lia).
  destruct (Zdigits2_bounds n Hn) as [Hlo _].
  replace (t - e0 + (prec - 1)) with (Zdigits2 n - 1) by lia. exact Hlo.
Qed.

(** Rounding the exact value [n1 * 2^e1] gives a Number that is not
    above the one [n2 * 2^e2] gives, when the first value is not above
    the second; [c] is any exponent below both. *)
Lemma binary_round_aux_rank_le n1 e1 n2 e2 c :
  0 < n1 -> 0 < n2 -> c <= e1 -> c <= e2 ->
  e1 <= fexp prec emax (Zdigits2 n1 + e1) ->
  e2 <= fexp prec emax (Zdigits2 n2 + e2) ->
  n1 * 2 ^ (e1 - c) <= n2 * 2 ^ (e2 - c) ->
  rank (binary_round_aux prec emax false n1 e1 loc_Exact)
  <= rank (binary_round_aux prec emax false n2 e2 loc_Exact).
Proof.
  intros Hn1 Hn2 Hc1 Hc2 Ht1 Ht2 Hle.
  rewrite !binary_round_aux_spec by assumption.
  pose proof (rounded_bounds n1 e1 Hn1 Ht1) as Hq1.
  pose proof (rounded_bounds n2 e2 Hn2 Ht2) as Hq2.
  pose proof (rounded_full n2 e2 Hn2 Ht2) as Hfull2.
  set (t1 := fexp prec emax (Zdigits2 n1 + e1)) in *.
  set (t2 := fexp prec emax (Zdigits2 n2 + e2)) in *.
  set (q1 := rne n1 (t1 - e1)) in *. set (q2 := rne n2 (t2 - e2)) in *.
  pose proof (fexp_ge_emin (Zdigits2 n1 + e1)) as Hm1. fold t1 in Hm1.
  pose proof (fexp_ge_emin (Zdigits2 n2 + e2)) as Hm2. fold t2 in Hm2.
  (* the magnitudes are ordered *)
  assert (HD : Zdigits2 n1 + e1 <= Zdigits2 n2 + e2).
  { destruct (Zdigits2_bounds n1 Hn1) as [Hlo1 _].
    destruct (Zdigits2_bounds n2 Hn2) as [_ Hhi2].
    pose proof (Zdigits2_pos n1 Hn1). pose proof (Zdigits2_pos n2 Hn2).
    assert (Hp1 : 0 < 2 ^ (e1 - c)) by (apply Z.pow_pos_nonneg; lia).
    assert (Hp2 : 0 < 2 ^ (e2 - c)) by (apply Z.pow_pos_nonneg; lia).
    assert (H1 : 2 ^ (Zdigits2 n1 - 1 + (e1 - c)) <= n1 * 2 ^ (e1 - c))
      by (rewrite Z.pow_add_r by lia; nia).
    assert (H2 : n2 * 2 ^ (e2 - c) < 2 ^ (Zdigits2 n2 + (e2 - c)))
      by (rewrite Z.pow_add_r by lia; nia).
    assert (H3 : 2 ^ (Zdigits2 n1 - 1 + (e1 - c)) < 2 ^ (Zdigits2 n2 + (e2 - c))) by lia.
    apply Z.pow_lt_mono_r_iff in H3; lia. }
  assert (Ht : t1 <= t2) by (apply fexp_le; exact HD).
  assert (Hval : q1 * 2 ^ (t1 - emin prec emax) <= q2 * 2 ^ (t2 - emin prec emax)
                 /\ final_exponent q1 t1 <= final_exponent q2 t2).
  { destruct (Z.eq_dec t1 t2) as [E|NE].
    - assert (Hq : q1 <= q2).
      { unfold q1, q2. rewrite <- E.
        rewrite <- (rne_scale n1 (t1 - e1) (e1 - c)) by lia.
        rewrite <- (rne_scale n2 (t1 - e2) (e2 - c)) by lia.
        replace (t1 - e1 + (e1 - c)) with (t1 - c) by lia.
        replace (t1 - e2 + (e2 - c)) with (t1 - c) by lia.
        apply rne_le; [lia | exact Hle]. }
      rewrite <- E.
      assert (Hp : 0 < 2 ^ (t1 - emin prec emax)) by (apply Z.pow_pos_nonneg; lia).
      split; [nia|]. unfold final_exponent.
      destruct (Z.ltb_spec q1 (2 ^ prec)); destruct (Z.ltb_spec q2 (2 ^ prec)); lia.
    - assert (Hlt : t1 < t2) by lia. specialize (Hfull2 ltac:(lia)).
      split.
      + set (a := t1 - emin prec emax).
        assert (Hp : 0 < 2 ^ a) by (apply Z.pow_pos_nonneg; lia).
        replace (t2 - emin prec emax) with (a + (t2 - t1)) by lia.
        rewrite Z.pow_add_r by lia.
        assert (H2le : 2 ^ 1 <= 2 ^ (t2 - t1)) by (apply Z.pow_le_mono_r; lia).
        change (2 ^ 1) with 2 in H2le.
        assert (Hhalf : 2 ^ prec = 2 * 2 ^ (prec - 1)) by reflexivity.
        destruct Hq1 as [Hq1a Hq1b]. rewrite Hhalf in Hq1b.
        remember (2 ^ (prec - 1)) as P eqn:EP. remember (2 ^ (t2 - t1)) as X eqn:EX.
        remember (2 ^ a) as A eqn:EA. clear EP EX EA Hhalf.
        assert (q1 * A <= 2 * P * A) by nia.
        assert (2 * P * A <= q2 * 2 * A) by nia.
        assert (q2 * 2 * A <= q2 * (A * X)) by nia.
        lia.
      + unfold final_exponent.
        destruct (Z.ltb_spec q1 (2 ^ prec)); destruct (Z.ltb_spec q2 (2 ^ prec)); lia. }
  destruct Hval as [Hval Hfe].
  pose proof (rank_pack_le_infinity q1 t1 Hm1 Hq1) as HI1.
  rewrite pack_rank in HI1 |- * by assumption.
  rewrite (pack_rank false q2 t2) by assumption.
  assert (Hp1 : 0 < 2 ^ (t1 - emin prec emax)) by (apply Z.pow_pos_nonneg; lia).
  assert (Hp2 : 0 < 2 ^ (t2 - emin prec emax)) by (apply Z.pow_pos_nonneg; lia).
  assert (HI : 0 < 2 ^ (emax - emin prec emax))
    by (apply Z.pow_pos_nonneg; unfold emin, emax, prec; lia).
  destruct (Z.eqb_spec q1 0) as [E1|N1].
  - destruct (Z.eqb_spec q2 0); [lia|].
    destruct (final_exponent q2 t2 <=? emax - prec); [nia | lia].
  - destruct (Z.eqb_spec q2 0) as [E2|N2]; [subst q2; nia|].
    destruct (Z.leb_spec (final_exponent q2 t2) (emax - prec)) as [L2|G2].
    + destruct (Z.leb_spec (final_exponent q1 t1) (emax - prec)); [exact Hval | lia].
    + exact HI1.
Qed.


(** ** [scale * 100] is monotone *)

Lemma binary_round_aux_valid s n e0 :
  0 < n -> e0 <= fexp prec emax (Zdigits2 n + e0) ->
  valid_binary prec emax (binary_round_aux prec emax s n e0 loc_Exact) = true.
Proof.
  intros Hn Ht. rewrite binary_round_aux_spec by assumption.
  apply pack_valid.
  - apply fexp_ge_emin.
  - apply rounded_bounds; assumption.
  - intros _. pose proof (fexp_ge_emin (Zdigits2 n + e0)) as Hm.
    destruct (Z.eq_dec (fexp prec emax (Zdigits2 n + e0)) (emin prec emax)) as [E|NE];
      [left; exact E | right].
    apply rounded_full; [assumption | assumption | lia].
Qed.

Lemma binary_round_aux_nonneg n e0 :
  0 < n -> e0 <= fexp prec emax (Zdigits2 n + e0) ->
  is_nonneg (binary_round_aux prec emax false n e0 loc_Exact) = true.
Proof.
  intros Hn Ht. rewrite binary_round_aux_spec by assumption. apply pack_nonneg.
Qed.

(** The exact product of a mantissa and that of [100] has its exponent
    below the one the format gives it. *)
Lemma product_exponent m e :
  e + -46 <= fexp prec emax (Zdigits2 (Zpos (m * 7036874417766400)) + (e + -46)).
Proof.
  pose proof (fexp_ge_digits (Zdigits2 (Zpos (m * 7036874417766400)) + (e + -46))) as H.
  assert (Hd : prec <= Zdigits2 (Zpos (m * 7036874417766400))).
  { apply (Zdigits2_le (2 ^ (prec - 1))); [reflexivity|].
    rewrite Pos2Z.inj_mul. change (2 ^ (prec - 1)) with 4503599627370496. lia. }
  lia.
Qed.

Lemma mul_hundred_finite m e :
  mul (S754_finite false m e) hundred
  = binary_round_aux prec emax false (Zpos (m * 7036874417766400)) (e + -46) loc_Exact.
Proof. reflexivity. Qed.

Lemma mul_hundred_valid x :
  valid_binary prec emax x = true -> is_nonneg x = true ->
  valid_binary prec emax (mul x hundred) = true /\ is_nonneg (mul x hundred) = true.
Proof.
  intros Vx Nx. destruct x as [sx|[]| |[] m e]; try discriminate.
  - split; [reflexivity|]. simpl. destruct (xorb sx false); reflexivity.
  - split; reflexivity.
  - rewrite mul_hundred_finite. split.
    + apply binary_round_aux_valid; [lia | apply product_exponent].
    + apply binary_round_aux_nonneg; [lia | apply product_exponent].
Qed.

Lemma rank_nonneg x : valid_binary prec emax x = true -> 0 <= rank x.
Proof.
  intros _. destruct x as [s|s| |s m e]; unfold rank; lia.
Qed.

Lemma mul_hundred_rank_le x y :
  valid_binary prec emax x = true -> valid_binary prec emax y = true ->
  is_nonneg x = true -> is_nonneg y = true ->
  rank x <= rank y ->
  rank (mul x hundred) <= rank (mul y hundred).
Proof.
  intros Vx Vy Nx Ny Hle.
  destruct (mul_hundred_valid y Vy Ny) as (Vy' & _).
  destruct x as [sx|[]| |[] mx ex]; try discriminate.
  - (* zero *) simpl rank at 1. apply rank_nonneg, Vy'.
  - (* infinity: only an infinity is as large *)
    destruct y as [sy|[]| |[] my ey]; try discriminate.
    + unfold rank in Hle.
      assert (0 < 2 ^ (emax - emin prec emax))
        by (apply Z.pow_pos_nonneg; unfold emin, emax, prec; lia). lia.
    + pose proof (rank_finite_lt_infinity false my ey false Vy). lia.
  - destruct y as [sy|[]| |[] my ey]; try discriminate.
    + destruct (valid_finite _ _ _ Vx) as ((He & _) & _).
      pose proof (rank_finite_pos false mx ex He). simpl rank at 2 in Hle. lia.
    + rewrite mul_hundred_finite, binary_round_aux_spec
        by (try apply product_exponent; lia).
      apply rank_pack_le_infinity; [apply fexp_ge_emin|].
      apply rounded_bounds; [lia | apply product_exponent].
    + destruct (valid_finite _ _ _ Vx) as ((Hex & _) & _).
      destruct (valid_finite _ _ _ Vy) as ((Hey & _) & _).
      rewrite !mul_hundred_finite.
      apply (binary_round_aux_rank_le _ _ _ _ (emin prec emax + -46));
        try apply product_exponent; try lia.
      simpl rank in Hle. rewrite !Pos2Z.inj_mul.
      replace (ex + -46 - (emin prec emax + -46)) with (ex - emin prec emax) by lia.
      replace (ey + -46 - (emin prec emax + -46)) with (ey - emin prec emax) by lia.
      nia.
Qed.


(** ** [Math.round] is monotone *)

(** The Number value of a positive integer below [2^53] is that
    integer. *)
Lemma binary_round_small s p :
  Zpos p < 2 ^ prec ->
  valid_binary prec emax (binary_round prec emax s p 0) = true /\
  rank (binary_round prec emax s p 0) = Zpos p * 2 ^ (- emin prec emax) /\
  signed s (binary_round prec emax s p 0).
Proof.
  intros Hp. split; [|split; [|apply binary_round_signed]].
  - unfold binary_round.
    destruct (shl_align p 0 (fexp prec emax (Zpos (digits2_pos p) + 0))) as [mz ez] eqn:Hs.
    assert (Hcan : ez <= fexp prec emax (Zdigits2 (Zpos mz) + ez)).
    { unfold shl_align in Hs.
      destruct (fexp prec emax (Zpos (digits2_pos p) + 0) - 0) as [|k|k] eqn:HF;
        injection Hs as <- <-.
      - unfold Zdigits2, fexp, emin, emax, prec in *. lia.
      - unfold Zdigits2, fexp, emin, emax, prec in *. lia.
      - unfold Zdigits2. rewrite digits2_pos_iter_xO.
        unfold fexp, emin, emax, prec in *. lia. }
    apply binary_round_aux_valid; [lia | exact Hcan].
  - unfold binary_round, shl_align.
    pose proof (Zdigits2_bounds (Zpos p) ltac:(lia)) as [Hlo Hhi].
    change (Zdigits2 (Zpos p)) with (Zpos (digits2_pos p)) in Hlo, Hhi.
    set (d := Zpos (digits2_pos p)) in *.
    assert (Hd : d <= prec).
    { destruct (Z.le_gt_cases d prec) as [?|Hgt]; [assumption|].
      assert (2 ^ prec <= 2 ^ (d - 1))
        by (apply Z.pow_le_mono_r; unfold emin, emax, prec in *; lia).
      lia. }
    assert (Hd0 : 0 < d) by (subst d; lia).
    destruct (fexp prec emax (d + 0) - 0) as [|k|k] eqn:HF.
    + assert (d = prec) by (unfold fexp, emin, emax, prec in *; lia).
      rewrite binary_round_aux_exact
        by (try assumption; unfold emin, emax, prec; lia).
      simpl rank. replace (0 - emin prec emax) with (- emin prec emax) by lia.
      reflexivity.
    + exfalso. unfold fexp, emin, emax, prec in *. lia.
    + assert (HF' : fexp prec emax (d + 0) = Zneg k) by lia.
      rewrite HF'. unfold fexp, emin, prec, emax in HF'.
      assert (Hk : Zpos k = 53 - d) by lia.
      rewrite binary_round_aux_exact
        by (rewrite ?digits2_pos_iter_xO; unfold emin, prec, emax; lia).
      unfold rank. rewrite Zpos_iter_xO.
      rewrite <- Z.mul_assoc, <- Z.pow_add_r by (unfold emin, prec, emax; lia).
      f_equal. f_equal. lia.
Qed.

Lemma round_rank_le r1 r2 : r1 <= r2 -> round_rank r1 <= round_rank r2.
Proof.
  intros H. unfold round_rank.
  apply Z.mul_le_mono_nonneg_r; [apply Z.pow_nonneg; lia|].
  apply Z.div_le_mono; [apply Z.pow_pos_nonneg; unfold emin, emax, prec; lia | lia].
Qed.

Lemma Math_round_rank x :
  valid_binary prec emax x = true -> is_nonneg x = true ->
  valid_binary prec emax (Math_round x) = true /\
  is_nonneg (Math_round x) = true /\
  rank (Math_round x) = round_rank (rank x).
Proof.
  intros Vx Nx. destruct x as [sx|[]| |[] m e]; try discriminate.
  - repeat split; vm_compute; reflexivity.
  - repeat split; vm_compute; reflexivity.
  - destruct (valid_finite _ _ _ Vx) as ((He1 & He2) & Hm & Hfull).
    assert (HE : 0 < 2 ^ (- emin prec emax))
      by (apply Z.pow_pos_nonneg; unfold emin, emax, prec; lia).
    assert (HE1 : 2 ^ (1 - emin prec emax) = 2 * 2 ^ (- emin prec emax)).
    { replace (1 - emin prec emax) with (1 + - emin prec emax) by lia.
      rewrite Z.pow_add_r by (unfold emin, emax, prec; lia). reflexivity. }
    unfold Math_round. destruct (Z.leb_spec 0 e) as [Hpos|Hneg].
    + split; [exact Vx | split; [reflexivity|]].
      unfold round_rank, rank. rewrite HE1.
      replace (e - emin prec emax) with (e + - emin prec emax) by lia.
      rewrite Z.pow_add_r by (unfold emin, emax, prec; lia).
      assert (Hpe : 0 < 2 ^ e) by (apply Z.pow_pos_nonneg; lia).
      replace (2 * (Zpos m * (2 ^ e * 2 ^ (- emin prec emax))) + 2 ^ (- emin prec emax))
        with ((2 * (Zpos m * 2 ^ e) + 1) * 2 ^ (- emin prec emax)) by ring.
      rewrite Z.div_mul_cancel_r by lia.
      replace ((2 * (Zpos m * 2 ^ e) + 1) / 2) with (Zpos m * 2 ^ e)
        by (apply (Z.div_unique _ _ _ 1); lia).
      ring.
    + simpl cond_Zopp.
      set (n := (Zpos m + 2 ^ (- e - 1)) / 2 ^ (- e)).
      assert (Hh : 0 < 2 ^ (- e - 1)) by (apply Z.pow_pos_nonneg; lia).
      assert (Hpw : 2 ^ (- e) = 2 * 2 ^ (- e - 1)).
      { replace (- e) with (1 + (- e - 1)) at 1 by lia.
        rewrite Z.pow_add_r by lia. reflexivity. }
      assert (Hn0 : 0 <= n) by (apply Z.div_pos; lia).
      assert (Hn1 : n < 2 ^ prec).
      { apply Z.div_lt_upper_bound; [lia|]. rewrite Hpw.
        remember (2 ^ (- e - 1)) as h. remember (2 ^ prec) as P.
        assert (2 <= P) by (subst P; unfold prec; lia). nia. }
      assert (Hnr : n * 2 ^ (- emin prec emax)
                    = round_rank (rank (S754_finite false m e))).
      { unfold round_rank, rank. f_equal. unfold n.
        set (c := 2 ^ (e - emin prec emax + 1)).
        assert (Hc : 0 < c) by (apply Z.pow_pos_nonneg; lia).
        rewrite <- (Z.div_mul_cancel_r (Zpos m + 2 ^ (- e - 1)) (2 ^ (- e)) c) by lia.
        f_equal.
        - unfold c. rewrite Z.mul_add_distr_r.
          rewrite <- Z.pow_add_r by lia.
          replace (- e - 1 + (e - emin prec emax + 1)) with (- emin prec emax) by lia.
          replace (e - emin prec emax + 1) with (1 + (e - emin prec emax)) by lia.
          rewrite Z.pow_add_r by lia. change (2 ^ 1) with 2. ring.
        - unfold c. rewrite <- Z.pow_add_r by lia. f_equal. lia. }
      rewrite <- Hnr. unfold binary_normalize.
      destruct n as [|p|p]; [| |lia].
      * repeat split; reflexivity.
      * destruct (binary_round_small false p Hn1) as (V & R & S).
        split; [exact V | split; [|exact R]].
        destruct (binary_round prec emax false p 0) as [s'|s'| |s' m' e'];
          simpl in S; try contradiction; subst s'; reflexivity.
Qed.

(** The percentage of a scale grows with the scale. *)
Lemma percent_le x y :
  valid_binary prec emax x = true -> valid_binary prec emax y = true ->
  is_nonneg x = true -> is_nonneg y = true ->
  le x y = true ->
  le (Math_round (mul x hundred)) (Math_round (mul y hundred)) = true.
Proof.
  intros Vx Vy Nx Ny Hle.
  apply (le_rank x y Vx Vy Nx Ny) in Hle.
  pose proof (mul_hundred_rank_le x y Vx Vy Nx Ny Hle) as Hmul.
  destruct (mul_hundred_valid x Vx Nx) as (Vx1 & Nx1).
  destruct (mul_hundred_valid y Vy Ny) as (Vy1 & Ny1).
  destruct (Math_round_rank _ Vx1 Nx1) as (Vx2 & Nx2 & Rx).
  destruct (Math_round_rank _ Vy1 Ny1) as (Vy2 & Ny2 & Ry).
  apply (le_rank _ _ Vx2 Vy2 Nx2 Ny2). rewrite Rx, Ry.
  apply round_rank_le, Hmul.
Qed.


(** ** The percentage is finite unless the product overflows *)

Lemma mul_hundred_is_number x :
  is_number x = true -> is_number (mul x hundred) = true.
Proof.
  intros Vx. destruct x as [s|s| |s m e]; try reflexivity.
  unfold mul, hundred, SFmul.
  apply binary_round_aux_valid; [lia | apply product_exponent].
Qed.

(** The Number value of a non-zero integer of magnitude below [2^53]
    is finite. *)
Lemma binary_round_small_finite s p :
  Zpos p < 2 ^ prec -> nativeIsFinite (binary_round prec emax s p 0) = true.
Proof.
  intros Hp. unfold binary_round, shl_align.
  pose proof (Zdigits2_bounds (Zpos p) ltac:(lia)) as [Hlo Hhi].
  change (Zdigits2 (Zpos p)) with (Zpos (digits2_pos p)) in Hlo, Hhi.
  set (d := Zpos (digits2_pos p)) in *.
  assert (Hd : d <= prec).
  { destruct (Z.le_gt_cases d prec) as [?|Hgt]; [assumption|].
    assert (2 ^ prec <= 2 ^ (d - 1))
      by (apply Z.pow_le_mono_r; unfold emin, emax, prec in *; lia).
    lia. }
  assert (Hd0 : 0 < d) by (subst d; lia).
  destruct (fexp prec emax (d + 0) - 0) as [|k|k] eqn:HF.
  - assert (d = prec) by (unfold fexp, emin, emax, prec in *; lia).
    rewrite binary_round_aux_exact
      by (try assumption; unfold emin, emax, prec; lia).
    reflexivity.
  - exfalso. unfold fexp, emin, emax, prec in *. lia.
  - assert (HF' : fexp prec emax (d + 0) = Zneg k) by lia.
    rewrite HF'. unfold fexp, emin, prec, emax in HF'.
    assert (Hk : Zpos k = 53 - d) by lia.
    rewrite binary_round_aux_exact
      by (rewrite ?digits2_pos_iter_xO; unfold emin, prec, emax; lia).
    reflexivity.
Qed.

(** The integer [Math.round] computes for a Number with digits after
    the point is below [2^53] in magnitude. *)
Lemma Math_round_integer_bound s m e :
  is_number (S754_finite s m e) = true -> e < 0 ->
  - 2 ^ prec < (cond_Zopp s (Zpos m) + 2 ^ (- e - 1)) / 2 ^ (- e) < 2 ^ prec.
Proof.
  intros Vx Hneg. destruct (valid_finite s m e Vx) as (_ & Hm & _).
  assert (Hh : 0 < 2 ^ (- e - 1)) by (apply Z.pow_pos_nonneg; lia).
  assert (Hpw : 2 ^ (- e) = 2 * 2 ^ (- e - 1)).
  { replace (- e) with (1 + (- e - 1)) at 1 by lia.
    rewrite Z.pow_add_r by lia. reflexivity. }
  remember (2 ^ (- e - 1)) as h. remember (2 ^ prec) as P.
  assert (2 <= P) by (subst P; unfold prec; lia).
  split.
  - apply Z.lt_le_trans with (- Zpos m); [lia|].
    apply Z.div_le_lower_bound; [lia|].
    destruct s; simpl cond_Zopp; nia.
  - apply Z.div_lt_upper_bound; [lia|].
    destruct s; simpl cond_Zopp; nia.
Qed.

(** [Math.round] of a finite Number is finite. *)
Lemma Math_round_finite x :
  is_number x = true -> nativeIsFinite x = true ->
  nativeIsFinite (Math_round x) = true.
Proof.
  intros Vx Fx. destruct x as [s|s| |s m e]; try discriminate; [reflexivity|].
  unfold Math_round. destruct (Z.leb_spec 0 e) as [Hpos|Hneg]; [reflexivity|].
  pose proof (Math_round_integer_bound s m e Vx Hneg) as Hn.
  unfold binary_normalize.
  destruct ((cond_Zopp s (Zpos m) + 2 ^ (- e - 1)) / 2 ^ (- e)) as [|p|p];
    [reflexivity| |]; apply binary_round_small_finite; lia.
Qed.

(** [Math.round] of a Number is a Number. *)
Lemma Math_round_is_number x :
  is_number x = true -> is_number (Math_round x) = true.
Proof.
  intros Vx. destruct x as [s|s| |s m e]; try reflexivity.
  unfold Math_round. destruct (Z.leb_spec 0 e) as [Hpos|Hneg]; [exact Vx|].
  pose proof (Math_round_integer_bound s m e Vx Hneg) as Hn.
  unfold binary_normalize.
  destruct ((cond_Zopp s (Zpos m) + 2 ^ (- e - 1)) / 2 ^ (- e)) as [|p|p];
    [reflexivity| |]; apply binary_round_small; lia.
Qed.

(** ** The stored bounds follow the order of the options *)

Lemma Math_max_zero_valid a :
  is_number a = true -> nativeIsFinite a = true ->
  is_number (Math_max a pos_zero) = true /\ is_nonneg (Math_max a pos_zero) = true.
Proof.
  intros Va Fa. destruct a as [s|s| |[] m e]; try discriminate.
  - split; [reflexivity|]. simpl. destruct (s && false); reflexivity.
  - split; reflexivity.
  - split; [exact Va | reflexivity].
Qed.

(** Nothing below zero is at least a Number that is not below zero. *)
Lemma le_nonneg x y : is_nonneg x = true -> le x y = true -> is_nonneg y = true.
Proof.
  destruct x as [sx|[]| |[] mx ex]; try discriminate;
    destruct y as [sy|[]| |[] my ey]; try reflexivity; discriminate.
Qed.

Lemma validated_minZoom_finite o :
  nativeIsFinite (ZoomControls.validated_minZoom o) = true.
Proof.
  unfold ZoomControls.validated_minZoom, ZoomControls.validateZoom.
  destruct (ZoomControls.or_default _ _) as [| |b|x|s|ob]; try reflexivity.
  simpl. destruct (nativeIsFinite x) eqn:E; [exact E | reflexivity].
Qed.

(** When the lower option, raised to zero, is at most the upper one,
    the stored lower bound is at most the stored upper bound. *)
Lemma stored_bounds_ordered o :
  is_number (ZoomControls.validated_minZoom o) = true ->
  is_number (ZoomControls.validated_maxZoom o) = true ->
  le (Math_max (ZoomControls.validated_minZoom o) pos_zero)
     (ZoomControls.validated_maxZoom o) = true ->
  le (ZoomControls.stored_minZoom o) (ZoomControls.stored_maxZoom o) = true.
Proof.
  intros Va Vb Hle.
  destruct (Math_max_zero_valid _ Va (validated_minZoom_finite o)) as (Va' & Na').
  apply percent_le; try assumption.
  eapply le_nonneg; eassumption.
Qed.

End Rounding.

(** * Number-to-string on integers *)

Section ToString.

(** ** Decimal digits *)

Lemma digits_of_fuel f1 f2 n :
  0 <= n < 2 ^ Z.of_nat (S f1) -> n < 2 ^ Z.of_nat (S f2) ->
  digits_of (S f1) n = digits_of (S f2) n.
Proof.
  revert f2 n. induction f1 as [|f1 IH]; intros f2 n [Hn0 Hn1] Hn2.
  - change (2 ^ Z.of_nat 1) with 2 in Hn1. cbn [digits_of].
    destruct (Z.ltb_spec n 10); [reflexivity | lia].
  - cbn [digits_of]. destruct (Z.ltb_spec n 10) as [Hlt|Hge]; [reflexivity|].
    destruct f2 as [|f2]; [change (2 ^ Z.of_nat 1) with 2 in Hn2; lia|].
    f_equal.
    rewrite (Nat2Z.inj_succ (S f1)), Z.pow_succ_r in Hn1 by lia.
    rewrite (Nat2Z.inj_succ (S f2)), Z.pow_succ_r in Hn2 by lia.
    apply IH.
    + split; [apply Z.div_pos; lia | apply Z.div_lt_upper_bound; lia].
    + apply Z.div_lt_upper_bound; lia.
Qed.

Lemma decimal_nonneg n :
  0 <= n ->
  decimal n = if n <? 10 then String (digit n) EmptyString
              else decimal (n / 10) +:+ String (digit (n mod 10)) EmptyString.
Proof.
  intros Hn. unfold decimal.
  destruct (Z.ltb_spec n 0) as [?|_]; [lia|].
  cbn [digits_of]. destruct (Z.ltb_spec n 10) as [Hlt|Hge]; [reflexivity|].
  assert (Hq : 0 < n / 10) by (apply Z.div_str_pos; lia).
  destruct (Z.ltb_spec (n / 10) 0) as [?|_]; [lia|].
  f_equal.
  pose proof (Z.log2_spec n ltac:(lia)) as [_ Hhi].
  pose proof (Z.log2_spec (n / 10) Hq) as [_ Hhi'].
  pose proof (Z.log2_nonneg n). pose proof (Z.log2_nonneg (n / 10)).
  assert (Hpos : 0 < Z.log2 n) by (apply Z.log2_pos; lia).
  destruct (Z.to_nat (Z.log2 n)) as [|f] eqn:Ef; [lia|].
  apply digits_of_fuel.
  - split; [lia|]. apply Z.div_lt_upper_bound; [lia|].
    replace (Z.succ (Z.log2 n)) with (Z.succ (Z.of_nat (S f))) in Hhi by lia.
    rewrite Z.pow_succ_r in Hhi by lia. lia.
  - rewrite Nat2Z.inj_succ, Z2Nat.id by lia. exact Hhi'.
Qed.

Lemma decimal_tenfold a :
  0 < a -> decimal (10 * a) = decimal a +:+ "0".
Proof.
  intros Ha. rewrite (decimal_nonneg (10 * a)) by lia.
  destruct (Z.ltb_spec (10 * a) 10) as [?|_]; [lia|].
  rewrite Z.mul_comm, Z.div_mul, Z.mod_mul by lia. reflexivity.
Qed.

Lemma append_assoc (a b c : string) : (a +:+ b) +:+ c = a +:+ (b +:+ c).
Proof.
  induction a as [|x a IH]; [reflexivity|].
  change (String x ((a +:+ b) +:+ c) = String x (a +:+ (b +:+ c))).
  f_equal. exact IH.
Qed.

Lemma zeros_snoc z : zeros z +:+ "0" = zeros (S z).
Proof.
  induction z as [|z IH]; [reflexivity|].
  change (String "0" (zeros z +:+ "0") = String "0" (zeros (S z))).
  f_equal. exact IH.
Qed.

(** Multiplying by a power of ten appends zeros. *)
Lemma decimal_pow10 a z :
  0 < a -> decimal (a * 10 ^ Z.of_nat z) = decimal a +:+ zeros z.
Proof.
  intros Ha. induction z as [|z IH].
  - simpl. rewrite Z.mul_1_r. symmetry. apply append_empty.
  - rewrite Nat2Z.inj_succ, Z.pow_succ_r by lia.
    replace (a * (10 * 10 ^ Z.of_nat z)) with (10 * (a * 10 ^ Z.of_nat z)) by ring.
    rewrite decimal_tenfold by (apply Z.mul_pos_pos; [lia | apply Z.pow_pos_nonneg; lia]).
    rewrite IH, append_assoc, zeros_snoc. reflexivity.
Qed.

Lemma length_append (a b : string) :
  String.length (a +:+ b) = (String.length a + String.length b)%nat.
Proof.
  induction a as [|x a IH]; [reflexivity|].
  change (S (String.length (a +:+ b)) = S (String.length a + String.length b)).
  f_equal. exact IH.
Qed.

Lemma length_zeros z : String.length (zeros z) = z.
Proof. induction z as [|z IH]; simpl; [reflexivity | f_equal; exact IH]. Qed.

(** A number below [10^k] has at most [k] digits. *)
Lemma length_decimal n k :
  0 <= n < 10 ^ Z.of_nat (S k) -> (String.length (decimal n) <= S k)%nat.
Proof.
  revert n. induction k as [|k IH]; intros n [Hn0 Hn1].
  - rewrite decimal_nonneg by lia. change (10 ^ Z.of_nat 1) with 10 in Hn1.
    destruct (Z.ltb_spec n 10); [simpl; lia | lia].
  - rewrite decimal_nonneg by lia.
    destruct (Z.ltb_spec n 10) as [?|Hge]; [simpl; lia|].
    rewrite length_append. simpl String.length at 2.
    assert ((String.length (decimal (n / 10)) <= S k)%nat); [|lia].
    apply IH. split; [apply Z.div_pos; lia|].
    apply Z.div_lt_upper_bound; [lia|].
    rewrite (Nat2Z.inj_succ (S k)), Z.pow_succ_r in Hn1 by lia. exact Hn1.
Qed.

(** ** The shortest digits of an integer *)

Lemma Qlt_bool_iff a b : Qlt_bool a b = true <-> (a < b)%Q.
Proof.
  unfold Qlt_bool. rewrite negb_true_iff. split.
  - intros H. apply Qnot_le_lt. intros Hle. apply Qle_bool_iff in Hle. congruence.
  - intros H. destruct (Qle_bool b a) eqn:E; [|reflexivity].
    apply Qle_bool_iff in E. exfalso. exact (Qlt_not_le _ _ H E).
Qed.

Lemma pow2_positive e : (0 < pow2 e)%Q.
Proof.
  unfold pow2. destruct (Z.leb_spec 0 e) as [He|He].
  - assert (0 < 2 ^ e) by (apply Z.pow_pos_nonneg; lia).
    unfold Qlt. simpl Qnum. simpl Qden. lia.
  - reflexivity.
Qed.

Lemma pow2_le_1 e : e <= 0 -> (pow2 e <= 1)%Q.
Proof.
  intros He. unfold pow2. destruct (Z.leb_spec 0 e) as [He'|He'].
  - assert (e = 0) by lia. subst e. unfold Qle. simpl. lia.
  - unfold Qle. simpl. lia.
Qed.

Lemma pow2_inverse e : e <= 0 -> (pow2 e * inject_Z (2 ^ (- e)) == 1)%Q.
Proof.
  intros He. unfold pow2. destruct (Z.leb_spec 0 e) as [He'|He'].
  - assert (e = 0) by lia. subst e. reflexivity.
  - assert (Hp : 0 < 2 ^ (- e)) by (apply Z.pow_pos_nonneg; lia).
    unfold Qeq. simpl Qnum. simpl Qden.
    rewrite Pos.mul_1_r, Z2Pos.id by lia. lia.
Qed.

(** The Number [m * 2^e] is the integer [n]. *)
Lemma real_of_integer m e n :
  e <= 0 -> Zpos m = n * 2 ^ (- e) -> (real_of m e == inject_Z n)%Q.
Proof.
  intros He Hm. unfold real_of. rewrite Hm, inject_Z_mult.
  rewrite <- Qmult_assoc, (Qmult_comm (inject_Z (2 ^ (- e)))), pow2_inverse by assumption.
  ring.
Qed.

Lemma inject_Z_half_le k : (inject_Z k <= 1 # 2)%Q -> k <= 0.
Proof. unfold Qle. simpl. lia. Qed.

Lemma inject_Z_half_ge k : (- (1 # 2) <= inject_Z k)%Q -> 0 <= k.
Proof. unfold Qle. simpl. lia. Qed.

(** Only the integer itself rounds to an integer below [2^53]. *)
Lemma rounds_to_integer m e n c r :
  e <= 0 -> Zpos m = n * 2 ^ (- e) -> (r == inject_Z c)%Q ->
  (rounds_to m e r = true <-> c = n).
Proof.
  intros He Hm Hr.
  pose proof (real_of_integer m e n He Hm) as Hv.
  pose proof (pow2_positive e) as Hu0. pose proof (pow2_le_1 e He) as Hu1.
  assert (Hnear : (- (1 # 2) <= inject_Z (c - n) <= 1 # 2)%Q -> c = n).
  { intros [H1 H2]. apply inject_Z_half_ge in H1. apply inject_Z_half_le in H2. lia. }
  assert (Hsub : (inject_Z (c - n) == r - real_of m e)%Q).
  { unfold Z.sub. rewrite inject_Z_plus, inject_Z_opp, Hr, Hv. ring. }
  unfold rounds_to, round_interval.
  set (v := real_of m e) in *. set (u := pow2 e) in *.
  destruct ((Zpos m =? 2 ^ (prec - 1)) && (emin prec emax <? e));
    destruct (Z.even (Zpos m));
    rewrite andb_true_iff, ?Qle_bool_iff, ?Qlt_bool_iff;
    (split;
     [ intros [H1 H2]; apply Hnear; rewrite Hsub; split; lra
     | intros ->; assert (Hrv : (r == v)%Q) by (rewrite Hr, Hv; reflexivity);
       rewrite Hrv; split; lra ]).
Qed.

Lemma pow10_nonneg q : 0 <= q -> pow10 q = inject_Z (10 ^ q).
Proof. intros H. unfold pow10. destruct (Z.leb_spec 0 q); [reflexivity | lia]. Qed.

(** A candidate rounds to the Number. *)
Lemma candidate_sound m e q s :
  candidate m e q = Some s ->
  rounds_to m e (inject_Z s * pow10 q)%Q = true.
Proof.
  unfold candidate. cbv zeta.
  set (s1 := Qfloor (real_of m e / pow10 q)).
  destruct ((0 <? s1) && rounds_to m e (inject_Z s1 * pow10 q)%Q) eqn:E1;
    destruct (rounds_to m e (inject_Z (s1 + 1) * pow10 q)%Q) eqn:E2;
    try discriminate.
  - apply andb_true_iff in E1 as [_ E1].
    destruct (Qlt_bool _ _); [intros [= <-]; exact E1|].
    destruct (Qlt_bool _ _); [intros [= <-]; exact E2|].
    destruct (Z.even s1); intros [= <-]; assumption.
  - apply andb_true_iff in E1 as [_ E1]. intros [= <-]. exact E1.
  - intros [= <-]. exact E2.
Qed.

(** With no scaling the integer itself is a candidate. *)
Lemma candidate_unscaled m e n :
  e <= 0 -> Zpos m = n * 2 ^ (- e) -> 0 < n -> candidate m e 0 <> None.
Proof.
  intros He Hm Hn. unfold candidate. cbv zeta.
  pose proof (real_of_integer m e n He Hm) as Hv.
  assert (Hs1 : Qfloor (real_of m e / pow10 0) = n).
  { rewrite <- (Qfloor_Z n). apply Qfloor_comp.
    rewrite Hv. change (pow10 0) with (inject_Z 1). field. }
  rewrite Hs1.
  assert (H1 : rounds_to m e (inject_Z n * pow10 0)%Q = true).
  { apply (rounds_to_integer m e n n); [assumption | assumption | | reflexivity].
    change (pow10 0) with (inject_Z 1). ring. }
  rewrite H1. destruct (Z.ltb_spec 0 n) as [_|?]; [|lia]. simpl andb.
  clear H1. cbv iota.
  destruct (rounds_to m e (inject_Z (n + 1) * pow10 0)%Q); [|intros H; discriminate H].
  destruct (Qlt_bool _ _); cbv iota; [intros H; discriminate H|].
  destruct (Qlt_bool _ _); cbv iota; [intros H; discriminate H|].
  destruct (Z.even n); intros H; discriminate H.
Qed.

(** The search ends at a power of ten that divides the integer. *)
Lemma shortest_from_integer m e n fuel q :
  e <= 0 -> Zpos m = n * 2 ^ (- e) -> 0 < n ->
  0 <= q <= Z.of_nat fuel ->
  exists s z, shortest_from fuel m e q = (s, z) /\ 0 <= z /\ n = s * 10 ^ z.
Proof.
  intros He Hm Hn. revert q. induction fuel as [|fuel IH]; intros q Hq.
  - assert (q = 0) by lia. subst q. simpl.
    destruct (candidate m e 0) as [s|] eqn:Ec.
    + exists s, 0. split; [reflexivity | split; [lia|]].
      apply candidate_sound in Ec.
      apply (rounds_to_integer m e n (s * 10 ^ 0)) in Ec; try assumption; [lia|].
      rewrite pow10_nonneg, <- inject_Z_mult by lia. reflexivity.
    + exfalso. exact (candidate_unscaled m e n He Hm Hn Ec).
  - cbn [shortest_from]. destruct (candidate m e q) as [s|] eqn:Ec.
    + exists s, q. split; [reflexivity | split; [lia|]].
      apply candidate_sound in Ec.
      apply (rounds_to_integer m e n (s * 10 ^ q)) in Ec; try assumption; [lia|].
      rewrite pow10_nonneg, <- inject_Z_mult by lia. reflexivity.
    + destruct (Z.eq_dec q 0) as [->|Hq0].
      * exfalso. exact (candidate_unscaled m e n He Hm Hn Ec).
      * apply IH. lia.
Qed.


Lemma shortest_integer m e n :
  e <= 0 -> Zpos m = n * 2 ^ (- e) -> 0 < n ->
  exists s z, shortest m e = (s, z) /\ 0 <= z /\ n = s * 10 ^ z.
Proof.
  intros He Hm Hn. unfold shortest. cbv zeta.
  apply shortest_from_integer; try assumption.
  assert (Hp : 0 < 2 ^ (- e)) by (apply Z.pow_pos_nonneg; lia).
  assert (Hd : - e + 1 <= Zpos (digits2_pos m)).
  { change (Zpos (digits2_pos m)) with (Zdigits2 (Zpos m)).
    rewrite <- (Zdigits2_unique (2 ^ (- e)) (- e + 1)).
    - apply Zdigits2_le; [lia | nia].
    - lia.
    - replace (- e + 1 - 1) with (- e) by lia. split; [lia|].
      apply Z.pow_lt_mono_r; lia. }
  assert (Hq : 0 <= (Zpos (digits2_pos m) + e) * 30103 / 100000)
    by (apply Z.div_pos; lia).
  rewrite Z.min_l by lia. rewrite Z2Nat.id by lia. lia.
Qed.

(** The digits followed by the zeros that were left out. *)
Lemma format_integer s z :
  0 < s -> 0 <= z ->
  (String.length (decimal (s * 10 ^ z)) <= 21)%nat ->
  format s (z + Z.of_nat (String.length (decimal s))) = decimal (s * 10 ^ z).
Proof.
  intros Hs Hz Hlen.
  rewrite <- (Z2Nat.id z) in Hlen |- * at 2 by lia.
  rewrite decimal_pow10 in Hlen |- * by assumption.
  rewrite length_append, length_zeros in Hlen.
  unfold format. cbv zeta.
  set (k := Z.of_nat (String.length (decimal s))) in *.
  assert (Hk : 0 <= k) by (subst k; lia).
  replace ((-5 <=? z + k) && (z + k <=? 21)) with true
    by (symmetry; apply andb_true_iff; split; apply Z.leb_le; lia).
  replace (k <=? z + k) with true by (symmetry; apply Z.leb_le; lia).
  replace (z + k - k) with z by lia. reflexivity.
Qed.

(** The text of a Number that is an integer of magnitude below [2^53]
    is the decimal notation of the integer. *)
Lemma Number_toString_integer x n :
  is_number x = true -> to_Z x = Some n -> Z.abs n < 2 ^ prec ->
  Number_toString x = decimal n.
Proof.
  intros Vx Hn Habs. destruct x as [s|s| |s m e]; try discriminate.
  - injection Hn as <-. reflexivity.
  - destruct (valid_finite s m e Vx) as ((He1 & He2) & Hm & Hfull).
    assert (Hint : exists n', 0 < n' /\ e <= 0 /\ Zpos m = n' * 2 ^ (- e) /\
                              n = cond_Zopp s n').
    { unfold to_Z in Hn. destruct (Z.leb_spec 0 e) as [Hpos|Hneg].
      - injection Hn as <-.
        assert (e = 0).
        { destruct (Z.eq_dec e 0) as [?|Hne]; [assumption|]. exfalso.
          specialize (Hfull ltac:(unfold emin, emax, prec in *; lia)).
          assert (2 ^ 1 <= 2 ^ e) by (apply Z.pow_le_mono_r; lia).
          change (2 ^ 1) with 2 in H.
          assert (Hhalf : 2 ^ prec = 2 * 2 ^ (prec - 1)) by reflexivity.
          assert (Z.abs (cond_Zopp s (Zpos m * 2 ^ e)) = Zpos m * 2 ^ e)
            by (destruct s; simpl cond_Zopp; nia).
          remember (2 ^ (prec - 1)) as P. remember (2 ^ e) as X. nia. }
        subst e. exists (Zpos m). simpl. repeat split; try lia.
        rewrite Z.mul_1_r. reflexivity.
      - destruct (Z.eqb_spec (Zpos m mod 2 ^ (- e)) 0) as [Hmod|]; [|discriminate].
        injection Hn as <-.
        assert (Hp : 0 < 2 ^ (- e)) by (apply Z.pow_pos_nonneg; lia).
        pose proof (Z.div_mod (Zpos m) (2 ^ (- e)) ltac:(lia)) as Hdm.
        rewrite Hmod, Z.add_0_r in Hdm.
        exists (Zpos m / 2 ^ (- e)). repeat split; lia. }
    destruct Hint as (n' & Hn' & He & Hmn & ->).
    assert (Habs' : n' < 2 ^ prec) by (destruct s; simpl cond_Zopp in Habs; lia).
    destruct (shortest_integer m e n' He Hmn Hn') as (d & z & Hs & Hz & Hdz).
    assert (Hd : 0 < d).
    { assert (0 < 10 ^ z) by (apply Z.pow_pos_nonneg; lia). nia. }
    assert (Hlen : (String.length (decimal (d * 10 ^ z)) <= 21)%nat).
    { rewrite <- Hdz.
      assert ((String.length (decimal n') <= 16)%nat); [|lia].
      apply (length_decimal n' 15). split; [lia|].
      eapply Z.lt_trans; [exact Habs'|]. reflexivity. }
    unfold Number_toString. rewrite Hs.
    rewrite format_integer, <- Hdz by assumption.
    destruct s; simpl cond_Zopp.
    + unfold decimal.
      destruct (Z.ltb_spec (- n') 0) as [_|?]; [|lia].
      destruct (Z.ltb_spec n' 0) as [?|_]; [lia|].
      rewrite Z.opp_involutive. reflexivity.
    + reflexivity.
Qed.


End ToString.


(** * The claims *)

Section Claims.

Import ZoomControls.

(** C1. For every finite number [scale], on an instance whose label
    element has been cached by [init], [setCurrentScale(scale)] stores
    [Math.round(scale * 100)] as the current scale, makes the text of the
    label element that number followed by a percent sign, and then runs
    the enablement check.  The number is written as JavaScript writes
    Numbers, which for an integer of magnitude below [2^53] is its
    decimal notation. *)
Theorem setCurrentScale_finite (x : number) (zc : t) (p : path) (e : element) :
  nativeIsFinite x = true ->
  currentScaleElement zc = Ref p ->
  element_at (controlsElement zc) p = Some e ->
  let cs := Math_round (mul x hundred) in
  let text := Number_toString cs +:+ "%" in
  setCurrentScale (VNumber x) zc
    = Normal (checkButtonEnablement
                (modify (set_textContent text) p (set_currentScale cs zc))) /\
  currentScale (instance_of (setCurrentScale (VNumber x) zc)) = Some cs /\
  text_at (controlsElement (instance_of (setCurrentScale (VNumber x) zc))) p
    = Some text /\
  (is_number x = true ->
   forall n, to_Z cs = Some n -> Z.abs n < 2 ^ prec ->
             text = decimal n +:+ "%").
Proof.
  intros Hfin Hp He cs text.
  assert (Hdec : is_number x = true ->
                 forall n, to_Z cs = Some n -> Z.abs n < 2 ^ prec ->
                           text = decimal n +:+ "%").
  { intros Vx n Hn Habs. unfold text. f_equal.
    apply Number_toString_integer; try assumption.
    apply Math_round_is_number, mul_hundred_is_number, Vx. }
  assert (Hrun : setCurrentScale (VNumber x) zc
                 = Normal (checkButtonEnablement
                    (modify (set_textContent text) p (set_currentScale cs zc))))
    by (apply setCurrentScale_runs; assumption).
  rewrite Hrun. split; [reflexivity|]. simpl instance_of.
  split; [|split; [|exact Hdec]].
  - destruct (check_fields (modify (set_textContent text) p (set_currentScale cs zc)))
      as (-> & _). reflexivity.
  - rewrite text_at_check, controlsElement_modify.
    change (controlsElement (set_currentScale cs zc)) with (controlsElement zc).
    unfold element_at in He. unfold text_at.
    destruct (get (controlsElement zc) p) as [c|] eqn:Hc; [|discriminate].
    rewrite (get_update _ _ _ _ Hc), textContent_set_textContent. reflexivity.
Qed.

Lemma setCurrentScale_finite_witness :
  setCurrentScale (VNumber Scenario.quarter) Scenario.started
    = Normal (checkButtonEnablement
                (modify (set_textContent "25%") Scenario.scale_label
                   (set_currentScale (of_Z 25) Scenario.started))) /\
  currentScale (instance_of (setCurrentScale (VNumber Scenario.quarter) Scenario.started))
    = Some (of_Z 25) /\
  text_at (controlsElement
             (instance_of (setCurrentScale (VNumber Scenario.quarter) Scenario.started)))
          Scenario.scale_label
    = Some "25%" /\
  "25%" = decimal 25 +:+ "%".
Proof.
  destruct (setCurrentScale_finite Scenario.quarter Scenario.started Scenario.scale_label
              (Controls.new_element "div" CLASS_ZOOM_CURRENT_SCALE
                 [("aria-label", "zoom current scale"); ("title", "zoom current scale")]
                 None))
    as (Hrun & Hcs & Htext & Hdec); [vm_compute; reflexivity ..|].
  split; [exact Hrun | split; [exact Hcs | split; [exact Htext|]]].
  apply (Hdec eq_refl 25); reflexivity.
Defined.

(** C2, as the code has it.  After every successful scale update, and
    whenever the enablement check has run, the element the zoom-in
    selector finds is disabled exactly when [currentScale >= maxZoom];
    the element the zoom-out selector finds is disabled exactly when
    [currentScale <= minZoom], unless the zoom-in selector finds that
    same element, which then has the zoom-in state; and strictly between
    the bounds every element found is enabled. *)
Theorem buttons_follow_bounds (zc zc' : t) :
  (zc' = checkButtonEnablement zc \/
   exists scale, isFinite scale = true /\ setCurrentScale scale zc = Normal zc') ->
  let cs := read (currentScale zc') in
  let lo := read (minZoom zc') in
  let hi := read (maxZoom zc') in
  let zoomOut := querySelector (controlsElement zc') CLASS_ZOOM_OUT_BUTTON in
  let zoomIn := querySelector (controlsElement zc') CLASS_ZOOM_IN_BUTTON in
  (forall pi : path, zoomIn = Some pi ->
     disabled_at (controlsElement zc') pi = Some (ge cs hi)) /\
  (forall po : path, zoomOut = Some po -> zoomIn <> Some po ->
     disabled_at (controlsElement zc') po = Some (le cs lo)) /\
  (lt lo cs = true -> lt cs hi = true ->
   forall p : path, zoomOut = Some p \/ zoomIn = Some p ->
     disabled_at (controlsElement zc') p = Some false).
Proof.
  intros Hrun cs lo hi zoomOut zoomIn.
  assert (Hchk : exists zc1, zc' = checkButtonEnablement zc1).
  { destruct Hrun as [->|(scale & Hfin & Hset)]; [eexists; reflexivity|].
    destruct (setCurrentScale_Normal _ _ _ Hfin Hset) as (x & p & _ & _ & ->).
    eexists; reflexivity. }
  destruct Hchk as (zc1 & ->). clear Hrun zc.
  subst zoomOut zoomIn. rewrite !querySelector_check.
  destruct (check_fields zc1) as (Hcs & Hlo & Hhi & _).
  subst cs lo hi. rewrite Hcs, Hlo, Hhi.
  assert (Hin : forall pi : path,
            querySelector (controlsElement zc1) CLASS_ZOOM_IN_BUTTON = Some pi ->
            disabled_at (controlsElement (checkButtonEnablement zc1)) pi
            = Some (ge (read (currentScale zc1)) (read (maxZoom zc1))))
    by (intros pi; apply check_sets_zoom_in).
  assert (Hout : forall po : path,
            querySelector (controlsElement zc1) CLASS_ZOOM_OUT_BUTTON = Some po ->
            querySelector (controlsElement zc1) CLASS_ZOOM_IN_BUTTON <> Some po ->
            disabled_at (controlsElement (checkButtonEnablement zc1)) po
            = Some (le (read (currentScale zc1)) (read (minZoom zc1))))
    by (intros po; apply check_sets_zoom_out).
  split; [exact Hin | split; [exact Hout|]].
  intros Hlt1 Hlt2 p Hp.
  destruct (between_bounds _ _ _ Hlt1 Hlt2) as (E1 & E2).
  destruct (decide (querySelector (controlsElement zc1) CLASS_ZOOM_IN_BUTTON = Some p))
    as [Hi|Hni].
  - rewrite (Hin p Hi), E2. reflexivity.
  - destruct Hp as [Ho|Hi]; [|contradiction].
    rewrite (Hout p Ho Hni), E1. reflexivity.
Qed.

Lemma buttons_follow_bounds_witness :
  let zc' := instance_of (setCurrentScale (VNumber Scenario.one) Scenario.started) in
  disabled_at (controlsElement zc') Scenario.zoom_in_button
    = Some (ge (of_Z 100) (of_Z 200)) /\
  disabled_at (controlsElement zc') Scenario.zoom_out_button
    = Some (le (of_Z 100) (of_Z 25)) /\
  disabled_at (controlsElement zc') Scenario.zoom_out_button = Some false /\
  disabled_at (controlsElement zc') Scenario.zoom_in_button = Some false.
Proof.
  destruct (buttons_follow_bounds Scenario.started
              (instance_of (setCurrentScale (VNumber Scenario.one) Scenario.started)))
    as (Hin & Hout & Hmid).
  - right. exists (VNumber Scenario.one). split; vm_compute; reflexivity.
  - split; [|split; [|split]].
    + apply (Hin Scenario.zoom_in_button). vm_compute; reflexivity.
    + apply (Hout Scenario.zoom_out_button).
      * vm_compute; reflexivity.
      * vm_compute. discriminate.
    + apply Hmid; [vm_compute; reflexivity ..|].
      left. vm_compute; reflexivity.
    + apply Hmid; [vm_compute; reflexivity ..|].
      right. vm_compute; reflexivity.
Defined.

(** C2 as stated fails: after [init(1, {zoomOutClassName: 'left
    bp-zoom-in-btn', minZoom: 0.25, maxZoom: 2})] both selectors find
    the zoom-out button, and [setCurrentScale(0.25)] leaves that button
    enabled although the current scale, [25], is at most the lower
    bound, [25]: it has the zoom-in state, [25 >= 200]. *)
Lemma zoom_out_enabled_at_lower_bound :
  let zc := instance_of (setCurrentScale (VNumber Scenario.quarter)
                           Scenario.started_colliding) in
  currentScale zc = Some (of_Z 25) /\
  minZoom zc = Some (of_Z 25) /\ maxZoom zc = Some (of_Z 200) /\
  le (of_Z 25) (of_Z 25) = true /\
  querySelector (controlsElement zc) CLASS_ZOOM_OUT_BUTTON
    = Some Scenario.zoom_out_button /\
  querySelector (controlsElement zc) CLASS_ZOOM_IN_BUTTON
    = Some Scenario.zoom_out_button /\
  disabled_at (controlsElement zc) Scenario.zoom_out_button = Some false.
Proof. vm_compute. repeat split. Qed.

(** C3, as the code has it.  After [init] the lower bound is
    [Math.round(Math.max(minZoom, 0) * 100)] for a finite [minZoom] and
    [0] for any other or absent one; the upper bound is
    [Math.round(maxZoom * 100)] for a finite [maxZoom] and [+Infinity]
    for any other or absent one.  With the infinite bound a later
    successful update disables the zoom-in button exactly when the new
    current scale is itself [+Infinity], so never while it is finite. *)
Theorem init_bounds_from_options (currentScale : value)
    (options : option Options.t) (zc : t) :
  let o := default Options.empty options in
  let zc1 := instance_of (init currentScale options zc) in
  minZoom zc1
    = Some (match Options.minZoom o with
            | VNumber x =>
                if nativeIsFinite x
                then Math_round (mul (Math_max x pos_zero) hundred)
                else pos_zero
            | _ => pos_zero
            end) /\
  maxZoom zc1
    = Some (match Options.maxZoom o with
            | VNumber x =>
                if nativeIsFinite x then Math_round (mul x hundred)
                else POSITIVE_INFINITY
            | _ => POSITIVE_INFINITY
            end) /\
  (isFinite (Options.maxZoom o) = false ->
   maxZoom zc1 = Some POSITIVE_INFINITY /\
   forall scales scale zc2 pi,
     isFinite scale = true ->
     setCurrentScale scale (after_updates scales zc1) = Normal zc2 ->
     querySelector (controlsElement zc2) CLASS_ZOOM_IN_BUTTON = Some pi ->
     (disabled_at (controlsElement zc2) pi = Some true <->
      ZoomControls.currentScale zc2 = Some POSITIVE_INFINITY) /\
     (nativeIsFinite (read (ZoomControls.currentScale zc2)) = true ->
      disabled_at (controlsElement zc2) pi = Some false)).
Proof.
  intros o zc1.
  destruct (init_bounds currentScale options zc) as (Hlo & Hhi).
  fold o in Hlo, Hhi. fold zc1 in Hlo, Hhi.
  rewrite stored_minZoom_cases in Hlo. rewrite stored_maxZoom_cases in Hhi.
  split; [exact Hlo | split; [exact Hhi|]].
  intros Hnf.
  assert (Hinf : maxZoom zc1 = Some POSITIVE_INFINITY).
  { rewrite Hhi. destruct (Options.maxZoom o) as [| |b|x|s|ob]; try reflexivity.
    simpl in Hnf. rewrite Hnf. reflexivity. }
  split; [exact Hinf|].
  intros scales scale zc2 pi Hfin Hset Hq.
  destruct (setCurrentScale_Normal _ _ _ Hfin Hset) as (x & p & -> & Hp & Hzc2).
  set (zcl := modify _ p _) in Hzc2.
  assert (Hmax : maxZoom zcl = Some POSITIVE_INFINITY).
  { subst zcl. simpl maxZoom.
    destruct (after_updates_bounds scales zc1) as (_ & ->). exact Hinf. }
  assert (Hcs : ZoomControls.currentScale zcl = Some (Math_round (mul x hundred)))
    by reflexivity.
  subst zc2. rewrite querySelector_check in Hq.
  rewrite (check_sets_zoom_in zcl pi Hq).
  destruct (check_fields zcl) as (-> & _).
  rewrite Hmax, Hcs. simpl read.
  set (c := Math_round (mul x hundred)).
  split.
  - split.
    + intros [= H]. apply ge_infinity in H. rewrite H. reflexivity.
    + intros [= H]. rewrite H. reflexivity.
  - intros Hc. f_equal. destruct (ge c POSITIVE_INFINITY) eqn:E; [|reflexivity].
    apply ge_infinity in E. rewrite E in Hc. discriminate.
Qed.

Lemma init_bounds_from_options_witness :
  maxZoom Scenario.started_default = Some POSITIVE_INFINITY /\
  (disabled_at
     (controlsElement
        (instance_of (setCurrentScale (VNumber Scenario.two)
                        (after_updates [VNumber Scenario.half] Scenario.started_default))))
     Scenario.zoom_in_button = Some true <->
   ZoomControls.currentScale
     (instance_of (setCurrentScale (VNumber Scenario.two)
                     (after_updates [VNumber Scenario.half] Scenario.started_default)))
   = Some POSITIVE_INFINITY).
Proof.
  pose proof (proj2 (proj2 (init_bounds_from_options
                              (VNumber Scenario.one) (Some Options.empty) Scenario.fresh))
                    eq_refl) as [Hmax Hlater].
  split; [exact Hmax|].
  refine (proj1 (Hlater [VNumber Scenario.half] (VNumber Scenario.two) _
                   Scenario.zoom_in_button _ _ _)); vm_compute; reflexivity.
Defined.

(** C3 as stated fails: with no upper bound given, the finite scale
    [1e307] disables the zoom-in button, its product with [100] being
    [+Infinity]. *)
Lemma zoom_in_disabled_without_bound :
  let zc := instance_of (setCurrentScale (VNumber Scenario.huge) Scenario.started_default) in
  nativeIsFinite Scenario.huge = true /\
  maxZoom Scenario.started_default = Some POSITIVE_INFINITY /\
  querySelector (controlsElement zc) CLASS_ZOOM_IN_BUTTON = Some Scenario.zoom_in_button /\
  disabled_at (controlsElement zc) Scenario.zoom_in_button = Some true /\
  text_at (controlsElement zc) Scenario.scale_label = Some "Infinity%".
Proof. vm_compute. repeat split. Qed.

(** C4. For every scale that is not a finite number, of whatever type,
    [setCurrentScale(scale)] returns at once: it raises nothing and the
    instance and the host's tree, with the label text and the state of
    the buttons, are as they were. *)
Theorem setCurrentScale_ignores_invalid (scale : value) (zc : t) :
  isFinite scale = false -> setCurrentScale scale zc = Normal zc.
Proof. apply setCurrentScale_skips. Qed.

Lemma setCurrentScale_ignores_invalid_witness :
  setCurrentScale (VNumber NaN) Scenario.started = Normal Scenario.started /\
  setCurrentScale (VNumber NEGATIVE_INFINITY) Scenario.started = Normal Scenario.started /\
  setCurrentScale (VString "0.5") Scenario.started = Normal Scenario.started /\
  setCurrentScale VUndefined Scenario.fresh = Normal Scenario.fresh.
Proof.
  split; [|split; [|split]]; apply setCurrentScale_ignores_invalid; reflexivity.
Defined.

(** C5, as the code has it.  Both bounds are what [init] computed from
    its options and no later [setCurrentScale] changes them.  [init]
    does not compare them: the lower one is at most the upper one
    whenever the options are so ordered, that is when [minZoom], raised
    to zero, is at most [maxZoom], and in particular when no finite
    [maxZoom] was given. *)
Theorem bounds_fixed_by_init (currentScale : value)
    (options : option Options.t) (zc : t) (scales : list value) :
  let o := default Options.empty options in
  let zc1 := instance_of (init currentScale options zc) in
  minZoom zc1 = Some (stored_minZoom o) /\
  maxZoom zc1 = Some (stored_maxZoom o) /\
  minZoom (after_updates scales zc1) = minZoom zc1 /\
  maxZoom (after_updates scales zc1) = maxZoom zc1 /\
  (is_number (validated_minZoom o) = true ->
   is_number (validated_maxZoom o) = true ->
   le (Math_max (validated_minZoom o) pos_zero) (validated_maxZoom o) = true ->
   le (read (minZoom (after_updates scales zc1)))
      (read (maxZoom (after_updates scales zc1))) = true) /\
  (isFinite (Options.maxZoom o) = false ->
   le (read (minZoom (after_updates scales zc1)))
      (read (maxZoom (after_updates scales zc1))) = true).
Proof.
  intros o zc1.
  destruct (init_bounds currentScale options zc) as (Hlo & Hhi).
  fold o in Hlo, Hhi. fold zc1 in Hlo, Hhi.
  destruct (after_updates_bounds scales zc1) as (Elo & Ehi).
  split; [assumption|]. split; [assumption|]. split; [assumption|].
  split; [assumption|]. split.
  { intros Va Vb Hle. rewrite Elo, Ehi, Hlo, Hhi. simpl read.
    apply stored_bounds_ordered; assumption. }
  intros Hnf. rewrite Elo, Ehi, Hlo, Hhi. simpl read.
  rewrite stored_maxZoom_cases.
  assert (Hinf : match Options.maxZoom o with
                 | VNumber x =>
                     if nativeIsFinite x then Math_round (mul x hundred)
                     else POSITIVE_INFINITY
                 | _ => POSITIVE_INFINITY
                 end = POSITIVE_INFINITY).
  { destruct (Options.maxZoom o) as [| |b|x|s|ob]; try reflexivity.
    simpl in Hnf. rewrite Hnf. reflexivity. }
  rewrite Hinf. apply le_infinity.
  eapply signed_not_nan, stored_minZoom_signed.
Qed.

Lemma bounds_fixed_by_init_witness :
  le (read (minZoom (after_updates [VNumber Scenario.two; VNull] Scenario.started)))
     (read (maxZoom (after_updates [VNumber Scenario.two; VNull] Scenario.started)))
  = true /\
  le (read (minZoom (after_updates [VNumber Scenario.two; VNull] Scenario.started_default)))
     (read (maxZoom (after_updates [VNumber Scenario.two; VNull] Scenario.started_default)))
  = true.
Proof.
  split.
  - refine (proj1 (proj2 (proj2 (proj2 (proj2
              (bounds_fixed_by_init (VNumber Scenario.half)
                 (Some (Scenario.number_options (VNumber Scenario.quarter)
                          (VNumber Scenario.two)))
                 Scenario.fresh [VNumber Scenario.two; VNull]))))) _ _ _);
      vm_compute; reflexivity.
  - refine (proj2 (proj2 (proj2 (proj2 (proj2
              (bounds_fixed_by_init (VNumber Scenario.one) (Some Options.empty)
                 Scenario.fresh [VNumber Scenario.two; VNull]))))) _).
    reflexivity.
Defined.

(** C5 as stated fails: [init(1, {minZoom: 2, maxZoom: 1})] stores the
    finite bounds 200 and 100, the lower above the upper. *)
Lemma bounds_not_ordered :
  minZoom Scenario.started_unordered = Some (of_Z 200) /\
  maxZoom Scenario.started_unordered = Some (of_Z 100) /\
  nativeIsFinite (of_Z 200) = true /\ nativeIsFinite (of_Z 100) = true /\
  le (of_Z 200) (of_Z 100) = false.
Proof. vm_compute. repeat split. Qed.

(** C6, as the code has it.  Once set, the current scale is never NaN
    and never fractional: it is an integral Number or an infinity, and
    every [setCurrentScale] and every [init] keeps it so.  A finite scale
    sets it to [Math.round(scale * 100)], which is not below zero when
    the scale is not, and which is finite exactly when the product
    [scale * 100] is. *)
Theorem currentScale_integral_or_infinite (scale : value) (zc : t) :
  (forall c, currentScale zc = Some c -> integral_or_infinite c = true) ->
  (forall c, currentScale (instance_of (setCurrentScale scale zc)) = Some c ->
     integral_or_infinite c = true) /\
  (forall options c,
     currentScale (instance_of (init scale options zc)) = Some c ->
     integral_or_infinite c = true) /\
  (forall x, scale = VNumber x -> nativeIsFinite x = true ->
     currentScale (instance_of (setCurrentScale scale zc))
       = Some (Math_round (mul x hundred)) /\
     (le pos_zero x = true -> le pos_zero (Math_round (mul x hundred)) = true) /\
     (is_number x = true ->
      nativeIsFinite (Math_round (mul x hundred)) = nativeIsFinite (mul x hundred))).
Proof.
  intros Hinv.
  assert (Hupd : forall zc0, currentScale zc0 = currentScale zc ->
            forall c, currentScale (instance_of (setCurrentScale scale zc0)) = Some c ->
                      integral_or_infinite c = true).
  { intros zc0 Hzc0 c. rewrite setCurrentScale_currentScale.
    destruct scale as [| |b|x|s|o]; try (rewrite Hzc0; apply Hinv).
    destruct (nativeIsFinite x) eqn:Hfin; [|rewrite Hzc0; apply Hinv].
    intros [= <-]. apply Math_round_integral.
    eapply signed_not_nan, mul_hundred_signed, Hfin. }
  split; [apply Hupd; reflexivity | split].
  - intros options c.
    destruct (init_ends_with_update scale options zc) as (zcb & -> & Hcs & _).
    apply Hupd, Hcs.
  - intros x -> Hfin. rewrite setCurrentScale_currentScale, Hfin.
    split; [reflexivity|]. split.
    + intros Hpos.
      destruct x as [[]|s| |[] m e]; try discriminate; try reflexivity.
      apply signed_false_nonneg, (Math_round_signed false).
      apply (mul_hundred_signed (S754_finite false m e)). reflexivity.
    + intros Vx. pose proof (mul_hundred_is_number x Vx) as Vy.
      destruct (nativeIsFinite (mul x hundred)) eqn:Fy.
      * apply Math_round_finite; assumption.
      * destruct (mul x hundred); try discriminate; reflexivity.
Qed.

Lemma currentScale_integral_or_infinite_witness :
  (forall c,
     currentScale (instance_of (setCurrentScale (VNumber Scenario.quarter) Scenario.started))
       = Some c ->
     integral_or_infinite c = true) /\
  currentScale (instance_of (setCurrentScale (VNumber Scenario.quarter) Scenario.started))
    = Some (of_Z 25) /\
  le pos_zero (of_Z 25) = true /\
  nativeIsFinite (of_Z 25) = nativeIsFinite (mul Scenario.quarter hundred).
Proof.
  destruct (currentScale_integral_or_infinite (VNumber Scenario.quarter) Scenario.started)
    as (Hset & _ & Hfinite).
  - intros c Hc. vm_compute in Hc. injection Hc as <-. reflexivity.
  - destruct (Hfinite Scenario.quarter eq_refl eq_refl) as (Hcs & Hpos & Hfin).
    split; [exact Hset | split; [exact Hcs | split]].
    + apply Hpos. reflexivity.
    + apply Hfin. reflexivity.
Defined.

(** C6 as stated fails: the finite scale [-0.5] makes the current scale
    [-50], and the finite scale [1e307] makes it [+Infinity]. *)
Lemma currentScale_negative_or_infinite :
  nativeIsFinite Scenario.minus_half = true /\
  currentScale (instance_of (setCurrentScale (VNumber Scenario.minus_half) Scenario.started))
    = Some (of_Z (-50)) /\
  le pos_zero (of_Z (-50)) = false /\
  nativeIsFinite Scenario.huge = true /\
  currentScale (instance_of (setCurrentScale (VNumber Scenario.huge) Scenario.started))
    = Some POSITIVE_INFINITY.
Proof. vm_compute. repeat split. Qed.

(** C7. Constructing with a value that is not an instance of Controls,
    such as [null] or a plain object, throws an Error; with a host the
    constructor only stores the host, whose root element is thereby the
    instance's [controlsElement], leaves every other field unassigned
    and leaves the host as it is. *)
Theorem constructor_requires_host (v : value) :
  (instanceof_Controls v = false ->
   constructor v = inl (Error "controls must be an instance of Controls")) /\
  (forall c, v = VObject (ControlsObject c) ->
     exists zc, constructor v = inr zc /\
       controls zc = c /\ controlsElement zc = Controls.controlsEl c /\
       currentScale zc = None /\ currentScaleElement zc = Unset /\
       minZoom zc = None /\ maxZoom zc = None).
Proof.
  split.
  - intros H. unfold constructor. rewrite H, orb_true_r. reflexivity.
  - intros c ->. eexists. split; [reflexivity|]. repeat split.
Qed.

Lemma constructor_requires_host_witness :
  constructor VNull = inl (Error "controls must be an instance of Controls") /\
  constructor (VObject PlainObject)
    = inl (Error "controls must be an instance of Controls") /\
  exists zc, constructor (VObject (ControlsObject Scenario.host)) = inr zc /\
    controls zc = Scenario.host /\
    controlsElement zc = Controls.controlsEl Scenario.host /\
    currentScale zc = None /\ currentScaleElement zc = Unset /\
    minZoom zc = None /\ maxZoom zc = None.
Proof.
  split; [|split].
  - apply (proj1 (constructor_requires_host VNull)). reflexivity.
  - apply (proj1 (constructor_requires_host (VObject PlainObject))). reflexivity.
  - apply (proj2 (constructor_requires_host (VObject (ControlsObject Scenario.host)))).
    reflexivity.
Defined.

(** C8 at [init(0.5, {minZoom: 0.25, maxZoom: 2})].  The markup that
    [init] adds holds the text in a [span] marked
    [data-testid="current-zoom"], and it stays while the scale given is
    not finite; the first assignment of the label text replaces the
    [span] by a bare text node, after which no element of the host
    carries the marker. *)
Theorem test_marker_lost_on_update :
  querySelector_attribute (controlsElement Scenario.started_unscaled)
    "data-testid" "current-zoom" = Some (Scenario.scale_label ++ [0%nat]) /\
  text_at (controlsElement Scenario.started_unscaled) (Scenario.scale_label ++ [0%nat])
    = Some "100%" /\
  querySelector_attribute (controlsElement Scenario.started)
    "data-testid" "current-zoom" = None /\
  children_of <$> get (controlsElement Scenario.started) Scenario.scale_label
    = Some [Text "50%"] /\
  querySelector_attribute
    (controlsElement
       (instance_of (setCurrentScale (VNumber Scenario.two) Scenario.started_unscaled)))
    "data-testid" "current-zoom" = None.
Proof. vm_compute. repeat split. Qed.

(** C9. When the check does not find one of the two buttons it skips
    that button, raises nothing, and still assigns [disabled] of the
    button it does find; when it finds neither it changes nothing. *)
Theorem check_tolerates_missing_buttons (zc : t) :
  (querySelector (controlsElement zc) CLASS_ZOOM_OUT_BUTTON = None ->
   forall pi, querySelector (controlsElement zc) CLASS_ZOOM_IN_BUTTON = Some pi ->
     checkButtonEnablement zc
       = modify (set_disabled (ge (read (currentScale zc)) (read (maxZoom zc)))) pi zc /\
     disabled_at (controlsElement (checkButtonEnablement zc)) pi
       = Some (ge (read (currentScale zc)) (read (maxZoom zc)))) /\
  (querySelector (controlsElement zc) CLASS_ZOOM_IN_BUTTON = None ->
   forall po, querySelector (controlsElement zc) CLASS_ZOOM_OUT_BUTTON = Some po ->
     checkButtonEnablement zc
       = modify (set_disabled (le (read (currentScale zc)) (read (minZoom zc)))) po zc /\
     disabled_at (controlsElement (checkButtonEnablement zc)) po
       = Some (le (read (currentScale zc)) (read (minZoom zc)))) /\
  (querySelector (controlsElement zc) CLASS_ZOOM_OUT_BUTTON = None ->
   querySelector (controlsElement zc) CLASS_ZOOM_IN_BUTTON = None ->
   checkButtonEnablement zc = zc) /\
  (forall x p, nativeIsFinite x = true -> currentScaleElement zc = Ref p ->
     exists zc', setCurrentScale (VNumber x) zc = Normal zc').
Proof.
  split; [|split; [|split]].
  - intros Ho pi Hi.
    assert (E : checkButtonEnablement zc
                = modify (set_disabled (ge (read (currentScale zc)) (read (maxZoom zc)))) pi zc).
    { unfold checkButtonEnablement. rewrite Ho, Hi. reflexivity. }
    split; [exact E|]. rewrite E, controlsElement_modify.
    destruct (querySelector_sound _ _ _ Hi) as (e & He & _).
    eapply disabled_at_set_disabled_eq; eassumption.
  - intros Hi po Ho.
    assert (E : checkButtonEnablement zc
                = modify (set_disabled (le (read (currentScale zc)) (read (minZoom zc)))) po zc).
    { unfold checkButtonEnablement. rewrite Ho, Hi. reflexivity. }
    split; [exact E|]. rewrite E, controlsElement_modify.
    destruct (querySelector_sound _ _ _ Ho) as (e & He & _).
    eapply disabled_at_set_disabled_eq; eassumption.
  - intros Ho Hi. unfold checkButtonEnablement. rewrite Ho, Hi. reflexivity.
  - intros x p Hfin Hp. unfold setCurrentScale. simpl isFinite. rewrite Hfin.
    simpl. rewrite Hp. eexists; reflexivity.
Qed.

Lemma check_tolerates_missing_buttons_witness :
  checkButtonEnablement (Scenario.without Scenario.zoom_out_button Scenario.started)
    = modify (set_disabled false) Scenario.zoom_in_button
        (Scenario.without Scenario.zoom_out_button Scenario.started) /\
  checkButtonEnablement (Scenario.without Scenario.zoom_in_button Scenario.started)
    = modify (set_disabled false) Scenario.zoom_out_button
        (Scenario.without Scenario.zoom_in_button Scenario.started) /\
  checkButtonEnablement (Scenario.without [0%nat] Scenario.started)
    = Scenario.without [0%nat] Scenario.started /\
  exists zc',
    setCurrentScale (VNumber Scenario.two)
      (Scenario.without Scenario.zoom_out_button Scenario.started) = Normal zc'.
Proof.
  split; [|split; [|split]].
  - refine (proj1 (proj1 (check_tolerates_missing_buttons
                            (Scenario.without Scenario.zoom_out_button Scenario.started))
                     _ Scenario.zoom_in_button _)); vm_compute; reflexivity.
  - refine (proj1 (proj1 (proj2 (check_tolerates_missing_buttons
                            (Scenario.without Scenario.zoom_in_button Scenario.started)))
                     _ Scenario.zoom_out_button _)); vm_compute; reflexivity.
  - refine (proj1 (proj2 (proj2 (check_tolerates_missing_buttons
                            (Scenario.without [0%nat] Scenario.started)))) _ _);
      vm_compute; reflexivity.
  - refine (proj2 (proj2 (proj2 (check_tolerates_missing_buttons
                            (Scenario.without Scenario.zoom_out_button Scenario.started))))
              Scenario.two Scenario.scale_label _ _); vm_compute; reflexivity.
Defined.

(** C10. On an instance that was constructed but not initialized, a
    finite scale is stored and the assignment to the label, which is not
    there yet, throws a TypeError.  A finite scale is processed to the end
    exactly when a label reference is cached, which [init] does on every
    host whose root is an element. *)
Theorem setCurrentScale_needs_init (x : number) :
  nativeIsFinite x = true ->
  (forall v zc, constructor v = inr zc ->
     setCurrentScale (VNumber x) zc
     = Throw TypeError (set_currentScale (Math_round (mul x hundred)) zc)) /\
  (forall zc,
     (exists zc', setCurrentScale (VNumber x) zc = Normal zc') <->
     (exists p, currentScaleElement zc = Ref p)) /\
  (forall zc currentScale options e cs,
     controlsElement zc = Element e cs ->
     exists zc1 zc2,
       init currentScale options zc = Normal zc1 /\
       setCurrentScale (VNumber x) zc1 = Normal zc2).
Proof.
  intros Hfin. split; [|split].
  - intros v zc Hv. apply setCurrentScale_fails; [assumption|].
    unfold constructor in Hv.
    destruct (negb (ToBoolean v) || negb (instanceof_Controls v)); [discriminate|].
    destruct v as [| |b|y|s|[|c]]; try discriminate.
    injection Hv as <-. discriminate.
  - intros zc. split.
    + intros (zc' & H).
      destruct (currentScaleElement zc) as [| |p] eqn:Hp; [| |exists p; reflexivity].
      * rewrite setCurrentScale_fails in H; [discriminate | assumption |].
        intros p. rewrite Hp. discriminate.
      * rewrite setCurrentScale_fails in H; [discriminate | assumption |].
        intros p. rewrite Hp. discriminate.
    + intros (p & Hp). rewrite (setCurrentScale_runs x zc p Hfin Hp).
      eexists; reflexivity.
  - intros zc currentScale options e cs Hroot.
    destruct (init_caches_label currentScale options zc e cs Hroot) as (zc1 & H1 & Hl).
    destruct (setCurrentScale_keeps_label (VNumber x) zc1 Hl) as (zc2 & H2 & _).
    exists zc1, zc2. split; assumption.
Qed.

Lemma setCurrentScale_needs_init_witness :
  setCurrentScale (VNumber Scenario.half) Scenario.fresh
  = Throw TypeError (set_currentScale (of_Z 50) Scenario.fresh) /\
  exists zc1 zc2,
    init (VNumber Scenario.one) None Scenario.fresh = Normal zc1 /\
    setCurrentScale (VNumber Scenario.half) zc1 = Normal zc2.
Proof.
  split.
  - refine (proj1 (setCurrentScale_needs_init Scenario.half _)
              (VObject (ControlsObject Scenario.host)) Scenario.fresh _);
      reflexivity.
  - refine (proj2 (proj2 (setCurrentScale_needs_init Scenario.half _))
              Scenario.fresh (VNumber Scenario.one) None
              (Controls.new_element "div" "bp-controls" [] None) [] _);
      reflexivity.
Defined.

End Claims.

(** * Updates of the tree at two places *)

Section TreeUpdates.

Lemma update_ext f g n p :
  (forall c, f c = g c) -> update f n p = update g n p.
Proof.
  intros H. revert n. induction p as [|i p IH]; intros n; simpl; [apply H|].
  destruct n as [s|e cs]; [reflexivity|].
  destruct (cs !! i); [|reflexivity]. rewrite IH. reflexivity.
Qed.

Lemma update_update f g n p :
  update g (update f n p) p = update (fun c => g (f c)) n p.
Proof.
  revert n. induction p as [|i p IH]; intros n; simpl; [reflexivity|].
  destruct n as [s|e cs]; [reflexivity|].
  destruct (cs !! i) as [c|] eqn:Hc; simpl; [|rewrite Hc; reflexivity].
  rewrite list_lookup_insert_eq by (eapply lookup_lt_Some; eassumption).
  rewrite list_insert_insert_eq, IH. reflexivity.
Qed.

Lemma set_disabled_twice a b n p :
  update (set_disabled b) (update (set_disabled a) n p) p
  = update (set_disabled b) n p.
Proof.
  rewrite update_update. apply update_ext. intros [s|e cs]; reflexivity.
Qed.

Lemma set_textContent_twice s1 s2 n p :
  update (set_textContent s2) (update (set_textContent s1) n p) p
  = update (set_textContent s2) n p.
Proof.
  rewrite update_update. apply update_ext. intros [s|e cs]; reflexivity.
Qed.

(** Two assignments of [disabled] to different elements can be done in
    either order. *)
Lemma set_disabled_commute a b n p q :
  p <> q ->
  update (set_disabled a) (update (set_disabled b) n q) p
  = update (set_disabled b) (update (set_disabled a) n p) q.
Proof.
  revert q n. induction p as [|i p IH]; intros [|j q] [s|e cs] Hne;
    try reflexivity; try congruence.
  - simpl. destruct (cs !! j); reflexivity.
  - simpl. destruct (cs !! i); reflexivity.
  - simpl. destruct (decide (i = j)) as [->|Hij].
    + destruct (cs !! j) as [c|] eqn:Hc; simpl; [|rewrite Hc; reflexivity].
      rewrite !list_lookup_insert_eq by (eapply lookup_lt_Some; eassumption).
      rewrite !list_insert_insert_eq, IH by congruence. reflexivity.
    + destruct (cs !! j) as [cj|] eqn:Hj, (cs !! i) as [ci|] eqn:Hi; simpl;
        rewrite ?list_lookup_insert_ne by congruence; rewrite ?Hi, ?Hj;
        try reflexivity.
      rewrite list_insert_insert_ne by congruence. reflexivity.
Qed.

(** An assignment of [disabled] and an assignment of the text of an
    element that does not contain the former can be done in either order. *)
Lemma set_textContent_commute s b n p q :
  (forall r, q = p ++ r -> r = []) ->
  update (set_textContent s) (update (set_disabled b) n q) p
  = update (set_disabled b) (update (set_textContent s) n p) q.
Proof.
  revert q n. induction p as [|i p IH]; intros [|j q] [t|e cs] Hq;
    try reflexivity.
  - discriminate (Hq (j :: q) eq_refl).
  - simpl. destruct (cs !! i); reflexivity.
  - simpl. destruct (decide (i = j)) as [->|Hij].
    + destruct (cs !! j) as [c|] eqn:Hc; simpl; [|rewrite Hc; reflexivity].
      rewrite !list_lookup_insert_eq by (eapply lookup_lt_Some; eassumption).
      rewrite !list_insert_insert_eq, IH; [reflexivity|].
      intros r ->. apply (Hq r). reflexivity.
    + destruct (cs !! j) as [cj|] eqn:Hj, (cs !! i) as [ci|] eqn:Hi; simpl;
        rewrite ?list_lookup_insert_ne by congruence; rewrite ?Hi, ?Hj;
        try reflexivity.
      rewrite list_insert_insert_ne by congruence. reflexivity.
Qed.

Lemma get_app n p r :
  get n (p ++ r) = match get n p with Some c => get c r | None => None end.
Proof.
  revert n. induction p as [|i p IH]; intros n; simpl; [reflexivity|].
  destruct n as [s|e cs]; [reflexivity|].
  destruct (cs !! i); [apply IH | reflexivity].
Qed.

(** After its text has been assigned, an element contains no element. *)
Lemma no_element_below_text s n p q e :
  element_at (update (set_textContent s) n p) q = Some e ->
  forall r, q = p ++ r -> r = [].
Proof.
  intros He r ->. unfold element_at in He. rewrite get_app in He.
  destruct (get n p) as [c|] eqn:Hc.
  - rewrite (get_update _ _ _ _ Hc) in He.
    destruct r as [|k r]; [reflexivity|].
    destruct c as [t|el cs]; simpl in He; [discriminate|].
    destruct s; simpl in He; [discriminate|].
    destruct k; simpl in He; [|discriminate].
    destruct r; simpl in He; discriminate.
  - rewrite (get_update_None _ _ _ Hc), Hc in He. discriminate.
Qed.

(** Which element a selector finds does not depend on the text of an
    element. *)
Lemma find_element_set_textContent P s1 s2 n p :
  find_element P (update (set_textContent s1) n p)
  = find_element P (update (set_textContent s2) n p).
Proof.
  revert n. induction p as [|i p IH]; intros [t|e cs]; try reflexivity.
  - simpl update. rewrite !find_element_Element.
    destruct (P e); [reflexivity|]. destruct s1, s2; reflexivity.
  - simpl update. destruct (cs !! i) as [c|] eqn:Hc; [|reflexivity].
    rewrite !find_element_Element. destruct (P e); [reflexivity|].
    assert (Hi : (i < length cs)%nat) by (eapply lookup_lt_Some; eassumption).
    rewrite <- (list_insert_insert_eq cs i (update (set_textContent s1) c p)
                  (update (set_textContent s2) c p)).
    apply (find_first_insert P _ i (update (set_textContent s2) c p)).
    + apply list_lookup_insert_eq. exact Hi.
    + apply IH.
Qed.

Lemma querySelector_set_textContent cls s1 s2 root p :
  querySelector (update (set_textContent s1) root p) cls
  = querySelector (update (set_textContent s2) root p) cls.
Proof.
  pose proof (find_element_set_textContent (has_class cls) s1 s2 root p) as H.
  destruct p as [|i p].
  - destruct root as [t|e cs]; [reflexivity|]. simpl. destruct s1, s2; reflexivity.
  - destruct root as [t|e cs]; [reflexivity|]. simpl in *.
    destruct (cs !! i) as [c|] eqn:Hc; [|reflexivity].
    simpl. assert (Hi : (i < length cs)%nat) by (eapply lookup_lt_Some; eassumption).
    rewrite <- (list_insert_insert_eq cs i (update (set_textContent s1) c p)
                  (update (set_textContent s2) c p)).
    apply (find_first_insert _ _ i (update (set_textContent s2) c p)).
    + apply list_lookup_insert_eq. exact Hi.
    + apply find_element_set_textContent.
Qed.

(** An element found by a selector is still the one found after its
    text has been assigned. *)
Lemma find_element_text_of_found P s n p :
  find_element P n = Some p ->
  find_element P (update (set_textContent s) n p) = Some p.
Proof.
  revert n. induction p as [|i p IH]; intros [t|e cs] H; try discriminate.
  - rewrite find_element_Element in H. simpl update.
    rewrite find_element_Element. destruct (P e); [reflexivity|].
    destruct (find_first_inv _ _ _ _ H) as (j & q & c & Hq & _). discriminate.
  - rewrite find_element_Element in H. destruct (P e) eqn:HP; [discriminate|].
    destruct (find_first_inv _ _ _ _ H) as (j & q & c & Hq & Hc & Hf).
    simpl in Hq. injection Hq as -> ->.
    simpl update. rewrite Hc, find_element_Element, HP.
    rewrite (find_first_insert P cs j c _ 0%nat Hc); [exact H|].
    rewrite (IH c Hf). symmetry. exact Hf.
Qed.

Lemma querySelector_text_of_found cls s root p :
  querySelector root cls = Some p ->
  querySelector (update (set_textContent s) root p) cls = Some p.
Proof.
  destruct root as [t|e cs]; [discriminate|]. unfold querySelector at 1.
  intros H. destruct (find_first_inv _ _ _ _ H) as (j & q & c & Hq & Hc & Hf).
  simpl in Hq. subst p. simpl update. rewrite Hc. simpl.
  rewrite (find_first_insert _ cs j c _ 0%nat Hc); [exact H|].
  rewrite (find_element_text_of_found _ _ c q Hf). symmetry. exact Hf.
Qed.

(** Assigning the text of an element leaves every element that is not
    inside it as it is. *)
Lemma element_at_set_textContent_outside s n p q :
  (forall r, q = p ++ r -> r = []) ->
  element_at (update (set_textContent s) n p) q = element_at n q.
Proof.
  revert q n. induction p as [|i p IH]; intros q n Hq.
  - rewrite (Hq q eq_refl). destruct n as [t|e cs]; reflexivity.
  - destruct n as [t|e cs]; [reflexivity|]. simpl update.
    destruct (cs !! i) as [c|] eqn:Hc; [|reflexivity].
    destruct q as [|j q]; [reflexivity|].
    unfold element_at. simpl get.
    destruct (decide (j = i)) as [->|Hne].
    + rewrite list_lookup_insert_eq by (eapply lookup_lt_Some; eassumption).
      rewrite Hc. apply (IH q c). intros r ->. apply (Hq r). reflexivity.
    + rewrite list_lookup_insert_ne by congruence. reflexivity.
Qed.

End TreeUpdates.

(** * Repeated updates *)

Section Updates.

Import ZoomControls.

Lemma check_enablement zc :
  checkButtonEnablement zc
  = {| controls :=
         {| Controls.controlsEl :=
              enablement (le (read (currentScale zc)) (read (minZoom zc)))
                         (ge (read (currentScale zc)) (read (maxZoom zc)))
                         (controlsElement zc) |};
       currentScale := currentScale zc;
       currentScaleElement := currentScaleElement zc;
       maxZoom := maxZoom zc;
       minZoom := minZoom zc |}.
Proof.
  destruct zc as [[d] c l hi lo].
  unfold checkButtonEnablement, enablement, controlsElement. simpl.
  destruct (querySelector d CLASS_ZOOM_OUT_BUTTON),
           (querySelector d CLASS_ZOOM_IN_BUTTON); reflexivity.
Qed.

Lemma querySelector_enablement a b d cls :
  querySelector (enablement a b d) cls = querySelector d cls.
Proof.
  unfold enablement.
  destruct (querySelector d CLASS_ZOOM_OUT_BUTTON),
           (querySelector d CLASS_ZOOM_IN_BUTTON);
    rewrite ?querySelector_set_disabled; reflexivity.
Qed.

(** A second enablement check overwrites what the first one did. *)
Lemma enablement_twice a1 b1 a2 b2 d :
  enablement a2 b2 (enablement a1 b1 d) = enablement a2 b2 d.
Proof.
  unfold enablement at 1. rewrite !querySelector_enablement. unfold enablement.
  destruct (querySelector d CLASS_ZOOM_OUT_BUTTON) as [po|],
           (querySelector d CLASS_ZOOM_IN_BUTTON) as [pi|];
    rewrite ?set_disabled_twice; try reflexivity.
  destruct (decide (po = pi)) as [->|Hne].
  - rewrite !set_disabled_twice. reflexivity.
  - rewrite (set_disabled_commute a2 b1 _ po pi Hne).
    rewrite !set_disabled_twice. reflexivity.
Qed.

(** The text of the label can be assigned before or after an enablement
    check of the tree that holds an earlier text. *)
Lemma enablement_text a b s1 s2 d p :
  update (set_textContent s2) (enablement a b (update (set_textContent s1) d p)) p
  = enablement a b (update (set_textContent s2) d p).
Proof.
  unfold enablement.
  rewrite !(querySelector_set_textContent _ s2 s1 d p).
  destruct (querySelector (update (set_textContent s1) d p) CLASS_ZOOM_OUT_BUTTON)
    as [po|] eqn:Ho,
    (querySelector (update (set_textContent s1) d p) CLASS_ZOOM_IN_BUTTON)
    as [pi|] eqn:Hi.
  - destruct (querySelector_sound _ _ _ Ho) as (eo & Heo & _).
    destruct (querySelector_sound _ _ _ Hi) as (ei & Hei & _).
    rewrite !set_textContent_commute
      by (eapply no_element_below_text; eassumption).
    rewrite set_textContent_twice. reflexivity.
  - destruct (querySelector_sound _ _ _ Ho) as (eo & Heo & _).
    rewrite !set_textContent_commute
      by (eapply no_element_below_text; eassumption).
    rewrite set_textContent_twice. reflexivity.
  - destruct (querySelector_sound _ _ _ Hi) as (ei & Hei & _).
    rewrite !set_textContent_commute
      by (eapply no_element_below_text; eassumption).
    rewrite set_textContent_twice. reflexivity.
  - apply set_textContent_twice.
Qed.

(** A finite scale makes the instance what it would have made of the
    instance as it was before the previous update. *)
Lemma setCurrentScale_last scale1 scale2 zc :
  isFinite scale2 = true ->
  setCurrentScale scale2 (instance_of (setCurrentScale scale1 zc))
  = setCurrentScale scale2 zc.
Proof.
  intros H2. destruct scale2 as [| |b2|y|s2|o2]; try discriminate.
  simpl in H2.
  destruct (isFinite scale1) eqn:H1;
    [|rewrite (setCurrentScale_skips _ _ H1); reflexivity].
  destruct scale1 as [| |b1|x|s1|o1]; try discriminate. simpl in H1.
  destruct (currentScaleElement zc) as [| |p] eqn:Hp.
  - rewrite (setCurrentScale_fails x zc H1) by (rewrite Hp; discriminate).
    simpl instance_of.
    rewrite !(setCurrentScale_fails y _ H2) by (intros q; simpl; rewrite ?Hp; discriminate).
    reflexivity.
  - rewrite (setCurrentScale_fails x zc H1) by (rewrite Hp; discriminate).
    simpl instance_of.
    rewrite !(setCurrentScale_fails y _ H2) by (intros q; simpl; rewrite ?Hp; discriminate).
    reflexivity.
  - rewrite (setCurrentScale_runs x zc p H1 Hp). simpl instance_of.
    rewrite (setCurrentScale_runs y zc p H2 Hp).
    rewrite (setCurrentScale_runs y _ p H2)
      by (destruct (check_fields
                      (modify (set_textContent
                                 (Number_toString (Math_round (mul x hundred)) +:+ "%"))
                              p (set_currentScale (Math_round (mul x hundred)) zc)))
            as (_ & _ & _ & ->); exact Hp).
    f_equal. rewrite !check_enablement.
    destruct zc as [[d] c l hi lo]. unfold modify, controlsElement. simpl.
    rewrite enablement_text, enablement_twice. reflexivity.
Qed.

Lemma after_updates_snoc scales scale zc :
  after_updates (scales ++ [scale]) zc
  = instance_of (setCurrentScale scale (after_updates scales zc)).
Proof. unfold after_updates. rewrite foldl_app. reflexivity. Qed.

Lemma after_updates_last scales scale zc :
  isFinite scale = true ->
  setCurrentScale scale (after_updates scales zc) = setCurrentScale scale zc.
Proof.
  intros H. revert zc. induction scales as [|s scales IH]; intros zc;
    [reflexivity|].
  change (after_updates (s :: scales) zc)
    with (after_updates scales (instance_of (setCurrentScale s zc))).
  rewrite IH. apply setCurrentScale_last, H.
Qed.

Lemma checkButtonEnablement_twice zc :
  checkButtonEnablement (checkButtonEnablement zc) = checkButtonEnablement zc.
Proof.
  rewrite (check_enablement (checkButtonEnablement zc)).
  rewrite (check_enablement zc) at 1 2 3 4 5 6 7 8 9.
  unfold controlsElement. simpl.
  rewrite enablement_twice. symmetry. apply check_enablement.
Qed.

End Updates.

(** * The order of Numbers *)

Section Order.

Import ZoomControls.

Lemma compare_cont_spec m1 m2 :
  CompareSpec (m1 = m2) (Pos.lt m1 m2) (Pos.lt m2 m1)
              (PosDef.Pos.compare_cont Eq m1 m2).
Proof. exact (Pos.compare_spec m1 m2). Qed.

(** [<=] on Numbers is transitive. *)
Lemma le_trans x y z : le x y = true -> le y z = true -> le x z = true.
Proof.
  unfold le, lessThan.
  destruct x as [sx|sx| |sx mx ex], y as [sy|sy| |sy my ey],
           z as [sz|sz| |sz mz ez]; simpl;
    try discriminate; try reflexivity;
    try (destruct sx); try (destruct sy); try (destruct sz);
    try discriminate; try reflexivity.
  - destruct (Z.compare_spec ey ex), (Z.compare_spec ez ey),
             (Z.compare_spec ez ex); subst; try lia; try discriminate;
      try reflexivity;
      destruct (compare_cont_spec my mx), (compare_cont_spec mz my),
               (compare_cont_spec mz mx); subst; simpl;
      try discriminate; try reflexivity; lia.
  - destruct (Z.compare_spec ey ex), (Z.compare_spec ez ey),
             (Z.compare_spec ez ex); subst; try lia; try discriminate;
      try reflexivity;
      destruct (compare_cont_spec my mx), (compare_cont_spec mz my),
               (compare_cont_spec mz mx); subst; simpl;
      try discriminate; try reflexivity; lia.
Qed.

Lemma ge_le x y : ge x y = le y x.
Proof. reflexivity. Qed.

Lemma lt_not_le x y : lt x y = true -> le y x = false.
Proof.
  unfold lt, le, lessThan. destruct (SFcompare x y) as [[]|]; congruence.
Qed.

(** No Number is at most the lower and at least the upper of two bounds
    that are apart. *)
Lemma not_below_and_above c lo hi :
  lt lo hi = true -> le c lo = true -> ge c hi = true -> False.
Proof.
  intros Hlt Hlo Hhi. rewrite ge_le in Hhi.
  pose proof (le_trans _ _ _ Hhi Hlo) as H.
  rewrite (lt_not_le _ _ Hlt) in H. discriminate.
Qed.

Lemma ge_positive_infinity x : x <> S754_nan -> ge POSITIVE_INFINITY x = true.
Proof. destruct x as [s|[]| |s m e]; try reflexivity; congruence. Qed.

Lemma le_negative_infinity x : x <> S754_nan -> le NEGATIVE_INFINITY x = true.
Proof. destruct x as [s|[]| |[] m e]; try reflexivity; congruence. Qed.

Lemma le_nan_l x : le NaN x = false.
Proof. destruct x as [s|s| |s m e]; reflexivity. Qed.

Lemma ge_nan_l x : ge NaN x = false.
Proof. reflexivity. Qed.

(** The upper bound [init] stores is never NaN, and no update changes
    that. *)
Lemma init_bounds_are_numbers currentScale options zc scales :
  exists hi,
    maxZoom (after_updates scales (instance_of (init currentScale options zc)))
      = Some hi /\
    hi <> S754_nan.
Proof.
  destruct (after_updates_bounds scales
              (instance_of (init currentScale options zc))) as (_ & ->).
  destruct (init_bounds currentScale options zc) as (_ & ->).
  eexists. split; [reflexivity|].
  unfold stored_maxZoom, validated_maxZoom, validateZoom.
  destruct (or_default (VNumber POSITIVE_INFINITY)
              (Options.maxZoom (default Options.empty options)))
    as [| |b|x|s|ob]; try discriminate.
  simpl. destruct (nativeIsFinite x) eqn:Hx; [|discriminate].
  eapply signed_not_nan, Math_round_signed, mul_hundred_signed, Hx.
Qed.

End Order.

(** * The label reference *)

Section Label.

Import ZoomControls.

Lemma setCurrentScale_label_ref scale zc :
  currentScaleElement (instance_of (setCurrentScale scale zc))
  = currentScaleElement zc.
Proof.
  unfold setCurrentScale. destruct (negb (isFinite scale)); [reflexivity|].
  destruct scale as [| |b|x|s|o]; try reflexivity.
  simpl. destruct (currentScaleElement zc) as [| |p] eqn:Hp; simpl;
    try exact Hp.
  destruct (check_fields
    (modify (set_textContent (Number_toString (Math_round (mul x hundred)) +:+ "%"))
            p (set_currentScale (Math_round (mul x hundred)) zc)))
    as (_ & _ & _ & ->). exact Hp.
Qed.

Lemma text_at_set_textContent s n p c :
  get n p = Some c -> text_at (update (set_textContent s) n p) p = Some s.
Proof.
  intros Hc. unfold text_at.
  rewrite (get_update _ _ _ _ Hc), textContent_set_textContent. reflexivity.
Qed.

Lemma setCurrentScale_label_is_first scale zc :
  label_is_first zc -> label_is_first (instance_of (setCurrentScale scale zc)).
Proof.
  intros (p & Hp & Hq). exists p. rewrite setCurrentScale_label_ref.
  split; [exact Hp|].
  destruct (isFinite scale) eqn:Hfin;
    [|rewrite (setCurrentScale_skips _ _ Hfin); exact Hq].
  destruct scale as [| |b|x|s|o]; try discriminate.
  rewrite (setCurrentScale_runs x zc p Hfin Hp). simpl instance_of.
  rewrite querySelector_check, controlsElement_modify.
  apply querySelector_text_of_found, Hq.
Qed.

Lemma after_updates_label_is_first scales zc :
  label_is_first zc -> label_is_first (after_updates scales zc).
Proof.
  revert zc. induction scales as [|s scales IH]; intros zc H; [exact H|].
  apply (IH (instance_of (setCurrentScale s zc))).
  apply setCurrentScale_label_is_first, H.
Qed.

Lemma built_label_is_first o e cs zc : label_is_first (built o e cs zc).
Proof.
  destruct (built_caches_label o e cs zc) as (p & el & Hp & _).
  exists p. split; [exact Hp|].
  unfold built in *. simpl in *. unfold controlsElement. simpl.
  destruct (find_first (has_class CLASS_ZOOM_CURRENT_SCALE)
              (cs ++ [zoom_group o]) 0) as [q|]; [|discriminate].
  injection Hp as ->. reflexivity.
Qed.

Lemma label_is_first_cached zc : label_is_first zc -> label_cached zc.
Proof.
  intros (p & Hp & Hq). destruct (querySelector_sound _ _ _ Hq) as (el & He & _).
  exists p, el. split; assumption.
Qed.

Lemma init_label_is_first currentScale options zc e cs :
  controlsElement zc = Element e cs ->
  label_is_first (instance_of (init currentScale options zc)).
Proof.
  intros Hroot. rewrite (init_unfold _ _ _ _ _ Hroot).
  apply setCurrentScale_label_is_first, built_label_is_first.
Qed.

Lemma get_group e cs g q :
  get (Element e (cs ++ [g])) (length cs :: q) = get g q.
Proof. simpl. rewrite list_lookup_middle by reflexivity. reflexivity. Qed.

(** Below a child other than the last, an update leaves the last child
    as it is. *)
Lemma get_group_update f e cs g j p q :
  (j < length cs)%nat ->
  get (update f (Element e (cs ++ [g])) (j :: p)) (length cs :: q) = get g q.
Proof.
  intros Hj. simpl update.
  destruct ((cs ++ [g]) !! j) as [c|]; [|apply get_group].
  simpl. rewrite list_lookup_insert_ne by lia.
  rewrite list_lookup_middle by reflexivity. reflexivity.
Qed.

Lemma length_children_enable_all d :
  length (children_of (enable_all d)) = length (children_of d).
Proof. destruct d as [t|e cs]; [reflexivity|]. simpl. apply length_fmap. Qed.

End Label.

(** * The group [init] adds *)

Section Group.

Import ZoomControls.

Lemma zoom_group_markup o : zoom_group o = zoom_group_with o current_zoom_markup.
Proof. reflexivity. Qed.

Lemma zoom_group_text o s :
  update (set_textContent s) (zoom_group o) [1%nat]
  = zoom_group_with o (match s with EmptyString => [] | _ => [Text s] end).
Proof. reflexivity. Qed.

Lemma update_group f e cs g q :
  update f (Element e (cs ++ [g])) (length cs :: q)
  = Element e (cs ++ [update f g q]).
Proof.
  simpl. rewrite list_lookup_middle by reflexivity.
  rewrite insert_app_r_alt, Nat.sub_diag by lia. reflexivity.
Qed.

(** A selector that finds nothing in the old children of the root looks
    into the new last child. *)
Lemma querySelector_group cls e cs g :
  find_first (has_class cls) cs 0 = None ->
  querySelector (Element e (cs ++ [g])) cls
  = match find_element (has_class cls) g with
    | Some p => Some (length cs :: p)
    | None => None
    end.
Proof.
  intros H. simpl. rewrite find_first_app, H. reflexivity.
Qed.

(** Where a selector finds its element in the group, by the classes of
    the three controls.  Neither the group element nor the icons nor the
    content of the label carry a class. *)
Lemma find_in_zoom_group cls o kids (a b c : bool) :
  has_class cls (Controls.new_element "div" Controls.CLASS_CONTROLS_GROUP [] None)
    = false ->
  has_class cls (Controls.new_element "svg" "" [("data-icon", "zoom-out")] None)
    = false ->
  has_class cls (Controls.new_element "svg" "" [("data-icon", "zoom-in")] None)
    = false ->
  find_first (has_class cls) kids 0 = None ->
  (forall tag attrs h,
     has_class cls (Controls.new_element tag
        (Controls.CLASS_BOX_CONTROLS_GROUP_BUTTON +:+ " " +:+ CLASS_ZOOM_BUTTON
           +:+ " " +:+ CLASS_ZOOM_OUT_BUTTON +:+ " "
           +:+ default "" (Options.zoomOutClassName o)) attrs h) = a) ->
  (forall tag attrs h,
     has_class cls (Controls.new_element tag CLASS_ZOOM_CURRENT_SCALE attrs h) = b) ->
  (forall tag attrs h,
     has_class cls (Controls.new_element tag
        (Controls.CLASS_BOX_CONTROLS_GROUP_BUTTON +:+ " " +:+ CLASS_ZOOM_BUTTON
           +:+ " " +:+ CLASS_ZOOM_IN_BUTTON +:+ " "
           +:+ default "" (Options.zoomInClassName o)) attrs h) = c) ->
  find_element (has_class cls) (zoom_group_with o kids)
  = if a then Some [0%nat]
    else if b then Some [1%nat]
    else if c then Some [2%nat]
    else None.
Proof.
  intros Hg Ho Hi Hk Ha Hb Hc.
  unfold zoom_group_with, zoom_group, ICON_ZOOM_OUT, ICON_ZOOM_IN, icon.
  rewrite find_element_Element, Hg.
  cbn [find_first]. rewrite !find_element_Element.
  rewrite Ha, Hb, Hc. cbn [find_first].
  rewrite !find_element_Element, Ho, Hi. cbn [find_first]. rewrite Hk.
  destruct a, b, c; reflexivity.
Qed.

Lemma no_element_in_text cls s :
  find_first (has_class cls)
    (match s with EmptyString => [] | _ => [Text s] end) 0 = None.
Proof. destruct s; reflexivity. Qed.

End Group.

(** * Whole-number scales *)

Section WholeScales.

Lemma E_pos : 0 < 2 ^ (- emin prec emax).
Proof. apply Z.pow_pos_nonneg; unfold emin, emax, prec; lia. Qed.

(** A valid Number that denotes the integer [k] has the magnitude [k]. *)
Lemma to_Z_rank x k :
  valid_binary prec emax x = true -> is_nonneg x = true ->
  to_Z x = Some k ->
  rank x = k * 2 ^ (- emin prec emax).
Proof.
  intros Vx Nx Hk. destruct x as [s|[]| |[] m e]; try discriminate.
  - injection Hk as <-. reflexivity.
  - destruct (valid_finite _ _ _ Vx) as ((He & _) & _).
    unfold to_Z in Hk. unfold rank.
    destruct (Z.leb_spec 0 e) as [Hpos|Hneg].
    + injection Hk as <-. simpl cond_Zopp.
      replace (e - emin prec emax) with (e + - emin prec emax) by lia.
      rewrite Z.pow_add_r by (unfold emin, emax, prec in *; lia). ring.
    + destruct (Z.eqb_spec (Zpos m mod 2 ^ (- e)) 0) as [Hmod|]; [|discriminate].
      injection Hk as <-. simpl cond_Zopp.
      assert (HD : 0 < 2 ^ (- e)) by (apply Z.pow_pos_nonneg; lia).
      assert (Hm : Zpos m = 2 ^ (- e) * (Zpos m / 2 ^ (- e)))
        by (apply Z.div_exact; lia).
      replace (- emin prec emax) with (- e + (e - emin prec emax)) by lia.
      rewrite Z.pow_add_r by lia.
      rewrite Hm at 1. ring.
Qed.

(** A valid finite Number of magnitude [n] denotes the integer [n]. *)
Lemma rank_to_Z x n :
  valid_binary prec emax x = true -> is_nonneg x = true ->
  nativeIsFinite x = true ->
  rank x = n * 2 ^ (- emin prec emax) ->
  to_Z x = Some n.
Proof.
  intros Vx Nx Fx Hr. pose proof E_pos as HE.
  destruct x as [s|[]| |[] m e]; try discriminate.
  - simpl in Hr. assert (n = 0) by nia. subst n. reflexivity.
  - destruct (valid_finite _ _ _ Vx) as ((He & _) & _).
    unfold rank in Hr. unfold to_Z.
    destruct (Z.leb_spec 0 e) as [Hpos|Hneg].
    + simpl cond_Zopp. f_equal.
      replace (e - emin prec emax) with (e + - emin prec emax) in Hr by lia.
      rewrite Z.pow_add_r in Hr by (unfold emin, emax, prec in *; lia).
      remember (2 ^ (- emin prec emax)) as X. remember (2 ^ e) as Y. nia.
    + assert (HD : 0 < 2 ^ (- e)) by (apply Z.pow_pos_nonneg; lia).
      assert (HP : 0 < 2 ^ (e - emin prec emax)) by (apply Z.pow_pos_nonneg; lia).
      replace (- emin prec emax) with (- e + (e - emin prec emax)) in Hr by lia.
      rewrite Z.pow_add_r in Hr by lia.
      assert (Hm : Zpos m = n * 2 ^ (- e)).
      { remember (2 ^ (- e)) as D. remember (2 ^ (e - emin prec emax)) as P. nia. }
      rewrite Hm, Z.mod_mul, Z.div_mul by lia. reflexivity.
Qed.

Lemma rne_exact n k : 0 <= k -> n mod 2 ^ k = 0 -> rne n k = n / 2 ^ k.
Proof.
  intros Hk Hm. unfold rne. cbv zeta. rewrite Hm.
  assert (0 < 2 ^ k) by (apply Z.pow_pos_nonneg; lia).
  destruct (Z.ltb_spec (2 ^ k) (2 * 0)); [lia|].
  destruct (Z.eqb_spec (2 * 0) (2 ^ k)); [lia|]. reflexivity.
Qed.

Lemma Zdigits2_lt n d : 0 < n -> n < 2 ^ d -> Zdigits2 n <= d.
Proof.
  intros Hn Hd. destruct (Zdigits2_bounds n Hn) as [Hlo _].
  destruct (Z.le_gt_cases (Zdigits2 n) d) as [?|Hgt]; [assumption|].
  assert (2 ^ d <= 2 ^ (Zdigits2 n - 1)) by (apply Z.pow_le_mono_r; lia).
  lia.
Qed.

(** The product of the whole number [k] with [100] is exact. *)
Lemma mul_hundred_whole x k :
  valid_binary prec emax x = true -> is_nonneg x = true ->
  to_Z x = Some k -> 100 * k < 2 ^ prec ->
  rank (mul x hundred) = 100 * k * 2 ^ (- emin prec emax).
Proof.
  intros Vx Nx Hk Hlt. pose proof E_pos as HE.
  pose proof (to_Z_rank x k Vx Nx Hk) as Hr.
  destruct x as [s|[]| |[] m e]; try discriminate.
  - injection Hk as <-. destruct s; reflexivity.
  - destruct (valid_finite _ _ _ Vx) as ((He & _) & Hm & Hfull).
    unfold rank in Hr.
    (* the exponent is negative: otherwise the Number is too large *)
    assert (Hneg : e < 0).
    { destruct (Z.lt_ge_cases e 0) as [?|Hpos]; [assumption|exfalso].
      specialize (Hfull ltac:(unfold emin, emax, prec in *; lia)).
      replace (e - emin prec emax) with (e + - emin prec emax) in Hr by lia.
      rewrite Z.pow_add_r in Hr by (unfold emin, emax, prec in *; lia).
      assert (1 <= 2 ^ e) by (apply (Z.pow_le_mono_r 2 0 e); lia).
      assert (Zpos m * 2 ^ e = k).
      { remember (2 ^ (- emin prec emax)) as X. remember (2 ^ e) as Y. nia. }
      change (2 ^ prec) with (2 * 2 ^ (prec - 1)) in Hlt.
      remember (2 ^ (prec - 1)) as P. remember (2 ^ e) as Y. nia. }
    assert (HD : 0 < 2 ^ (- e)) by (apply Z.pow_pos_nonneg; lia).
    assert (HP : 0 < 2 ^ (e - emin prec emax)) by (apply Z.pow_pos_nonneg; lia).
    replace (- emin prec emax) with (- e + (e - emin prec emax)) in Hr by lia.
    rewrite Z.pow_add_r in Hr by lia.
    assert (Hmk : Zpos m = k * 2 ^ (- e)).
    { remember (2 ^ (- e)) as D. remember (2 ^ (e - emin prec emax)) as P. nia. }
    assert (Hk0 : 0 < k) by nia.
    rewrite mul_hundred_finite.
    pose proof (product_exponent m e) as Hcan.
    rewrite binary_round_aux_spec by (try exact Hcan; lia).
    set (n := Zpos (m * 7036874417766400)) in *.
    set (e0 := e + -46) in *.
    set (t := fexp prec emax (Zdigits2 n + e0)) in *.
    assert (Hn : n = 100 * k * 2 ^ (- e0)).
    { unfold n, e0. rewrite Pos2Z.inj_mul, Hmk.
      replace (- (e + -46)) with (- e + 46) by lia.
      rewrite Z.pow_add_r by lia. change (2 ^ 46) with 70368744177664. ring. }
    assert (H0 : 0 < 2 ^ (- e0)) by (apply Z.pow_pos_nonneg; unfold e0; lia).
    assert (Ht0 : t <= 0).
    { assert (Zdigits2 n <= prec - e0).
      { apply Zdigits2_lt; [unfold n; lia|].
        replace (prec - e0) with (prec + - e0) by lia.
        rewrite Z.pow_add_r by (unfold e0, prec; lia). rewrite Hn.
        remember (2 ^ (- e0)) as X. remember (2 ^ prec) as P. nia. }
      unfold t, fexp, emin, emax, prec in *. lia. }
    assert (Htm : emin prec emax <= t) by apply fexp_ge_emin.
    assert (Hs : 0 < 2 ^ (t - e0)) by (apply Z.pow_pos_nonneg; lia).
    assert (Ht : 0 < 2 ^ (- t)) by (apply Z.pow_pos_nonneg; lia).
    assert (Hsplit : 2 ^ (- e0) = 2 ^ (- t) * 2 ^ (t - e0)).
    { rewrite <- Z.pow_add_r by lia. f_equal. lia. }
    assert (Hn' : n = 100 * k * 2 ^ (- t) * 2 ^ (t - e0)).
    { rewrite Hn, Hsplit. ring. }
    rewrite rne_exact by (try lia; rewrite Hn'; apply Z.mod_mul; lia).
    rewrite Hn', Z.div_mul by lia.
    rewrite pack_rank; [|exact Htm|].
    + destruct (Z.eqb_spec (100 * k * 2 ^ (- t)) 0) as [E0|_]; [nia|].
      assert (Hq : 100 * k * 2 ^ (- t) < 2 ^ prec).
      { pose proof (quotient_lt n e0 ltac:(unfold n; lia) Hcan) as [_ Hq].
        fold t in Hq. rewrite Hn', Z.div_mul in Hq by lia. exact Hq. }
      unfold final_exponent.
      destruct (Z.ltb_spec (100 * k * 2 ^ (- t)) (2 ^ prec)); [|lia].
      destruct (Z.leb_spec t (emax - prec));
        [|unfold emax, prec in *; lia].
      replace (- emin prec emax) with (- t + (t - emin prec emax)) by lia.
      rewrite Z.pow_add_r by lia. ring.
    + pose proof (quotient_lt n e0 ltac:(unfold n; lia) Hcan) as [Hq0 Hq].
      fold t in Hq0, Hq. rewrite Hn', Z.div_mul in Hq0, Hq by lia. lia.
Qed.

Lemma round_rank_whole n :
  0 <= n -> round_rank (n * 2 ^ (- emin prec emax)) = n * 2 ^ (- emin prec emax).
Proof.
  intros Hn. pose proof E_pos as HE. unfold round_rank.
  replace (1 - emin prec emax) with (1 + - emin prec emax) by lia.
  rewrite Z.pow_add_r by (unfold emin, emax, prec; lia). change (2 ^ 1) with 2.
  replace (2 * (n * 2 ^ (- emin prec emax)) + 2 ^ (- emin prec emax))
    with ((2 * n + 1) * 2 ^ (- emin prec emax)) by ring.
  rewrite Z.div_mul_cancel_r by lia.
  replace ((2 * n + 1) / 2) with n by (apply (Z.div_unique _ _ _ 1); lia).
  reflexivity.
Qed.

(** The percentage of the whole number [k] is the integer [100 k]. *)
Lemma percent_whole x k :
  is_number x = true -> to_Z x = Some k -> 0 <= k -> 100 * k < 2 ^ prec ->
  nativeIsFinite x = true /\
  is_number (Math_round (mul x hundred)) = true /\
  to_Z (Math_round (mul x hundred)) = Some (100 * k).
Proof.
  intros Vx Hk Hk0 Hlt. pose proof E_pos as HE.
  assert (Fx : nativeIsFinite x = true)
    by (destruct x as [s|s| |s m e]; try discriminate; reflexivity).
  assert (Nx : is_nonneg x = true).
  { destruct x as [s|s| |[] m e]; try discriminate; try reflexivity.
    exfalso. unfold to_Z in Hk.
    destruct (Z.leb_spec 0 e) as [Hpos|Hneg].
    - injection Hk as <-. simpl in Hk0.
      assert (0 < 2 ^ e) by (apply Z.pow_pos_nonneg; lia). lia.
    - destruct (Z.eqb_spec (Zpos m mod 2 ^ (- e)) 0) as [Hm|]; [|discriminate].
      injection Hk as <-. simpl in Hk0.
      assert (HD : 0 < 2 ^ (- e)) by (apply Z.pow_pos_nonneg; lia).
      assert (Hmd : Zpos m = 2 ^ (- e) * (Zpos m / 2 ^ (- e)))
        by (apply Z.div_exact; lia).
      remember (2 ^ (- e)) as D. remember (Zpos m / D) as Q. nia. }
  split; [exact Fx|].
  destruct (mul_hundred_valid x Vx Nx) as (V1 & N1).
  destruct (Math_round_rank _ V1 N1) as (V2 & N2 & R2).
  split; [exact V2|].
  rewrite (mul_hundred_whole x k Vx Nx Hk Hlt) in R2.
  rewrite round_rank_whole in R2 by lia.
  apply rank_to_Z; try assumption.
  destruct (Math_round (mul x hundred)) as [s|s| |s m e]; try discriminate;
    try reflexivity.
  exfalso. unfold rank in R2.
  assert (2 ^ prec * 2 ^ (- emin prec emax) < 2 ^ (emax - emin prec emax)).
  { rewrite <- Z.pow_add_r by (unfold emin, emax, prec; lia).
    apply Z.pow_lt_mono_r; unfold emin, emax, prec; lia. }
  remember (2 ^ (- emin prec emax)) as X. remember (2 ^ prec) as P. nia.
Qed.

End WholeScales.

(** * Further properties of the widget *)

Section Properties.

Import ZoomControls.

(** ** Updates in sequence *)

(** X1.  A finite scale makes of the instance the same whatever updates
    came before it: the call ends the same way and leaves the same
    instance and the same tree as when it is the only update. *)
Theorem last_update_wins (scales : list value) (scale : value) (zc : t) :
  isFinite scale = true ->
  setCurrentScale scale (after_updates scales zc) = setCurrentScale scale zc /\
  after_updates (scales ++ [scale]) zc = instance_of (setCurrentScale scale zc).
Proof.
  intros H. split; [apply after_updates_last, H|].
  rewrite after_updates_snoc, after_updates_last by exact H. reflexivity.
Qed.

Lemma last_update_wins_witness :
  setCurrentScale (VNumber Scenario.half)
    (after_updates [VNumber Scenario.quarter; VNumber NaN; VNumber Scenario.two]
       Scenario.started)
  = setCurrentScale (VNumber Scenario.half) Scenario.started /\
  after_updates ([VNumber Scenario.quarter; VNumber NaN; VNumber Scenario.two]
                   ++ [VNumber Scenario.half]) Scenario.started
  = instance_of (setCurrentScale (VNumber Scenario.half) Scenario.started).
Proof.
  apply (last_update_wins
           [VNumber Scenario.quarter; VNumber NaN; VNumber Scenario.two]
           (VNumber Scenario.half) Scenario.started).
  reflexivity.
Defined.

(** X2.  [setCurrentScale] is idempotent: called again with the same
    argument it ends as the first call did and leaves the instance and
    the tree as the first call left them. *)
Theorem setCurrentScale_idempotent (scale : value) (zc : t) :
  setCurrentScale scale (instance_of (setCurrentScale scale zc))
  = setCurrentScale scale zc.
Proof.
  destruct (isFinite scale) eqn:H.
  - apply setCurrentScale_last, H.
  - rewrite !(setCurrentScale_skips scale) by exact H. reflexivity.
Qed.

(** X3.  [checkButtonEnablement] is idempotent. *)
Theorem checkButtonEnablement_idempotent (zc : t) :
  checkButtonEnablement (checkButtonEnablement zc) = checkButtonEnablement zc.
Proof. apply checkButtonEnablement_twice. Qed.

(** X4.  [checkButtonEnablement] changes nothing but [disabled] flags:
    the fields of the instance are kept, the tree is the same once the
    flags are left out, so that no element is added, removed, restyled
    or rewired, and every element other than the two it finds keeps its
    flag as well. *)
Theorem checkButtonEnablement_frame (zc : t) :
  let zc' := checkButtonEnablement zc in
  currentScale zc' = currentScale zc /\
  minZoom zc' = minZoom zc /\ maxZoom zc' = maxZoom zc /\
  currentScaleElement zc' = currentScaleElement zc /\
  enable_all (controlsElement zc') = enable_all (controlsElement zc) /\
  forall q,
    querySelector (controlsElement zc) CLASS_ZOOM_OUT_BUTTON <> Some q ->
    querySelector (controlsElement zc) CLASS_ZOOM_IN_BUTTON <> Some q ->
    element_at (controlsElement zc') q = element_at (controlsElement zc) q.
Proof.
  intros zc'. subst zc'.
  destruct (check_fields zc) as (H1 & H2 & H3 & H4).
  repeat (split; [assumption|]). split; [apply enable_all_check|].
  intros q Ho Hi. rewrite controlsElement_check. cbv zeta.
  destruct (querySelector (controlsElement zc) CLASS_ZOOM_OUT_BUTTON) as [po|],
           (querySelector (controlsElement zc) CLASS_ZOOM_IN_BUTTON) as [pi|];
    rewrite ?element_at_set_disabled;
    repeat (rewrite decide_False by congruence); reflexivity.
Qed.

(** X5.  When the lower bound is below the upper one, the check never
    leaves both buttons disabled. *)
Theorem buttons_not_both_disabled (zc : t) (po pi : path) :
  lt (read (minZoom zc)) (read (maxZoom zc)) = true ->
  querySelector (controlsElement zc) CLASS_ZOOM_OUT_BUTTON = Some po ->
  querySelector (controlsElement zc) CLASS_ZOOM_IN_BUTTON = Some pi ->
  po <> pi ->
  let zc' := checkButtonEnablement zc in
  disabled_at (controlsElement zc') po = Some false \/
  disabled_at (controlsElement zc') pi = Some false.
Proof.
  intros Hlt Ho Hi Hne zc'.
  destruct (check_sets_buttons zc po pi Ho Hi Hne) as (Hout & Hin).
  fold zc' in Hout, Hin. rewrite Hout, Hin.
  destruct (le (read (currentScale zc)) (read (minZoom zc))) eqn:E1;
    [|left; reflexivity].
  destruct (ge (read (currentScale zc)) (read (maxZoom zc))) eqn:E2;
    [|right; reflexivity].
  destruct (not_below_and_above _ _ _ Hlt E1 E2).
Qed.

Lemma buttons_not_both_disabled_witness :
  disabled_at (controlsElement (checkButtonEnablement Scenario.started))
    Scenario.zoom_out_button = Some false \/
  disabled_at (controlsElement (checkButtonEnablement Scenario.started))
    Scenario.zoom_in_button = Some false.
Proof.
  apply (buttons_not_both_disabled Scenario.started
           Scenario.zoom_out_button Scenario.zoom_in_button);
    [vm_compute; reflexivity .. | discriminate].
Defined.

(** ** The bounds *)

(** X6.  Whatever the options, the bounds [init] stores are never NaN
    and never fractional: the lower one is a non-negative integer or
    [+Infinity], the upper one an integer or an infinity; and they stay
    so through all later updates. *)
Theorem init_bounds_are_integers (currentScale : value)
    (options : option Options.t) (zc : t) (scales : list value) :
  let zc' := after_updates scales (instance_of (init currentScale options zc)) in
  exists lo hi,
    minZoom zc' = Some lo /\ maxZoom zc' = Some hi /\
    integral_or_infinite lo = true /\ le pos_zero lo = true /\
    integral_or_infinite hi = true.
Proof.
  intros zc'. subst zc'.
  destruct (after_updates_bounds scales
              (instance_of (init currentScale options zc))) as (-> & ->).
  destruct (init_bounds currentScale options zc) as (-> & ->).
  set (o := default Options.empty options).
  exists (stored_minZoom o), (stored_maxZoom o).
  split; [reflexivity|]. split; [reflexivity|].
  pose proof (validated_minZoom_finite o) as Hfin.
  destruct (Math_max_zero_signed _ Hfin) as (Hfin' & Hs).
  split; [|split].
  - apply Math_round_integral.
    eapply signed_not_nan, mul_hundred_signed, Hfin'.
  - apply signed_false_nonneg, stored_minZoom_signed.
  - apply Math_round_integral. unfold validated_maxZoom, validateZoom.
    destruct (or_default (VNumber POSITIVE_INFINITY) (Options.maxZoom o))
      as [| |b|x|s|ob]; try discriminate.
    simpl. destruct (nativeIsFinite x) eqn:Hx; [|discriminate].
    eapply signed_not_nan, mul_hundred_signed, Hx.
Qed.

(** X7.  A finite [minZoom] that is zero or negative gives the lower
    bound [0], as an absent one does. *)
Theorem nonpositive_minZoom_is_zero (x : number) (currentScale : value)
    (o : Options.t) (zc : t) :
  Options.minZoom o = VNumber x ->
  nativeIsFinite x = true ->
  le x pos_zero = true ->
  minZoom (instance_of (init currentScale (Some o) zc)) = Some pos_zero.
Proof.
  intros Ho Hfin Hle.
  destruct (init_bounds currentScale (Some o) zc) as (-> & _).
  simpl default. unfold stored_minZoom, validated_minZoom. rewrite Ho.
  simpl. rewrite Hfin.
  destruct x as [[]| | |[] m e]; try discriminate; reflexivity.
Qed.

Lemma nonpositive_minZoom_is_zero_witness :
  minZoom (instance_of (init (VNumber Scenario.one)
                          (Some (Scenario.number_options
                                   (VNumber Scenario.minus_half)
                                   (VNumber Scenario.two)))
                          Scenario.fresh))
  = Some pos_zero.
Proof.
  apply (nonpositive_minZoom_is_zero Scenario.minus_half); reflexivity.
Defined.

(** ** Larger scales *)

(** X8.  The percentage grows with the scale: of two finite scales that
    are not negative, the larger one is stored as the larger or the same
    percentage. *)
Theorem percentage_monotone (x y : number) (zc zc' : t) :
  is_number x = true -> is_number y = true ->
  nativeIsFinite x = true -> nativeIsFinite y = true ->
  le pos_zero x = true -> le x y = true ->
  le (read (currentScale (instance_of (setCurrentScale (VNumber x) zc))))
     (read (currentScale (instance_of (setCurrentScale (VNumber y) zc'))))
  = true.
Proof.
  intros Vx Vy Fx Fy H0 Hxy.
  rewrite !setCurrentScale_currentScale, Fx, Fy. simpl read.
  assert (Nx : is_nonneg x = true)
    by (destruct x as [s|[]| |[] m e]; try discriminate; reflexivity).
  apply percent_le; try assumption. eapply le_nonneg; eassumption.
Qed.

Lemma percentage_monotone_witness :
  le (read (currentScale
              (instance_of (setCurrentScale (VNumber Scenario.quarter)
                              Scenario.started))))
     (read (currentScale
              (instance_of (setCurrentScale (VNumber Scenario.half)
                              Scenario.started_default))))
  = true.
Proof.
  apply (percentage_monotone Scenario.quarter Scenario.half); reflexivity.
Defined.

(** X9.  On the same instance, a zoom-in button that a non-negative
    scale disables is disabled by every larger scale, and a zoom-out
    button that a scale disables is disabled by every smaller
    non-negative one.  Both scales find the same two buttons. *)
Theorem buttons_monotone (x y : number) (zc zcx zcy : t) (po pi : path) :
  is_number x = true -> is_number y = true ->
  nativeIsFinite x = true -> nativeIsFinite y = true ->
  le pos_zero x = true -> le x y = true ->
  setCurrentScale (VNumber x) zc = Normal zcx ->
  setCurrentScale (VNumber y) zc = Normal zcy ->
  querySelector (controlsElement zcx) CLASS_ZOOM_OUT_BUTTON = Some po ->
  querySelector (controlsElement zcx) CLASS_ZOOM_IN_BUTTON = Some pi ->
  po <> pi ->
  querySelector (controlsElement zcy) CLASS_ZOOM_OUT_BUTTON = Some po /\
  querySelector (controlsElement zcy) CLASS_ZOOM_IN_BUTTON = Some pi /\
  (disabled_at (controlsElement zcx) pi = Some true ->
   disabled_at (controlsElement zcy) pi = Some true) /\
  (disabled_at (controlsElement zcy) po = Some true ->
   disabled_at (controlsElement zcx) po = Some true).
Proof.
  intros Vx Vy Fx Fy H0 Hxy Hx Hy Ho Hi Hne.
  destruct (setCurrentScale_Normal (VNumber x) _ _ Fx Hx) as (x' & p & [= <-] & Hp & ->).
  destruct (setCurrentScale_Normal (VNumber y) _ _ Fy Hy) as (y' & p' & [= <-] & Hp' & ->).
  rewrite Hp in Hp'. injection Hp' as <-.
  set (cx := Math_round (mul x hundred)) in *.
  set (cy := Math_round (mul y hundred)) in *.
  set (zx := modify _ p (set_currentScale cx zc)) in *.
  set (zy := modify _ p (set_currentScale cy zc)) in *.
  rewrite querySelector_check in Ho, Hi.
  assert (Hsame : forall cls,
            querySelector (controlsElement zy) cls
            = querySelector (controlsElement zx) cls).
  { intros cls. subst zx zy. rewrite !controlsElement_modify.
    apply querySelector_set_textContent. }
  assert (Ho' := Ho). assert (Hi' := Hi).
  rewrite <- Hsame in Ho', Hi'.
  rewrite !querySelector_check.
  split; [exact Ho' | split; [exact Hi'|]].
  destruct (check_sets_buttons zx po pi Ho Hi Hne) as (Hxo & Hxi).
  destruct (check_sets_buttons zy po pi Ho' Hi' Hne) as (Hyo & Hyi).
  cbv zeta in Hxo, Hxi, Hyo, Hyi.
  rewrite Hxo, Hxi, Hyo, Hyi.
  change (read (currentScale zx)) with cx.
  change (read (currentScale zy)) with cy.
  change (minZoom zx) with (minZoom zc). change (minZoom zy) with (minZoom zc).
  change (maxZoom zx) with (maxZoom zc). change (maxZoom zy) with (maxZoom zc).
  assert (Nx : is_nonneg x = true)
    by (destruct x as [s|[]| |[] m e]; try discriminate; reflexivity).
  assert (Hc : le cx cy = true).
  { apply percent_le; try assumption. eapply le_nonneg; eassumption. }
  split.
  - intros [= H]. f_equal. rewrite ge_le in *. eapply le_trans; eassumption.
  - intros [= H]. f_equal. eapply le_trans; eassumption.
Qed.

Lemma buttons_monotone_witness :
  let zcy := instance_of (setCurrentScale (VNumber (of_Z 3)) Scenario.started) in
  querySelector (controlsElement zcy) CLASS_ZOOM_OUT_BUTTON
    = Some Scenario.zoom_out_button /\
  querySelector (controlsElement zcy) CLASS_ZOOM_IN_BUTTON
    = Some Scenario.zoom_in_button /\
  disabled_at (controlsElement zcy) Scenario.zoom_in_button = Some true.
Proof.
  destruct (buttons_monotone Scenario.two (of_Z 3) Scenario.started
              (instance_of (setCurrentScale (VNumber Scenario.two) Scenario.started))
              (instance_of (setCurrentScale (VNumber (of_Z 3)) Scenario.started))
              Scenario.zoom_out_button Scenario.zoom_in_button)
    as (Ho & Hi & Hin & _); try (vm_compute; reflexivity); [discriminate|].
  split; [exact Ho | split; [exact Hi|]].
  apply Hin. vm_compute; reflexivity.
Defined.

(** X10.  A positive finite scale whose product with [100] is too large
    for a Number is stored as [+Infinity] and shown as [Infinity%], and
    it disables the zoom-in button whatever upper bound [init] was given.
    This holds on every initialized instance, after any updates. *)
Theorem overflow_disables_zoom_in (x : number) (currentScale : value)
    (options : option Options.t) (scales : list value) (zc : t)
    (e : element) (cs : list node) :
  controlsElement zc = Element e cs ->
  nativeIsFinite x = true ->
  mul x hundred = POSITIVE_INFINITY ->
  let zc1 := after_updates scales (instance_of (init currentScale options zc)) in
  exists zc2 p,
    setCurrentScale (VNumber x) zc1 = Normal zc2 /\
    ZoomControls.currentScale zc2 = Some POSITIVE_INFINITY /\
    currentScaleElement zc2 = Ref p /\
    text_at (controlsElement zc2) p = Some "Infinity%" /\
    forall pi,
      querySelector (controlsElement zc2) CLASS_ZOOM_IN_BUTTON = Some pi ->
      disabled_at (controlsElement zc2) pi = Some true.
Proof.
  intros Hroot Hfin Hmul zc1.
  assert (Hl : label_is_first zc1).
  { apply after_updates_label_is_first.
    eapply init_label_is_first, Hroot. }
  destruct (label_is_first_cached _ Hl) as (p & el & Hp & Hel).
  pose proof (setCurrentScale_runs x zc1 p Hfin Hp) as Hrun.
  rewrite Hmul in Hrun. change (Math_round POSITIVE_INFINITY)
    with POSITIVE_INFINITY in Hrun.
  change (Number_toString POSITIVE_INFINITY +:+ "%") with "Infinity%" in Hrun.
  set (z := modify (set_textContent "Infinity%") p
              (set_currentScale POSITIVE_INFINITY zc1)) in Hrun.
  exists (checkButtonEnablement z), p. split; [exact Hrun|].
  destruct (check_fields z) as (-> & _ & _ & ->).
  split; [reflexivity|]. split; [exact Hp|]. split.
  - rewrite text_at_check. subst z. rewrite controlsElement_modify.
    unfold element_at in Hel.
    change (controlsElement (set_currentScale POSITIVE_INFINITY zc1))
      with (controlsElement zc1).
    destruct (get (controlsElement zc1) p) as [c|] eqn:Hc; [|discriminate].
    eapply text_at_set_textContent, Hc.
  - intros pi Hpi. rewrite querySelector_check in Hpi.
    rewrite (check_sets_zoom_in z pi Hpi). f_equal.
    change (read (ZoomControls.currentScale z)) with POSITIVE_INFINITY.
    change (maxZoom z) with (maxZoom zc1).
    destruct (init_bounds_are_numbers currentScale options zc scales)
      as (hi & Hhi & Hn).
    fold zc1 in Hhi. rewrite Hhi. apply ge_positive_infinity, Hn.
Qed.

Lemma overflow_disables_zoom_in_witness :
  exists zc2 p,
    setCurrentScale (VNumber Scenario.huge)
      (after_updates [VNumber Scenario.two]
         (instance_of (init (VNumber Scenario.half)
                         (Some (Scenario.number_options (VNumber Scenario.quarter)
                                  (VNumber Scenario.two)))
                         Scenario.fresh))) = Normal zc2 /\
    ZoomControls.currentScale zc2 = Some POSITIVE_INFINITY /\
    currentScaleElement zc2 = Ref p /\
    text_at (controlsElement zc2) p = Some "Infinity%" /\
    forall pi,
      querySelector (controlsElement zc2) CLASS_ZOOM_IN_BUTTON = Some pi ->
      disabled_at (controlsElement zc2) pi = Some true.
Proof.
  apply (overflow_disables_zoom_in Scenario.huge (VNumber Scenario.half)
           (Some (Scenario.number_options (VNumber Scenario.quarter)
                    (VNumber Scenario.two)))
           [VNumber Scenario.two] Scenario.fresh
           (Controls.new_element "div" "bp-controls" [] None) []);
    reflexivity.
Defined.

(** ** What [init] builds *)

(** X11.  On every host whose root is an element, [init] caches as the
    label the first element of the tree, in document order, that carries
    the label's class, and that stays true through all later updates. *)
Theorem label_is_first_match (currentScale : value)
    (options : option Options.t) (scales : list value) (zc : t)
    (e : element) (cs : list node) :
  controlsElement zc = Element e cs ->
  let zc' := after_updates scales (instance_of (init currentScale options zc)) in
  exists p,
    currentScaleElement zc' = Ref p /\
    querySelector (controlsElement zc') CLASS_ZOOM_CURRENT_SCALE = Some p.
Proof.
  intros Hroot zc'. apply after_updates_label_is_first.
  eapply init_label_is_first, Hroot.
Qed.

Lemma label_is_first_match_witness :
  exists p,
    currentScaleElement
      (after_updates [VNumber Scenario.two; VNull]
         (instance_of (init (VNumber Scenario.one) None Scenario.fresh))) = Ref p /\
    querySelector
      (controlsElement
         (after_updates [VNumber Scenario.two; VNull]
            (instance_of (init (VNumber Scenario.one) None Scenario.fresh))))
      CLASS_ZOOM_CURRENT_SCALE = Some p.
Proof.
  apply (label_is_first_match (VNumber Scenario.one) None
           [VNumber Scenario.two; VNull] Scenario.fresh
           (Controls.new_element "div" "bp-controls" [] None) []).
  reflexivity.
Defined.

(** X12.  When the host's tree already holds an element with the label's
    class, as it does after an earlier [init], [init] adds its group all
    the same but caches the element that was there: a finite scale is
    written to that one, and the label of the new group keeps the text
    [100%] of its markup. *)
Theorem init_again_keeps_first_label (scale : value)
    (options : option Options.t) (zc : t) (p : path) :
  querySelector (controlsElement zc) CLASS_ZOOM_CURRENT_SCALE = Some p ->
  let n := length (children_of (controlsElement zc)) in
  exists zc',
    init scale options zc = Normal zc' /\
    currentScaleElement zc' = Ref p /\
    length (children_of (controlsElement zc')) = S n /\
    text_at (controlsElement zc') [n; 1%nat] = Some "100%" /\
    forall x, scale = VNumber x -> nativeIsFinite x = true ->
      text_at (controlsElement zc') p
      = Some (Number_toString (Math_round (mul x hundred)) +:+ "%").
Proof.
  intros Hq n.
  destruct (controlsElement zc) as [t|e cs] eqn:Hroot; [discriminate|].
  simpl in n, Hq.
  rewrite (init_unfold _ _ _ _ _ Hroot).
  set (o := default Options.empty options).
  assert (Hfind : find_first (has_class CLASS_ZOOM_CURRENT_SCALE)
                    (cs ++ [zoom_group o]) 0 = Some p)
    by (rewrite find_first_app, Hq; reflexivity).
  assert (Hp : currentScaleElement (built o e cs zc) = Ref p)
    by (unfold built; simpl; rewrite Hfind; reflexivity).
  assert (Htree : controlsElement (built o e cs zc) = Element e (cs ++ [zoom_group o]))
    by reflexivity.
  destruct (find_first_inv _ _ _ _ Hq) as (j & q & c & -> & Hc & _).
  simpl Nat.add in *.
  assert (Hj : (j < length cs)%nat) by (eapply lookup_lt_Some; eassumption).
  assert (Hlabel : text_at (Element e (cs ++ [zoom_group o])) [n; 1%nat]
                   = Some "100%").
  { unfold text_at. subst n. rewrite get_group. reflexivity. }
  destruct (isFinite scale) eqn:Hfin.
  - destruct scale as [| |b|x|s|ob]; try discriminate.
    rewrite (setCurrentScale_runs x _ (j :: q) Hfin Hp).
    eexists. split; [reflexivity|].
    set (z := modify _ (j :: q) _).
    destruct (check_fields z) as (_ & _ & _ & ->).
    split; [exact Hp|].
    assert (Hz : controlsElement z
                 = update (set_textContent
                             (Number_toString (Math_round (mul x hundred)) +:+ "%"))
                          (Element e (cs ++ [zoom_group o])) (j :: q))
      by reflexivity.
    split; [|split].
    + rewrite <- length_children_enable_all, enable_all_check,
        length_children_enable_all, Hz. simpl update.
      destruct ((cs ++ [zoom_group o]) !! j); simpl;
        rewrite ?length_insert, length_app; simpl; subst n; lia.
    + rewrite text_at_check, Hz. unfold text_at. subst n.
      rewrite get_group_update by exact Hj. reflexivity.
    + intros x' [= <-] _. rewrite text_at_check, Hz.
      assert (Hfound : querySelector (controlsElement (built o e cs zc))
                         CLASS_ZOOM_CURRENT_SCALE = Some (j :: q))
        by exact Hfind.
      destruct (querySelector_sound _ _ _ Hfound) as (el & Hel & _).
      unfold element_at in Hel. rewrite Htree in Hel.
      destruct (get (Element e (cs ++ [zoom_group o])) (j :: q)) as [c'|] eqn:Hc';
        [|discriminate].
      eapply text_at_set_textContent, Hc'.
  - rewrite (setCurrentScale_skips _ _ Hfin).
    eexists. split; [reflexivity|]. split; [exact Hp|].
    rewrite Htree. split; [|split].
    + simpl. rewrite length_app. simpl. subst n. lia.
    + exact Hlabel.
    + intros x -> Hx. simpl in Hfin. congruence.
Qed.

Lemma init_again_keeps_first_label_witness :
  exists zc',
    init (VNumber Scenario.two) None Scenario.started = Normal zc' /\
    currentScaleElement zc' = Ref Scenario.scale_label /\
    length (children_of (controlsElement zc')) = 2%nat /\
    text_at (controlsElement zc') [1%nat; 1%nat] = Some "100%" /\
    text_at (controlsElement zc') Scenario.scale_label = Some "200%".
Proof.
  destruct (init_again_keeps_first_label (VNumber Scenario.two) None
              Scenario.started Scenario.scale_label)
    as (zc' & Hinit & Href & Hlen & Hnew & Hold); [reflexivity|].
  exists zc'. repeat (split; [assumption|]).
  apply (Hold Scenario.two); reflexivity.
Defined.

(** X13.  [init] with a scale that is not a finite number still stores
    the bounds, adds the group and caches the label, but shows nothing:
    the current scale is left as it was, the label of the new group reads
    [100%] and both new buttons are enabled. *)
Theorem init_ignores_invalid_scale (scale : value)
    (options : option Options.t) (zc : t) (e : element) (cs : list node) :
  isFinite scale = false ->
  controlsElement zc = Element e cs ->
  let o := default Options.empty options in
  let n := length cs in
  exists zc',
    init scale options zc = Normal zc' /\
    currentScale zc' = currentScale zc /\
    minZoom zc' = Some (stored_minZoom o) /\
    maxZoom zc' = Some (stored_maxZoom o) /\
    controlsElement zc' = Element e (cs ++ [zoom_group o]) /\
    text_at (controlsElement zc') [n; 1%nat] = Some "100%" /\
    disabled_at (controlsElement zc') [n; 0%nat] = Some false /\
    disabled_at (controlsElement zc') [n; 2%nat] = Some false.
Proof.
  intros Hfin Hroot o n.
  rewrite (init_unfold _ _ _ _ _ Hroot), (setCurrentScale_skips _ _ Hfin).
  eexists. split; [reflexivity|]. fold o.
  repeat (split; [reflexivity|]).
  change (controlsElement (built o e cs zc)) with (Element e (cs ++ [zoom_group o])).
  unfold text_at, disabled_at, element_at. subst n. rewrite !get_group.
  repeat split.
Qed.

Lemma init_ignores_invalid_scale_witness :
  exists zc',
    init (VString "1") None Scenario.fresh = Normal zc' /\
    currentScale zc' = None /\
    minZoom zc' = Some pos_zero /\
    maxZoom zc' = Some POSITIVE_INFINITY /\
    controlsElement zc'
      = Element (Controls.new_element "div" "bp-controls" [] None)
                ([] ++ [zoom_group Options.empty]) /\
    text_at (controlsElement zc') [0%nat; 1%nat] = Some "100%" /\
    disabled_at (controlsElement zc') [0%nat; 0%nat] = Some false /\
    disabled_at (controlsElement zc') [0%nat; 2%nat] = Some false.
Proof.
  apply (init_ignores_invalid_scale (VString "1") None Scenario.fresh
           (Controls.new_element "div" "bp-controls" [] None) []);
    reflexivity.
Defined.

(** X14.  What [init] guarantees on a control bar that holds no zoom
    control yet.  For every finite scale and all options whose
    [zoomOutClassName] names neither the label's nor the zoom-in
    button's class, [init] returns with the three controls as the last
    group of the bar, the label reading the rounded percentage, the
    zoom-out button disabled exactly when the percentage is at most the
    stored lower bound and the zoom-in button exactly when it is at
    least the stored upper bound. *)
Theorem init_displays_scale (x : number) (options : option Options.t)
    (zc : t) (e : element) (cs : list node) :
  let o := default Options.empty options in
  let extra := tokens_from EmptyString (default "" (Options.zoomOutClassName o)) in
  let n := length cs in
  let c := Math_round (mul x hundred) in
  nativeIsFinite x = true ->
  controlsElement zc = Element e cs ->
  querySelector (controlsElement zc) CLASS_ZOOM_OUT_BUTTON = None ->
  querySelector (controlsElement zc) CLASS_ZOOM_CURRENT_SCALE = None ->
  querySelector (controlsElement zc) CLASS_ZOOM_IN_BUTTON = None ->
  existsb (String.eqb CLASS_ZOOM_CURRENT_SCALE) extra = false ->
  existsb (String.eqb CLASS_ZOOM_IN_BUTTON) extra = false ->
  exists zc',
    init (VNumber x) options zc = Normal zc' /\
    currentScale zc' = Some c /\
    currentScaleElement zc' = Ref [n; 1%nat] /\
    querySelector (controlsElement zc') CLASS_ZOOM_OUT_BUTTON = Some [n; 0%nat] /\
    querySelector (controlsElement zc') CLASS_ZOOM_IN_BUTTON = Some [n; 2%nat] /\
    text_at (controlsElement zc') [n; 1%nat] = Some (Number_toString c +:+ "%") /\
    disabled_at (controlsElement zc') [n; 0%nat] = Some (le c (stored_minZoom o)) /\
    disabled_at (controlsElement zc') [n; 2%nat] = Some (ge c (stored_maxZoom o)).
Proof.
  intros o extra n c Hfin Hroot Hout Hlab Hin Hxl Hxi.
  rewrite Hroot in Hout, Hlab, Hin. simpl in Hout, Hlab, Hin.
  rewrite (init_unfold _ _ _ _ _ Hroot). fold o.
  assert (Hp : currentScaleElement (built o e cs zc) = Ref [n; 1%nat]).
  { unfold built. simpl.
    change (find_first (has_class CLASS_ZOOM_CURRENT_SCALE) (cs ++ [zoom_group o]) 0)
      with (querySelector (Element e (cs ++ [zoom_group o])) CLASS_ZOOM_CURRENT_SCALE).
    rewrite (querySelector_group _ _ _ _ Hlab), zoom_group_markup.
    rewrite (find_in_zoom_group _ o _ false true
               (existsb (String.eqb CLASS_ZOOM_CURRENT_SCALE)
                  (tokens_from EmptyString
                     (default "" (Options.zoomInClassName o)))));
      try reflexivity.
    intros tag attrs h. exact Hxl. }
  rewrite (setCurrentScale_runs x _ _ Hfin Hp). fold c.
  set (text := Number_toString c +:+ "%").
  set (z := modify (set_textContent text) [n; 1%nat]
              (set_currentScale c (built o e cs zc))).
  assert (Hz : controlsElement z
               = Element e (cs ++ [zoom_group_with o
                    (match text with EmptyString => [] | _ => [Text text] end)])).
  { subst z. rewrite controlsElement_modify.
    change (controlsElement (set_currentScale c (built o e cs zc)))
      with (Element e (cs ++ [zoom_group o])).
    subst n. rewrite update_group, zoom_group_text. reflexivity. }
  assert (Ho : querySelector (controlsElement z) CLASS_ZOOM_OUT_BUTTON
               = Some [n; 0%nat]).
  { rewrite Hz, (querySelector_group _ _ _ _ Hout).
    rewrite (find_in_zoom_group _ o _ true false
               (existsb (String.eqb CLASS_ZOOM_OUT_BUTTON)
                  (tokens_from EmptyString
                     (default "" (Options.zoomInClassName o)))));
      try reflexivity.
    apply no_element_in_text. }
  assert (Hi : querySelector (controlsElement z) CLASS_ZOOM_IN_BUTTON
               = Some [n; 2%nat]).
  { rewrite Hz, (querySelector_group _ _ _ _ Hin).
    rewrite (find_in_zoom_group _ o _ false false true); try reflexivity.
    - apply no_element_in_text.
    - intros tag attrs h. exact Hxi. }
  exists (checkButtonEnablement z). split; [reflexivity|].
  destruct (check_fields z) as (-> & _ & _ & ->).
  split; [reflexivity|]. split; [exact Hp|].
  rewrite !querySelector_check. split; [exact Ho|]. split; [exact Hi|].
  split.
  - rewrite text_at_check. subst z. rewrite controlsElement_modify.
    apply (text_at_set_textContent _ _ _
             (Element (Controls.new_element "div" CLASS_ZOOM_CURRENT_SCALE
                         [("aria-label", "zoom current scale");
                          ("title", "zoom current scale")] None)
                      current_zoom_markup)).
    change (controlsElement (set_currentScale c (built o e cs zc)))
      with (Element e (cs ++ [zoom_group o])).
    subst n. rewrite get_group. reflexivity.
  - apply (check_sets_buttons z [n; 0%nat] [n; 2%nat] Ho Hi). discriminate.
Qed.

Lemma init_displays_scale_witness :
  exists zc',
    init (VNumber Scenario.quarter)
         (Some (Scenario.number_options (VNumber Scenario.quarter)
                  (VNumber Scenario.two)))
         Scenario.fresh = Normal zc' /\
    currentScale zc' = Some (of_Z 25) /\
    currentScaleElement zc' = Ref [0%nat; 1%nat] /\
    querySelector (controlsElement zc') CLASS_ZOOM_OUT_BUTTON
      = Some [0%nat; 0%nat] /\
    querySelector (controlsElement zc') CLASS_ZOOM_IN_BUTTON
      = Some [0%nat; 2%nat] /\
    text_at (controlsElement zc') [0%nat; 1%nat] = Some "25%" /\
    disabled_at (controlsElement zc') [0%nat; 0%nat] = Some true /\
    disabled_at (controlsElement zc') [0%nat; 2%nat] = Some false.
Proof.
  apply (init_displays_scale Scenario.quarter
           (Some (Scenario.number_options (VNumber Scenario.quarter)
                    (VNumber Scenario.two)))
           Scenario.fresh
           (Controls.new_element "div" "bp-controls" [] None) []);
    reflexivity.
Defined.

(** X15.  The class names of the options are put into the same class
    attribute the widget later selects by.  When [zoomOutClassName]
    names the zoom-in button's class, the zoom-in selector finds the
    zoom-out button, which comes first: that button ends up with the
    zoom-in state, and the zoom-in button itself is left enabled. *)
Theorem zoom_in_class_on_zoom_out_button (x : number)
    (options : option Options.t) (zc : t) (e : element) (cs : list node) :
  let o := default Options.empty options in
  let extra := tokens_from EmptyString (default "" (Options.zoomOutClassName o)) in
  let n := length cs in
  let c := Math_round (mul x hundred) in
  nativeIsFinite x = true ->
  controlsElement zc = Element e cs ->
  querySelector (controlsElement zc) CLASS_ZOOM_OUT_BUTTON = None ->
  querySelector (controlsElement zc) CLASS_ZOOM_CURRENT_SCALE = None ->
  querySelector (controlsElement zc) CLASS_ZOOM_IN_BUTTON = None ->
  existsb (String.eqb CLASS_ZOOM_CURRENT_SCALE) extra = false ->
  existsb (String.eqb CLASS_ZOOM_IN_BUTTON) extra = true ->
  exists zc',
    init (VNumber x) options zc = Normal zc' /\
    querySelector (controlsElement zc') CLASS_ZOOM_OUT_BUTTON = Some [n; 0%nat] /\
    querySelector (controlsElement zc') CLASS_ZOOM_IN_BUTTON = Some [n; 0%nat] /\
    disabled_at (controlsElement zc') [n; 0%nat] = Some (ge c (stored_maxZoom o)) /\
    disabled_at (controlsElement zc') [n; 2%nat] = Some false.
Proof.
  intros o extra n c Hfin Hroot Hout Hlab Hin Hxl Hxi.
  rewrite Hroot in Hout, Hlab, Hin. simpl in Hout, Hlab, Hin.
  rewrite (init_unfold _ _ _ _ _ Hroot). fold o.
  assert (Hp : currentScaleElement (built o e cs zc) = Ref [n; 1%nat]).
  { unfold built. simpl.
    change (find_first (has_class CLASS_ZOOM_CURRENT_SCALE) (cs ++ [zoom_group o]) 0)
      with (querySelector (Element e (cs ++ [zoom_group o])) CLASS_ZOOM_CURRENT_SCALE).
    rewrite (querySelector_group _ _ _ _ Hlab), zoom_group_markup.
    rewrite (find_in_zoom_group _ o _ false true
               (existsb (String.eqb CLASS_ZOOM_CURRENT_SCALE)
                  (tokens_from EmptyString
                     (default "" (Options.zoomInClassName o)))));
      try reflexivity.
    intros tag attrs h. exact Hxl. }
  rewrite (setCurrentScale_runs x _ _ Hfin Hp). fold c.
  set (text := Number_toString c +:+ "%").
  set (z := modify (set_textContent text) [n; 1%nat]
              (set_currentScale c (built o e cs zc))).
  assert (Hz : controlsElement z
               = Element e (cs ++ [zoom_group_with o
                    (match text with EmptyString => [] | _ => [Text text] end)])).
  { subst z. rewrite controlsElement_modify.
    change (controlsElement (set_currentScale c (built o e cs zc)))
      with (Element e (cs ++ [zoom_group o])).
    subst n. rewrite update_group, zoom_group_text. reflexivity. }
  assert (Ho : querySelector (controlsElement z) CLASS_ZOOM_OUT_BUTTON
               = Some [n; 0%nat]).
  { rewrite Hz, (querySelector_group _ _ _ _ Hout).
    rewrite (find_in_zoom_group _ o _ true false
               (existsb (String.eqb CLASS_ZOOM_OUT_BUTTON)
                  (tokens_from EmptyString
                     (default "" (Options.zoomInClassName o)))));
      try reflexivity.
    apply no_element_in_text. }
  assert (Hi : querySelector (controlsElement z) CLASS_ZOOM_IN_BUTTON
               = Some [n; 0%nat]).
  { rewrite Hz, (querySelector_group _ _ _ _ Hin).
    rewrite (find_in_zoom_group _ o _ true false true); try reflexivity.
    - apply no_element_in_text.
    - intros tag attrs h. exact Hxi. }
  exists (checkButtonEnablement z). split; [reflexivity|].
  rewrite !querySelector_check. split; [exact Ho|]. split; [exact Hi|].
  split.
  - apply (check_sets_zoom_in z [n; 0%nat] Hi).
  - rewrite controlsElement_check. cbv zeta. rewrite Ho, Hi.
    unfold disabled_at. rewrite !element_at_set_disabled.
    rewrite !decide_False by discriminate.
    rewrite Hz. unfold element_at. subst n. rewrite get_group. reflexivity.
Qed.

Lemma zoom_in_class_on_zoom_out_button_witness :
  exists zc',
    init (VNumber Scenario.two)
         (Some {| Options.zoomOutClassName := Some "left bp-zoom-in-btn";
                  Options.zoomInClassName := None;
                  Options.minZoom := VNumber Scenario.quarter;
                  Options.maxZoom := VNumber Scenario.two;
                  Options.onZoomIn := None; Options.onZoomOut := None |})
         Scenario.fresh = Normal zc' /\
    querySelector (controlsElement zc') CLASS_ZOOM_OUT_BUTTON
      = Some [0%nat; 0%nat] /\
    querySelector (controlsElement zc') CLASS_ZOOM_IN_BUTTON
      = Some [0%nat; 0%nat] /\
    disabled_at (controlsElement zc') [0%nat; 0%nat] = Some true /\
    disabled_at (controlsElement zc') [0%nat; 2%nat] = Some false.
Proof.
  apply (zoom_in_class_on_zoom_out_button Scenario.two
           (Some {| Options.zoomOutClassName := Some "left bp-zoom-in-btn";
                    Options.zoomInClassName := None;
                    Options.minZoom := VNumber Scenario.quarter;
                    Options.maxZoom := VNumber Scenario.two;
                    Options.onZoomIn := None; Options.onZoomOut := None |})
           Scenario.fresh
           (Controls.new_element "div" "bp-controls" [] None) []);
    reflexivity.
Defined.

(** X16.  A scale that is a whole number [k >= 0] is shown exactly: when
    [100 k] is below [2^53], the current scale becomes the integer
    [100 k], without any rounding, and the label reads its decimal
    digits followed by a percent sign. *)
Theorem whole_scale_is_exact (x : number) (k : Z) (zc : t) (p : path)
    (el : element) :
  is_number x = true -> to_Z x = Some k -> 0 <= k -> 100 * k < 2 ^ prec ->
  currentScaleElement zc = Ref p ->
  element_at (controlsElement zc) p = Some el ->
  exists zc' c,
    setCurrentScale (VNumber x) zc = Normal zc' /\
    currentScale zc' = Some c /\
    to_Z c = Some (100 * k) /\
    text_at (controlsElement zc') p = Some (decimal (100 * k) +:+ "%").
Proof.
  intros Vx Hk Hk0 Hlt Hp Hel.
  destruct (percent_whole x k Vx Hk Hk0 Hlt) as (Fx & Vc & Hc).
  rewrite (setCurrentScale_runs x zc p Fx Hp).
  set (c := Math_round (mul x hundred)) in *.
  set (z := modify _ p (set_currentScale c zc)).
  exists (checkButtonEnablement z), c. split; [reflexivity|].
  destruct (check_fields z) as (-> & _).
  split; [reflexivity|]. split; [exact Hc|].
  rewrite text_at_check. subst z. rewrite controlsElement_modify.
  change (controlsElement (set_currentScale c zc)) with (controlsElement zc).
  unfold element_at in Hel.
  destruct (get (controlsElement zc) p) as [n|] eqn:Hn; [|discriminate].
  rewrite (text_at_set_textContent _ _ _ _ Hn).
  rewrite (Number_toString_integer c (100 * k) Vc Hc) by lia. reflexivity.
Qed.

Lemma whole_scale_is_exact_witness :
  exists zc' c,
    setCurrentScale (VNumber Scenario.two) Scenario.started = Normal zc' /\
    currentScale zc' = Some c /\
    to_Z c = Some (100 * 2) /\
    text_at (controlsElement zc') Scenario.scale_label = Some "200%".
Proof.
  apply (whole_scale_is_exact Scenario.two 2 Scenario.started Scenario.scale_label
           (Controls.new_element "div" CLASS_ZOOM_CURRENT_SCALE
              [("aria-label", "zoom current scale"); ("title", "zoom current scale")]
              None));
    try reflexivity; easy.
Defined.

(** X17.  A negative finite scale, or [-0], disables the element the
    zoom-out selector finds on every initialized instance, whatever
    [minZoom] was, provided the zoom-in selector does not find that same
    element: the lower bound [init] stores is never below zero.  An
    element both selectors find has the zoom-in state instead. *)
Theorem negative_scale_disables_zoom_out (x : number) (currentScale : value)
    (options : option Options.t) (scales : list value) (zc : t)
    (e : element) (cs : list node) :
  controlsElement zc = Element e cs ->
  nativeIsFinite x = true ->
  sign_of x = true ->
  let zc1 := after_updates scales (instance_of (init currentScale options zc)) in
  exists zc2,
    setCurrentScale (VNumber x) zc1 = Normal zc2 /\
    (forall po : path,
       querySelector (controlsElement zc2) CLASS_ZOOM_OUT_BUTTON = Some po ->
       querySelector (controlsElement zc2) CLASS_ZOOM_IN_BUTTON <> Some po ->
       disabled_at (controlsElement zc2) po = Some true) /\
    (forall po : path,
       querySelector (controlsElement zc2) CLASS_ZOOM_OUT_BUTTON = Some po ->
       querySelector (controlsElement zc2) CLASS_ZOOM_IN_BUTTON = Some po ->
       disabled_at (controlsElement zc2) po
       = Some (ge (Math_round (mul x hundred)) (read (maxZoom zc1)))).
Proof.
  intros Hroot Hfin Hneg zc1.
  assert (Hl : label_is_first zc1).
  { apply after_updates_label_is_first.
    eapply init_label_is_first, Hroot. }
  destruct Hl as (p & Hp & _).
  rewrite (setCurrentScale_runs x zc1 p Hfin Hp).
  set (c := Math_round (mul x hundred)).
  set (z := modify _ p (set_currentScale c zc1)).
  exists (checkButtonEnablement z). split; [reflexivity|]. split.
  - intros po Ho Hi. rewrite querySelector_check in Ho, Hi.
    rewrite (check_sets_zoom_out z po Ho Hi). f_equal.
    change (read (ZoomControls.currentScale z)) with c.
    change (minZoom z) with (minZoom zc1).
    destruct (after_updates_bounds scales
                (instance_of (init currentScale options zc))) as (Hlo & _).
    fold zc1 in Hlo. rewrite Hlo.
    destruct (init_bounds currentScale options zc) as (-> & _). simpl read.
    pose proof (stored_minZoom_signed (default Options.empty options)) as Hs.
    assert (Hc : signed true c).
    { apply Math_round_signed. rewrite <- Hneg. apply mul_hundred_signed, Hfin. }
    destruct c as [[]|[]| |[] mc ec]; simpl in Hc; try discriminate;
      try contradiction;
      destruct (stored_minZoom (default Options.empty options))
        as [[]|[]| |[] ml el]; simpl in Hs; try discriminate; try contradiction;
      reflexivity.
  - intros po _ Hi. rewrite querySelector_check in Hi.
    apply (check_sets_zoom_in z po Hi).
Qed.

Lemma negative_scale_disables_zoom_out_witness :
  exists zc2,
    setCurrentScale (VNumber Scenario.minus_half)
      (after_updates [VNumber Scenario.two]
         (instance_of (init (VNumber Scenario.one) None Scenario.fresh)))
    = Normal zc2 /\
    disabled_at (controlsElement zc2) Scenario.zoom_out_button = Some true.
Proof.
  destruct (negative_scale_disables_zoom_out Scenario.minus_half
              (VNumber Scenario.one) None [VNumber Scenario.two] Scenario.fresh
              (Controls.new_element "div" "bp-controls" [] None) [])
    as (zc2 & Hrun & Hout & _); [reflexivity ..|].
  exists zc2. split; [exact Hrun|].
  apply (Hout Scenario.zoom_out_button).
  - vm_compute in Hrun. injection Hrun as <-. reflexivity.
  - vm_compute in Hrun. injection Hrun as <-. vm_compute. discriminate.
Defined.

(** X18.  While no finite scale has been given, [currentScale] is
    [undefined] and compares as NaN: an enablement check then enables
    both buttons, whatever the bounds are. *)
Theorem check_before_first_scale (zc : t) (po pi : path) :
  currentScale zc = None ->
  querySelector (controlsElement zc) CLASS_ZOOM_OUT_BUTTON = Some po ->
  querySelector (controlsElement zc) CLASS_ZOOM_IN_BUTTON = Some pi ->
  po <> pi ->
  disabled_at (controlsElement (checkButtonEnablement zc)) po = Some false /\
  disabled_at (controlsElement (checkButtonEnablement zc)) pi = Some false.
Proof.
  intros Hc Ho Hi Hne.
  destruct (check_sets_buttons zc po pi Ho Hi Hne) as (-> & ->).
  rewrite Hc. simpl read. rewrite le_nan_l, ge_nan_l. split; reflexivity.
Qed.

Lemma check_before_first_scale_witness :
  disabled_at (controlsElement (checkButtonEnablement Scenario.started_unscaled))
    Scenario.zoom_out_button = Some false /\
  disabled_at (controlsElement (checkButtonEnablement Scenario.started_unscaled))
    Scenario.zoom_in_button = Some false.
Proof.
  apply (check_before_first_scale Scenario.started_unscaled
           Scenario.zoom_out_button Scenario.zoom_in_button);
    [reflexivity .. | discriminate].
Defined.

(** X19.  What a finite scale leaves alone.  [setCurrentScale] keeps the
    bounds and the label reference; apart from [disabled] flags the tree
    afterwards is the tree before with the content of the label
    replaced by the text; and every element that is neither inside the
    label nor one of the two buttons found is exactly as it was. *)
Theorem setCurrentScale_frame (x : number) (zc : t) (p : path) :
  nativeIsFinite x = true ->
  currentScaleElement zc = Ref p ->
  let zc' := instance_of (setCurrentScale (VNumber x) zc) in
  let text := Number_toString (Math_round (mul x hundred)) +:+ "%" in
  minZoom zc' = minZoom zc /\ maxZoom zc' = maxZoom zc /\
  currentScaleElement zc' = Ref p /\
  enable_all (controlsElement zc')
    = enable_all (update (set_textContent text) (controlsElement zc) p) /\
  forall q : path,
    (forall r, q = p ++ r -> r = []) ->
    querySelector (controlsElement zc') CLASS_ZOOM_OUT_BUTTON <> Some q ->
    querySelector (controlsElement zc') CLASS_ZOOM_IN_BUTTON <> Some q ->
    element_at (controlsElement zc') q = element_at (controlsElement zc) q.
Proof.
  intros Hfin Hp zc' text. subst zc'.
  destruct (setCurrentScale_bounds (VNumber x) zc) as (-> & ->).
  rewrite setCurrentScale_label_ref.
  repeat (split; [reflexivity || exact Hp|]).
  rewrite (setCurrentScale_runs x zc p Hfin Hp). simpl instance_of. fold text.
  set (z := modify (set_textContent text) p
              (set_currentScale (Math_round (mul x hundred)) zc)).
  assert (Hz : controlsElement z = update (set_textContent text) (controlsElement zc) p)
    by reflexivity.
  split; [rewrite enable_all_check, Hz; reflexivity|].
  intros q Hq Ho Hi. rewrite querySelector_check in Ho, Hi.
  rewrite controlsElement_check. cbv zeta.
  destruct (querySelector (controlsElement z) CLASS_ZOOM_OUT_BUTTON) as [po|],
           (querySelector (controlsElement z) CLASS_ZOOM_IN_BUTTON) as [pi|];
    rewrite ?element_at_set_disabled;
    repeat (rewrite decide_False by congruence);
    rewrite Hz; apply element_at_set_textContent_outside, Hq.
Qed.

Lemma setCurrentScale_frame_witness :
  let zc' := instance_of (setCurrentScale (VNumber Scenario.quarter) Scenario.started) in
  minZoom zc' = minZoom Scenario.started /\
  maxZoom zc' = maxZoom Scenario.started /\
  currentScaleElement zc' = Ref Scenario.scale_label /\
  element_at (controlsElement zc') [0%nat]
    = element_at (controlsElement Scenario.started) [0%nat].
Proof.
  destruct (setCurrentScale_frame Scenario.quarter Scenario.started
              Scenario.scale_label)
    as (Hlo & Hhi & Href & _ & Hrest); [reflexivity ..|].
  repeat (split; [assumption|]).
  apply Hrest.
  - intros r H. discriminate H.
  - vm_compute. discriminate.
  - vm_compute. discriminate.
Defined.

End Properties.
